(** * Spectra: column orthogonalisation routines

    A shallow embedding of [include/Spectra/LinAlg/Orthogonalization.h]
    and [include/Spectra/Util/TypeTraits.h].

    A dense matrix is a record holding its number of rows and the list of
    its columns; the routines mutate the caller's matrix in place, which is
    modelled by a state monad over the matrix whose computations end
    either normally or in an abort (a failed [assert], an index out of
    range, a division by a zero norm).  Scalars are exact: the real
    instance is Rocq's [R], the complex instance is pairs of reals.  The
    routines are written once, over any scalar type, as the templates are.

    Eigen's kernels are modelled by what they compute: products, column
    blocks, [dot] (which conjugates its first argument), [transpose]
    (which does not conjugate), [norm] and [normalize].  The Householder
    factorisation is a parameter. *)

From Stdlib Require Import Reals Lra ZArith Lia List.
From stdpp Require Import base list.

(** ** Scalars *)

(** What the templates ask of [Matrix::Scalar]: field operations,
    conjugation, the squared modulus (a real) and division by a real. *)
Class Scalar (K : Type) := {
  s0 : K;
  s1 : K;
  sadd : K -> K -> K;
  ssub : K -> K -> K;
  smul : K -> K -> K;
  sconj : K -> K;
  sabs2 : K -> R;
  sdivr : K -> R -> K
}.

#[export] Instance Scalar_R : Scalar R := {|
  s0 := 0%R;
  s1 := 1%R;
  sadd := Rplus;
  ssub := Rminus;
  smul := Rmult;
  sconj := fun x => x;
  sabs2 := fun x => (x * x)%R;
  sdivr := Rdiv
|}.

(** [std::complex<double>] in exact arithmetic: real and imaginary part. *)
Definition C : Type := (R * R)%type.

#[export] Instance Scalar_C : Scalar C := {|
  s0 := (0, 0)%R;
  s1 := (1, 0)%R;
  sadd := fun x y => (x.1 + y.1, x.2 + y.2)%R;
  ssub := fun x y => (x.1 - y.1, x.2 - y.2)%R;
  smul := fun x y => (x.1 * y.1 - x.2 * y.2, x.1 * y.2 + x.2 * y.1)%R;
  sconj := fun x => (x.1, - x.2)%R;
  sabs2 := fun x => (x.1 * x.1 + x.2 * x.2)%R;
  sdivr := fun x r => (x.1 / r, x.2 / r)%R
|}.

(** ** Errors and the in-place monad *)

Inductive error : Type :=
| PreconditionViolation   (* an [assert] of [assert_leftColsToSkip] *)
| IndexOutOfRange         (* Eigen's own range and size assertions *)
| ZeroDivisor.            (* division by a norm that is exactly zero *)

Inductive outcome (X : Type) : Type :=
| Done (x : X)
| Abort (e : error).
Arguments Done {X} x.
Arguments Abort {X} e.

(** The state is the caller's buffer; an abort keeps the buffer as it
    was when the failing step was reached. *)
Definition M (St X : Type) : Type := St -> St * outcome X.

Definition ret {St X} (x : X) : M St X := fun m => (m, Done x).
Definition fail {St X} (e : error) : M St X := fun m => (m, Abort e).
Definition lift {St X} (o : outcome X) : M St X := fun m => (m, o).
Definition bind {St X Y} (c : M St X) (k : X -> M St Y) : M St Y :=
  fun m => match c m with
           | (m', Done x) => k x m'
           | (m', Abort e) => (m', Abort e)
           end.
Definition get {St} : M St St := fun m => (m, Done m).
Definition put {St} (m' : St) : M St unit := fun _ => (m', Done tt).

Notation "x <- c ;; k" := (bind c (fun x => k))
  (at level 100, c at next level, right associativity, only parsing).
Notation "c ;;; k" := (bind c (fun _ => k))
  (at level 100, right associativity, only parsing).

(** [for (k = lo; k < hi; ++k) body(k)], by the number of iterations left.
    Loop counters start past the guard on [leftColsToSkip], so they are
    naturals. *)
Fixpoint for_count {St} (n : nat) (k : nat) (body : nat -> M St unit) : M St unit :=
  match n with
  | O => ret tt
  | S n' => body k ;;; for_count n' (S k) body
  end.

Definition for_range {St} (lo hi : nat) (body : nat -> M St unit) : M St unit :=
  for_count (hi - lo) lo body.

(** All-or-nothing traversal: the first abort wins. *)
Fixpoint mapM_outcome {X Y} (f : X -> outcome Y) (l : list X) : outcome (list Y) :=
  match l with
  | [] => Done []
  | x :: l' =>
      match f x with
      | Abort e => Abort e
      | Done y =>
          match mapM_outcome f l' with
          | Abort e => Abort e
          | Done ys => Done (y :: ys)
          end
      end
  end.

Section Routines.

Context {K : Type} `{Scalar K}.

Definition Vector : Type := list K.

(** [m.rows()] and the columns [m.col(0)], [m.col(1)], ... *)
Record Matrix : Type := mkMatrix {
  rows : nat;
  colvecs : list Vector
}.

(** [Eigen::Index] is a signed integer. *)
Definition Index : Type := Z.

Definition cols (m : Matrix) : Index := Z.of_nat (length (colvecs m)).

(** Every column has [rows] entries. *)
Definition wf (m : Matrix) : Prop :=
  Forall (fun c => length c = rows m) (colvecs m).

(** *** Vector kernels (Eigen) *)

Definition vzero (n : nat) : Vector := replicate n s0.
Definition vadd (u v : Vector) : Vector := zip_with sadd u v.
Definition vsub (u v : Vector) : Vector := zip_with ssub u v.
Definition vscale (a : K) (v : Vector) : Vector := map (smul a) v.
Definition ssum (l : list K) : K := foldr sadd s0 l.

(** [u.dot(v)]: conjugate-linear in the first argument. *)
Definition dot (u v : Vector) : K :=
  ssum (zip_with (fun a b => smul (sconj a) b) u v).

(** One entry of [u.transpose() * v]: no conjugation. *)
Definition tdot (u v : Vector) : K :=
  ssum (zip_with smul u v).

Definition squaredNorm (v : Vector) : R :=
  foldr Rplus 0%R (map sabs2 v).

Definition norm (v : Vector) : R := sqrt (squaredNorm v).

(** [v / v.norm()], entry by entry. *)
Definition normalized (v : Vector) : Vector :=
  map (fun x => sdivr x (norm v)) v.

(** [v.normalize()], i.e. [v /= v.norm()], as a guarded division: a norm
    that is exactly zero ends the computation.  The guard belongs to the
    embedding, which has no value for the quotient by zero; the routines
    have no exit there and carry on (see [meets_zero_norm]). *)
Definition normalize (v : Vector) : outcome Vector :=
  if Req_dec_T (norm v) 0 then Abort ZeroDivisor
  else Done (normalized v).

(** *** Matrix kernels (Eigen) *)

Definition leftCols (m : Matrix) (k : nat) : Matrix :=
  mkMatrix (rows m) (take k (colvecs m)).

Definition rightCols (m : Matrix) (r : nat) : Matrix :=
  mkMatrix (rows m) (drop (length (colvecs m) - r) (colvecs m)).

(** [p * w] for a matrix [p] and a column vector [w]. *)
Definition mat_vec (p : Matrix) (w : Vector) : Vector :=
  foldr vadd (vzero (rows p)) (zip_with vscale w (colvecs p)).

(** [p.transpose() * v] for a column vector [v]. *)
Definition trans_vec (p : Matrix) (v : Vector) : Vector :=
  map (fun c => tdot c v) (colvecs p).

(** [p * w] for matrices. *)
Definition mat_mul (p w : Matrix) : Matrix :=
  mkMatrix (rows p) (map (mat_vec p) (colvecs w)).

(** [p.transpose() * b] for matrices. *)
Definition trans_mul (p b : Matrix) : Matrix :=
  mkMatrix (length (colvecs p)) (map (trans_vec p) (colvecs b)).

(** [a - b] for matrices of one shape. *)
Definition mat_sub (a b : Matrix) : Matrix :=
  mkMatrix (rows a) (zip_with vsub (colvecs a) (colvecs b)).

(** [Matrix::Identity(n, k)]: the first [k] columns of the unit matrix. *)
Definition unit_vec (n j : nat) : Vector :=
  map (fun i => if Nat.eqb i j then s1 else s0) (seq 0 n).

Definition Identity (n k : nat) : Matrix :=
  mkMatrix n (map (unit_vec n) (seq 0 k)).

(** *** Column and block access on the caller's matrix *)

(** Reading [in_output.col(j)]. *)
Definition get_col (j : nat) : M Matrix Vector :=
  m <- get ;;
  match colvecs m !! j with
  | Some c => ret c
  | None => fail IndexOutOfRange
  end.

(** Writing [in_output.col(j)]. *)
Definition set_col (j : nat) (c : Vector) : M Matrix unit :=
  m <- get ;;
  if Nat.ltb j (length (colvecs m))
  then put (mkMatrix (rows m) (<[j := c]> (colvecs m)))
  else fail IndexOutOfRange.

(** [in_output.col(j).normalize()]. *)
Definition normalize_col (j : nat) : M Matrix unit :=
  c <- get_col j ;;
  c' <- lift (normalize c) ;;
  set_col j c'.

(** Writing the block [in_output.rightCols(r)]; a block keeps its shape. *)
Definition set_rightCols (r : nat) (b : Matrix) : M Matrix unit :=
  m <- get ;;
  if Nat.leb r (length (colvecs m)) && Nat.eqb (length (colvecs b)) r
  then put (mkMatrix (rows m)
              (take (length (colvecs m) - r) (colvecs m) ++ colvecs b))
  else fail IndexOutOfRange.

(** Running a routine on the view [Eigen::Ref<Matrix> v = in_output.rightCols(r)]:
    what it writes lands in the caller's matrix, and the view cannot be
    resized. *)
Definition on_rightCols {X} (r : nat) (c : M Matrix X) : M Matrix X :=
  fun m =>
    match c (rightCols m r) with
    | (b, o) =>
        match set_rightCols r b m with
        | (m', Done _) => (m', o)
        | (m', Abort e) => (m', Abort e)
        end
    end.

(** *** Orthogonalization.h *)

Definition c_assert (b : bool) : M Matrix unit :=
  if b then ret tt else fail PreconditionViolation.

Definition assert_leftColsToSkip (leftColsToSkip : Index) : M Matrix unit :=
  in_output <- get ;;
  c_assert (cols in_output >? leftColsToSkip)%Z ;;;
  c_assert (leftColsToSkip >=? 0)%Z.

Definition treatFirstCol (leftColsToSkip : Index) : M Matrix Index :=
  if (leftColsToSkip =? 0)%Z
  then normalize_col 0 ;;; ret 1%Z
  else ret leftColsToSkip.

Section QR.

(** The orthogonal factor [Eigen::HouseholderQR<Matrix>(a).householderQ()];
    the factorisation kernel is Eigen's and is a parameter here. *)
Variable householderQ : Matrix -> Matrix.

Definition QR_orthogonalisation : M Matrix unit :=
  in_output <- get ;;
  let nrows := rows in_output in
  let ncols := length (colvecs in_output) in
  let ncols := Nat.min nrows ncols in
  let I := Identity nrows ncols in
  put (mat_mul (householderQ in_output) I).

End QR.

(** One projection step of the inner loop of the modified process. *)
Definition MGS_step (k j : nat) : M Matrix unit :=
  cj <- get_col j ;;
  ck <- get_col k ;;
  set_col k (vsub ck (vscale (dot cj ck) cj)).

Definition MGS_orthogonalisation (leftColsToSkip : Index) : M Matrix unit :=
  assert_leftColsToSkip leftColsToSkip ;;;
  leftColsToSkip <- treatFirstCol leftColsToSkip ;;
  in_output <- get ;;
  for_range (Z.to_nat leftColsToSkip) (length (colvecs in_output)) (fun k =>
    for_range 0 k (MGS_step k) ;;;
    normalize_col k).

(** The body of the loop of the classical process. *)
Definition GS_step (j : nat) : M Matrix unit :=
  in_output <- get ;;
  cj <- get_col j ;;
  set_col j (vsub cj (mat_vec (leftCols in_output j)
                        (trans_vec (leftCols in_output j) cj))) ;;;
  normalize_col j.

Definition GS_orthogonalisation (leftColsToSkip : Index) : M Matrix unit :=
  assert_leftColsToSkip leftColsToSkip ;;;
  leftColsToSkip <- treatFirstCol leftColsToSkip ;;
  in_output <- get ;;
  for_range (Z.to_nat leftColsToSkip) (length (colvecs in_output)) GS_step.

Definition twice_is_enough_orthogonalisation (leftColsToSkip : Index) : M Matrix unit :=
  GS_orthogonalisation leftColsToSkip ;;;
  GS_orthogonalisation leftColsToSkip.

(** [in_output.rightCols(r).colwise().normalize()]. *)
Definition colwise_normalize_rightCols (r : nat) : M Matrix unit :=
  m <- get ;;
  cs <- lift (mapM_outcome normalize (colvecs (rightCols m r))) ;;
  set_rightCols r (mkMatrix (rows m) cs).

Definition partial_orthogonalisation (leftColsToSkip : Index) : M Matrix unit :=
  assert_leftColsToSkip leftColsToSkip ;;;
  if (leftColsToSkip =? 0)%Z then ret tt
  else
    in_output <- get ;;
    let rightColToOrtho := Z.to_nat (cols in_output - leftColsToSkip) in
    let left := leftCols in_output (Z.to_nat leftColsToSkip) in
    let right := rightCols in_output rightColToOrtho in
    set_rightCols rightColToOrtho
      (mat_sub right (mat_mul left (trans_mul left right))) ;;;
    colwise_normalize_rightCols rightColToOrtho.

Definition JensWehner_orthogonalisation (householderQ : Matrix -> Matrix)
    (leftColsToSkip : Index) : M Matrix unit :=
  assert_leftColsToSkip leftColsToSkip ;;;
  in_output <- get ;;
  let rightColToOrtho := Z.to_nat (cols in_output - leftColsToSkip) in
  partial_orthogonalisation leftColsToSkip ;;;
  on_rightCols rightColToOrtho (QR_orthogonalisation householderQ) ;;;
  in_output <- get ;;
  set_rightCols rightColToOrtho (rightCols in_output rightColToOrtho).

(** *** What the routines are meant to establish *)

(** The Gram matrix of the columns is the identity. *)
Definition orthonormal (cs : list Vector) : Prop :=
  forall i j ci cj, cs !! i = Some ci -> cs !! j = Some cj ->
    dot ci cj = if decide (i = j) then s1 else s0.

(** Every column of [cs] is orthogonal to every column of [ps]. *)
Definition orthogonal_to (ps cs : list Vector) : Prop :=
  forall p c, p ∈ ps -> c ∈ cs -> dot p c = s0.

(** Linear independence of [n]-vectors: only the trivial combination
    vanishes. *)
Definition lin_indep (n : nat) (cs : list Vector) : Prop :=
  forall a : list K, length a = length cs ->
    mat_vec (mkMatrix n cs) a = vzero n -> Forall (fun x => x = s0) a.

(** The linear span of [B] inside the [n]-vectors. *)
Inductive in_span (n : nat) (B : list Vector) : Vector -> Prop :=
| span_zero : in_span n B (vzero n)
| span_gen b : b ∈ B -> length b = n -> in_span n B b
| span_add u v : in_span n B u -> in_span n B v -> in_span n B (vadd u v)
| span_scale a u : in_span n B u -> in_span n B (vscale a u).

(** What is left of [c] once its projection on the columns of [p] is
    taken away: [c - p * (p.transpose() * c)]. *)
Definition residual (p : Matrix) (c : Vector) : Vector :=
  vsub c (mat_vec p (trans_vec p c)).

(** The loop invariant of both Gram-Schmidt processes on a matrix whose
    columns were [cs0] at the call: before column [j] is treated, the
    columns before it are orthonormal and lie in the span of the first
    [j] original columns, and the columns from [j] on are as they were. *)
Definition GS_inv (n : nat) (cs0 : list Vector) (j : nat) (m : Matrix) : Prop :=
  rows m = n /\
  Forall (fun c => length c = n) (colvecs m) /\
  length (colvecs m) = length cs0 /\
  orthonormal (take j (colvecs m)) /\
  drop j (colvecs m) = drop j cs0 /\
  (forall q, q ∈ take j (colvecs m) -> in_span n (take j cs0) q).

(** The invariant of the inner loop of the modified process while it
    treats column [k] of a buffer that held the columns [cs] when the
    loop was entered: only column [k] has changed, it has lost its
    components along the columns before [j], and it has not left the
    span it started in nor entered the span of the columns before it. *)
Definition MGS_inv (n : nat) (cs0 cs : list Vector) (k j : nat) (m : Matrix) : Prop :=
  exists v, m = mkMatrix n (<[k := v]> cs) /\
    length v = n /\
    ~ in_span n (take k cs) v /\
    in_span n (take (S k) cs0) v /\
    (forall i q, (i < j)%nat -> cs !! i = Some q -> dot q v = s0).

(** Entries below the diagonal vanish. *)
Definition upper_triangular (r : Matrix) : Prop :=
  forall j c i x, colvecs r !! j = Some c -> c !! i = Some x ->
    (j < i)%nat -> x = s0.

(** The contract of Eigen's kernel on an input [a]: [q] is a square
    matrix with orthonormal columns and [a = q * r] for an upper
    triangular [r]. *)
Definition is_householderQ (a q : Matrix) : Prop :=
  rows q = rows a /\ length (colvecs q) = rows a /\ wf q /\
  orthonormal (colvecs q) /\
  exists r, rows r = rows a /\ length (colvecs r) = length (colvecs a) /\
            wf r /\ upper_triangular r /\ a = mat_mul q r.

End Routines.

Arguments Matrix K : clear implicits.
Arguments Vector K : clear implicits.

(** ** Specifications of in-place computations *)

(** A postcondition on the final buffer and the outcome, from a
    precondition on the initial buffer. *)
Definition hoare {K X} (P : Matrix K -> Prop) (c : M (Matrix K) X)
    (Q : Matrix K -> outcome X -> Prop) : Prop :=
  forall m, P m -> Q (c m).1 (c m).2.

(** The frame of a call with [l] columns to skip on a matrix of [n]
    columns: the shape and the first [l] columns. *)
Definition frame {K} (l n : nat) (pre : list (Vector K)) (m : Matrix K) : Prop :=
  length (colvecs m) = n /\ take l (colvecs m) = pre.

(** The computation keeps the frame, whether it ends normally or not, and
    does not end in a precondition violation. *)
Definition framed {K X} (F : Matrix K -> Prop) (c : M (Matrix K) X) : Prop :=
  hoare F c (fun m' o => F m' /\ o <> Abort PreconditionViolation).

(** The computation keeps the numbers of rows and of columns of the
    buffer, whether it ends normally or not. *)
Definition keeps_shape {K X} (c : M (Matrix K) X) : Prop :=
  forall m, rows (c m).1 = rows m /\
            length (colvecs (c m).1) = length (colvecs m).

(** The state of a sweep over the columns that has reached column [j]: a
    buffer whose columns all have [rows] entries and whose first [j]
    columns are orthonormal. *)
Definition sweep_inv {K} `{Scalar K} (j : nat) (m : Matrix K) : Prop :=
  wf m /\ (j <= length (colvecs m))%nat /\ orthonormal (take j (colvecs m)).

(** What a sweep that has reached column [j] has made of the columns
    [cs0] the buffer held at the call: the columns from [j] on are as they
    were; each column [i] before [j] lies in the span of the original
    columns up to [i], each original column [i] before [j] lies in the span
    of the columns of the buffer up to [i], and has a positive component
    along column [i] of the buffer. *)
Definition nested_inv (n : nat) (cs0 : list (Vector R))
    (j : nat) (m : Matrix R) : Prop :=
  rows m = n /\ length (colvecs m) = length cs0 /\
  drop j (colvecs m) = drop j cs0 /\
  forall i, (i < j)%nat ->
    (forall q, colvecs m !! i = Some q -> in_span n (take (S i) cs0) q) /\
    (forall c, cs0 !! i = Some c ->
       in_span n (take (S i) (colvecs m)) c /\
       forall q, colvecs m !! i = Some q -> (0 < dot q c)%R).

(** The computation keeps the number [n] of columns of the buffer and
    does not trip one of Eigen's range and size checks. *)
Definition in_bounds {K X} (n : nat) (c : M (Matrix K) X) : Prop :=
  hoare (fun m => length (colvecs m) = n) c
    (fun m' o => length (colvecs m') = n /\ o <> Abort IndexOutOfRange).

(** The run hands a vector of norm exactly zero to a normalisation.  The
    embedding stops at that point, with the buffer as it then is.  The
    routines themselves have no such exit: they carry on with whatever
    Eigen's [normalize] makes of a zero norm, and of what follows this
    point the embedding says nothing. *)
Definition meets_zero_norm {K X} (c : M (Matrix K) X) (m : Matrix K) : Prop :=
  (c m).2 = Abort ZeroDivisor.

Ltac munfold := unfold bind, ret, fail, lift, get, put in *.

(** The Gram matrix of at most two explicit real columns, entry by entry. *)
Ltac orthonormal_by_cases :=
  let i := fresh "i" in let j := fresh "j" in
  let Hi := fresh "Hi" in let Hj := fresh "Hj" in
  intros i j ? ? Hi Hj;
  destruct i as [|[|i]]; destruct j as [|[|j]]; simpl in Hi, Hj; try done;
  injection Hi as <-; injection Hj as <-;
  case_decide; try lia; unfold dot; simpl; lra.

(** Equalities between complex scalars, component by component. *)
Ltac cdestruct := repeat match goal with x : C |- _ => destruct x end.
Ltac csolve := intros; cdestruct; simpl in *; f_equal; lra.

(** ** Sample inputs *)

(** A single column, the zero vector of length 2. *)
Definition zero_column : Matrix R :=
  mkMatrix 2 [[0; 0]]%R.

(** Two columns of length 2, the second twice the first. *)
Definition dependent_columns : Matrix R :=
  mkMatrix 2 [[1; 0]; [2; 0]]%R.

(** Two independent columns of length 2 that are not orthogonal. *)
Definition skew_columns : Matrix R :=
  mkMatrix 2 [[1; 0]; [1; 1]]%R.

(** A unit first column and an independent second one. *)
Definition unit_then_skew : Matrix R :=
  mkMatrix 2 [[1; 0]; [3; 4]]%R.

(** A rotation of the plane: orthonormal columns. *)
Definition rotation : Matrix R :=
  mkMatrix 2 [[3/5; 4/5]; [-4/5; 3/5]]%R.

(** An orthogonal factor for the block [(0, 1)]: the swap of the two
    coordinates. *)
Definition swap_factor (_ : Matrix R) : Matrix R :=
  mkMatrix 2 [[0; 1]; [1; 0]]%R.

(** Two independent complex columns of length 2; column 0 has unit norm
    and a purely imaginary entry. *)
Definition complex_columns : Matrix C :=
  mkMatrix 2 [[(3/5, 0); (0, 4/5)]; [(9, 0); (1, 0)]]%R.

(** What the classical process makes of them. *)
Definition complex_columns_after_GS : Matrix C :=
  mkMatrix 2 [[(3/5, 0); (0, 4/5)];
              [(144/185, -12/185); (41/185, -108/185)]]%R.

(** A unit first column and two further independent columns of
    length 3. *)
Definition unit_then_two : Matrix R :=
  mkMatrix 3 [[1; 0; 0]; [1; 3; 4]; [2; 1; 0]]%R.

(** Two complex columns of length 2 that are orthonormal for the
    Hermitian inner product. *)
Definition complex_orthonormal : Matrix C :=
  mkMatrix 2 [[(3/5, 0); (0, 4/5)]; [(0, 4/5); (3/5, 0)]]%R.

(** One row and two columns: more columns than rows. *)
Definition wide_row : Matrix R :=
  mkMatrix 1 [[1]; [2]]%R.

(** The orthogonal factor of a matrix of two rows that is already upper
    triangular: the unit matrix. *)
Definition unit_factor (_ : Matrix R) : Matrix R :=
  mkMatrix 2 [[1; 0]; [0; 1]]%R.

(** An upper triangular complex matrix of order 2, with columns
    [(1, 0)] and [(i, 2)]. *)
Definition complex_triangular : Matrix C :=
  mkMatrix 2 [[(1, 0); (0, 0)]; [(0, 1); (2, 0)]]%R.

(** Its orthogonal factor: the unit matrix. *)
Definition complex_unit_factor (_ : Matrix C) : Matrix C :=
  mkMatrix 2 [[(1, 0); (0, 0)]; [(0, 0); (1, 0)]]%R.

(** ** TypeTraits.h *)

(** The scalar types the header tells apart: three full specialisations
    and the generic definition for any other type. *)
Inductive scalar_type : Type :=
| Float
| Double
| LongDouble
| OtherScalar (name : nat).

Section TypeTraits.

(** The values of each scalar type, the constants of
    [std::numeric_limits] and [Eigen::numext::numeric_limits], and the
    type's own multiplication: all supplied by the platform. *)
Variable value : scalar_type -> Type.
Variable std_numeric_limits_epsilon : forall t, value t.
Variable std_numeric_limits_min : forall t, value t.
Variable eigen_numeric_limits_epsilon : forall t, value t.
Variable mul : forall t, value t -> value t -> value t.

Definition TypeTraits_epsilon (t : scalar_type) : value t :=
  match t with
  | Float => std_numeric_limits_epsilon Float
  | Double => std_numeric_limits_epsilon Double
  | LongDouble => std_numeric_limits_epsilon LongDouble
  | OtherScalar u => eigen_numeric_limits_epsilon (OtherScalar u)
  end.

Definition TypeTraits_min (t : scalar_type) : value t :=
  match t with
  | Float => std_numeric_limits_min Float
  | Double => std_numeric_limits_min Double
  | LongDouble => std_numeric_limits_min LongDouble
  | OtherScalar u =>
      mul _ (mul _ (TypeTraits_epsilon (OtherScalar u))
                   (TypeTraits_epsilon (OtherScalar u)))
            (TypeTraits_epsilon (OtherScalar u))
  end.

End TypeTraits.

(** * Properties *)

(** ** The monad and the loops *)

Section Hoare.

Context {K : Type} `{Scalar K}.

Lemma hoare_bind {X Y} P (R : X -> Matrix K -> Prop) Q
    (c : M (Matrix K) X) (k : X -> M (Matrix K) Y) :
  hoare P c (fun m' o => match o with
                         | Done x => R x m'
                         | Abort e => Q m' (Abort e)
                         end) ->
  (forall x, hoare (R x) (k x) Q) ->
  hoare P (bind c k) Q.
Proof.
  intros Hc Hk m Hm. specialize (Hc m Hm). unfold bind.
  destruct (c m) as [m' [x|e]]; simpl in *.
  - apply Hk, Hc.
  - exact Hc.
Qed.

Lemma hoare_weaken {X} (P P' : Matrix K -> Prop) (Q Q' : _ -> outcome X -> Prop) c :
  hoare P' c Q' -> (forall m, P m -> P' m) -> (forall m o, Q' m o -> Q m o) ->
  hoare P c Q.
Proof. intros Hc HP HQ m Hm. apply HQ, Hc, HP, Hm. Qed.

(** The rule for counted loops: [I k] holds before iteration [k]. *)
Lemma hoare_for_count (I : nat -> Matrix K -> Prop) Q body n lo :
  (forall k, (lo <= k < lo + n)%nat ->
     hoare (I k) (body k) (fun m' o => match o with
                                       | Done _ => I (S k) m'
                                       | Abort e => Q m' (Abort e)
                                       end)) ->
  (forall m, I (lo + n)%nat m -> Q m (Done tt)) ->
  hoare (I lo) (for_count n lo body) Q.
Proof.
  revert lo. induction n as [|n IH]; intros lo Hbody Hend.
  - intros m Hm. simpl. apply Hend. by rewrite Nat.add_0_r.
  - simpl. eapply hoare_bind.
    + apply Hbody. lia.
    + intros []. apply IH.
      * intros k Hk. apply Hbody. lia.
      * intros m Hm. apply Hend. by replace (lo + S n)%nat with (S lo + n)%nat by lia.
Qed.

Lemma hoare_for_range (I : nat -> Matrix K -> Prop) Q body lo hi :
  (lo <= hi)%nat ->
  (forall k, (lo <= k < hi)%nat ->
     hoare (I k) (body k) (fun m' o => match o with
                                       | Done _ => I (S k) m'
                                       | Abort e => Q m' (Abort e)
                                       end)) ->
  (forall m, I hi m -> Q m (Done tt)) ->
  hoare (I lo) (for_range lo hi body) Q.
Proof.
  intros Hle Hbody Hend. unfold for_range. apply hoare_for_count.
  - intros k Hk. apply Hbody. lia.
  - intros m Hm. apply Hend. by replace hi with (lo + (hi - lo))%nat by lia.
Qed.

End Hoare.

(** ** The frame: shape and skipped columns *)

Section Frame.

Context {K : Type} `{Scalar K}.

Implicit Types (m b : Matrix K) (F : Matrix K -> Prop).
Implicit Types (pre : list (Vector K)) (c : Vector K).

Lemma framed_ret {X} F (x : X) : framed F (ret x).
Proof. intros m Hm. by split. Qed.

Lemma framed_fail {X} F e :
  e <> PreconditionViolation -> framed F (@fail _ X e).
Proof. intros He m Hm. split; [done|]. simpl. congruence. Qed.

Lemma framed_lift {X} F (o : outcome X) :
  o <> Abort PreconditionViolation -> framed F (lift o).
Proof. intros Ho m Hm. by split. Qed.

Lemma framed_bind_val {X Y} F (V : X -> Prop) (c : M (Matrix K) X)
    (k : X -> M (Matrix K) Y) :
  hoare F c (fun m' o => F m' /\ match o with
                                 | Done x => V x
                                 | Abort e => e <> PreconditionViolation
                                 end) ->
  (forall x, V x -> framed F (k x)) ->
  framed F (bind c k).
Proof.
  intros Hc Hk. eapply hoare_bind with (R := fun x m' => F m' /\ V x).
  - intros m Hm. destruct (Hc m Hm) as [HF Ho].
    destruct (c m).2; [done|]. split; [done|congruence].
  - intros x m [Hm Hx]. by apply Hk.
Qed.

Lemma framed_bind {X Y} F (c : M (Matrix K) X) (k : X -> M (Matrix K) Y) :
  framed F c -> (forall x, framed F (k x)) -> framed F (bind c k).
Proof.
  intros Hc Hk. apply framed_bind_val with (V := fun _ => True); [|auto].
  intros m Hm. destruct (Hc m Hm) as [HF Ho]. split; [done|].
  destruct (c m).2; [done|congruence].
Qed.

Lemma framed_get_bind {X} F (k : Matrix K -> M (Matrix K) X) :
  (forall m0, F m0 -> framed F (k m0)) -> framed F (bind get k).
Proof. intros Hk m Hm. exact (Hk m Hm m Hm). Qed.

Lemma framed_for_count F body n lo :
  (forall k, (lo <= k)%nat -> framed F (body k)) ->
  framed F (for_count n lo body).
Proof.
  revert lo. induction n as [|n IH]; intros lo Hbody; simpl.
  - apply framed_ret.
  - apply framed_bind; [by apply Hbody|]. intros _. apply IH.
    intros k Hk. apply Hbody. lia.
Qed.

Lemma framed_for_range F body lo hi :
  (forall k, (lo <= k)%nat -> framed F (body k)) ->
  framed F (for_range lo hi body).
Proof. apply framed_for_count. Qed.

Lemma framed_get_col l n pre j : framed (frame l n pre) (get_col j).
Proof.
  apply framed_get_bind. intros m0 _.
  destruct (colvecs m0 !! j); [apply framed_ret|by apply framed_fail].
Qed.

Lemma framed_set_col l n pre j c :
  (l <= j)%nat -> framed (frame l n pre) (set_col j c).
Proof.
  intros Hj. apply framed_get_bind. intros m0 [Hn Hpre].
  destruct (_ <? _)%nat; [|by apply framed_fail].
  intros m _. simpl. split; [|done]. split; simpl.
  - by rewrite length_insert.
  - by rewrite take_insert_ge.
Qed.

Lemma framed_normalize_col l n pre j :
  (l <= j)%nat -> framed (frame l n pre) (normalize_col j).
Proof.
  intros Hj. apply framed_bind; [apply framed_get_col|]. intros c.
  apply framed_bind; [|intros c'; by apply framed_set_col].
  apply framed_lift. unfold normalize. by destruct (Req_dec_T _ _).
Qed.

Lemma framed_set_rightCols l n pre r b :
  (l + r <= n)%nat -> framed (frame l n pre) (set_rightCols r b).
Proof.
  intros Hr. apply framed_get_bind. intros m0 [Hn Hpre].
  destruct (_ && _) eqn:Hb; [|by apply framed_fail].
  apply andb_true_iff in Hb as [Hb1 Hb2].
  apply Nat.leb_le in Hb1. apply Nat.eqb_eq in Hb2.
  intros m _. simpl. split; [|done]. split; simpl.
  - rewrite length_app, length_take. lia.
  - rewrite take_app_le by (rewrite length_take; lia).
    rewrite take_take. by replace (l `min` _)%nat with l by lia.
Qed.

Lemma framed_on_rightCols {X} l n pre r (c : M (Matrix K) X) :
  (l + r <= n)%nat ->
  (forall b, (c b).2 <> Abort PreconditionViolation) ->
  framed (frame l n pre) (on_rightCols r c).
Proof.
  intros Hr Hc m Hm. unfold on_rightCols.
  specialize (Hc (rightCols m r)). destruct (c (rightCols m r)) as [b o].
  pose proof (framed_set_rightCols l n pre r b Hr m Hm) as [HF Ho].
  destruct (set_rightCols r b m) as [m' [[]|e]]; simpl in *;
    (split; [assumption|]); [assumption|congruence].
Qed.

Lemma framed_assert_leftColsToSkip l n pre L :
  (0 <= L < Z.of_nat n)%Z ->
  framed (frame l n pre) (assert_leftColsToSkip L).
Proof.
  intros HL. apply framed_get_bind. intros m0 [Hn _].
  unfold cols. rewrite Hn.
  replace (Z.of_nat n >? L)%Z with true by (symmetry; apply Z.gtb_lt; lia).
  replace (L >=? 0)%Z with true by (symmetry; apply Z.geb_le; lia).
  apply framed_bind; intros; apply framed_ret.
Qed.

Lemma framed_treatFirstCol l n pre L :
  (0 <= L)%Z -> l = Z.to_nat L ->
  hoare (frame l n pre) (treatFirstCol L)
    (fun m' o => frame l n pre m' /\
       match o with
       | Done L' => (l <= Z.to_nat L')%nat
       | Abort e => e <> PreconditionViolation
       end).
Proof.
  intros HL ->. unfold treatFirstCol. destruct (Z.eqb_spec L 0) as [->|Hne].
  - intros m Hm. simpl Z.to_nat in *.
    pose proof (framed_normalize_col 0 n pre 0 (Nat.le_refl _) m Hm) as [HF Ho].
    unfold bind. destruct (normalize_col 0 m) as [m' [[]|e]]; simpl in *.
    + split; [done|lia].
    + split; [done|congruence].
  - intros m Hm. simpl. split; [done|lia].
Qed.

Lemma mapM_normalize_no_violation (cs : list (Vector K)) :
  mapM_outcome normalize cs <> Abort PreconditionViolation.
Proof.
  induction cs as [|c cs IH]; simpl; [done|].
  unfold normalize at 1. destruct (Req_dec_T _ _); [done|].
  destruct (mapM_outcome normalize cs) as [ys|e]; [done|]. congruence.
Qed.

Section Routine.

Variables (n : nat) (L : Index) (pre : list (Vector K)).
Hypothesis HL : (0 <= L < Z.of_nat n)%Z.

Lemma framed_GS_step j :
  (Z.to_nat L <= j)%nat -> framed (frame (Z.to_nat L) n pre) (GS_step j).
Proof.
  intros Hj. apply framed_get_bind. intros m0 _.
  apply framed_bind; [apply framed_get_col|]. intros cj.
  apply framed_bind; [by apply framed_set_col|]. intros _.
  by apply framed_normalize_col.
Qed.

Lemma framed_MGS_step k j :
  (Z.to_nat L <= k)%nat -> framed (frame (Z.to_nat L) n pre) (MGS_step k j).
Proof.
  intros Hk. apply framed_bind; [apply framed_get_col|]. intros cj.
  apply framed_bind; [apply framed_get_col|]. intros ck.
  by apply framed_set_col.
Qed.

Lemma framed_GS :
  framed (frame (Z.to_nat L) n pre) (GS_orthogonalisation L).
Proof.
  apply framed_bind; [by apply framed_assert_leftColsToSkip|]. intros _.
  eapply framed_bind_val; [apply framed_treatFirstCol; [lia|done]|].
  intros L' HL'. simpl in HL'. apply framed_get_bind. intros m0 _.
  apply framed_for_range. intros j Hj. apply framed_GS_step. lia.
Qed.

Lemma framed_MGS :
  framed (frame (Z.to_nat L) n pre) (MGS_orthogonalisation L).
Proof.
  apply framed_bind; [by apply framed_assert_leftColsToSkip|]. intros _.
  eapply framed_bind_val; [apply framed_treatFirstCol; [lia|done]|].
  intros L' HL'. simpl in HL'. apply framed_get_bind. intros m0 _.
  apply framed_for_range. intros k Hk. apply framed_bind.
  - apply framed_for_range. intros j _. apply framed_MGS_step. lia.
  - intros _. apply framed_normalize_col. lia.
Qed.

Lemma framed_twice_is_enough :
  framed (frame (Z.to_nat L) n pre) (twice_is_enough_orthogonalisation L).
Proof. apply framed_bind; [|intros _]; apply framed_GS. Qed.

Lemma framed_colwise_normalize_rightCols r :
  (Z.to_nat L + r <= n)%nat ->
  framed (frame (Z.to_nat L) n pre) (colwise_normalize_rightCols r).
Proof.
  intros Hr. apply framed_get_bind. intros m0 _.
  apply framed_bind; [|intros cs; by apply framed_set_rightCols].
  apply framed_lift, mapM_normalize_no_violation.
Qed.

Lemma framed_partial :
  framed (frame (Z.to_nat L) n pre) (partial_orthogonalisation L).
Proof.
  apply framed_bind; [by apply framed_assert_leftColsToSkip|]. intros _.
  destruct (L =? 0)%Z; [apply framed_ret|].
  apply framed_get_bind. intros m0 [Hn _]. unfold cols. rewrite Hn.
  apply framed_bind; [apply framed_set_rightCols; lia|]. intros _.
  apply framed_colwise_normalize_rightCols. lia.
Qed.

Lemma framed_JensWehner hq :
  framed (frame (Z.to_nat L) n pre) (JensWehner_orthogonalisation hq L).
Proof.
  apply framed_bind; [by apply framed_assert_leftColsToSkip|]. intros _.
  apply framed_get_bind. intros m0 [Hn _]. unfold cols. rewrite Hn.
  apply framed_bind; [apply framed_partial|]. intros _.
  apply framed_bind; [apply framed_on_rightCols; [lia|done]|]. intros _.
  apply framed_get_bind. intros m1 _. apply framed_set_rightCols. lia.
Qed.

End Routine.

(** Outside its range the guard aborts at once, before anything is
    written. *)
Lemma assert_leftColsToSkip_rejects m L :
  (L < 0 \/ cols m <= L)%Z ->
  assert_leftColsToSkip L m = (m, Abort PreconditionViolation).
Proof.
  intros HL. unfold assert_leftColsToSkip. munfold. unfold c_assert.
  destruct (Z.gtb_spec (cols m) L); [|done].
  destruct (Z.geb_spec L 0); [lia|done].
Qed.

Lemma assert_leftColsToSkip_accepts m L :
  (0 <= L < cols m)%Z -> assert_leftColsToSkip L m = (m, Done tt).
Proof.
  intros HL. unfold assert_leftColsToSkip. munfold. unfold c_assert.
  destruct (Z.gtb_spec (cols m) L); [|lia].
  destruct (Z.geb_spec L 0); [done|lia].
Qed.

Lemma bind_abort {X Y} (c : M (Matrix K) X) (k : X -> M (Matrix K) Y) m m' e :
  c m = (m', Abort e) -> bind c k m = (m', Abort e).
Proof. intros Hc. unfold bind. by rewrite Hc. Qed.

Lemma bind_done {X Y} (c : M (Matrix K) X) (k : X -> M (Matrix K) Y) m m' x :
  c m = (m', Done x) -> bind c k m = k x m'.
Proof. intros Hc. unfold bind. by rewrite Hc. Qed.

Lemma get_col_run m j c :
  colvecs m !! j = Some c -> get_col j m = (m, Done c).
Proof. intros Hj. unfold get_col. munfold. by rewrite Hj. Qed.

Lemma set_col_run m j c :
  (j < length (colvecs m))%nat ->
  set_col j c m = (mkMatrix (rows m) (<[j := c]> (colvecs m)), Done tt).
Proof.
  intros Hj. unfold set_col. munfold.
  by destruct (Nat.ltb_spec j (length (colvecs m))); [|lia].
Qed.

Lemma normalize_col_run m j c c' :
  colvecs m !! j = Some c -> normalize c = Done c' ->
  normalize_col j m = (mkMatrix (rows m) (<[j := c']> (colvecs m)), Done tt).
Proof.
  intros Hj Hc. unfold normalize_col.
  rewrite (bind_done _ _ _ _ _ (get_col_run _ _ _ Hj)).
  unfold lift at 1. unfold bind at 1. rewrite Hc.
  apply set_col_run. by eapply lookup_lt_Some.
Qed.

Lemma normalize_col_abort m j c e :
  colvecs m !! j = Some c -> normalize c = Abort e ->
  normalize_col j m = (m, Abort e).
Proof.
  intros Hj Hc. unfold normalize_col.
  rewrite (bind_done _ _ _ _ _ (get_col_run _ _ _ Hj)).
  unfold lift at 1. unfold bind at 1. by rewrite Hc.
Qed.

(** One pass of the classical loop body, spelled out. *)
Lemma GS_step_run m j c q :
  colvecs m !! j = Some c ->
  normalize (residual (leftCols m j) c) = Done q ->
  GS_step j m = (mkMatrix (rows m) (<[j := q]> (colvecs m)), Done tt).
Proof.
  intros Hj Hq. pose proof (lookup_lt_Some _ _ _ Hj) as Hlt.
  unfold GS_step. unfold get at 1. unfold bind at 1.
  rewrite (bind_done _ _ _ _ _ (get_col_run _ _ _ Hj)).
  rewrite (bind_done _ _ _ _ _ (set_col_run _ _ _ Hlt)).
  erewrite normalize_col_run; [|by apply list_lookup_insert_eq|exact Hq].
  simpl. by rewrite list_insert_insert_eq.
Qed.

Lemma GS_step_abort m j c e :
  colvecs m !! j = Some c ->
  normalize (residual (leftCols m j) c) = Abort e ->
  (GS_step j m).2 = Abort e.
Proof.
  intros Hj Hq. pose proof (lookup_lt_Some _ _ _ Hj) as Hlt.
  unfold GS_step. unfold get at 1. unfold bind at 1.
  rewrite (bind_done _ _ _ _ _ (get_col_run _ _ _ Hj)).
  rewrite (bind_done _ _ _ _ _ (set_col_run _ _ _ Hlt)).
  erewrite normalize_col_abort; [done|by apply list_lookup_insert_eq|exact Hq].
Qed.

Lemma MGS_step_run m k j cj ck :
  colvecs m !! j = Some cj -> colvecs m !! k = Some ck ->
  MGS_step k j m =
    (mkMatrix (rows m) (<[k := vsub ck (vscale (dot cj ck) cj)]> (colvecs m)),
     Done tt).
Proof.
  intros Hj Hk. unfold MGS_step.
  rewrite (bind_done _ _ _ _ _ (get_col_run _ _ _ Hj)).
  rewrite (bind_done _ _ _ _ _ (get_col_run _ _ _ Hk)).
  apply set_col_run. by eapply lookup_lt_Some.
Qed.

Lemma set_rightCols_run m r b :
  (r <= length (colvecs m))%nat -> length (colvecs b) = r ->
  set_rightCols r b m =
    (mkMatrix (rows m) (take (length (colvecs m) - r) (colvecs m) ++ colvecs b),
     Done tt).
Proof.
  intros Hr Hb. unfold set_rightCols. munfold.
  destruct (Nat.leb_spec r (length (colvecs m))); [|lia].
  by destruct (Nat.eqb_spec (length (colvecs b)) r).
Qed.

Lemma mapM_outcome_Done {X Y} (f : X -> outcome Y) (g : X -> Y) (l : list X) :
  (forall x, x ∈ l -> f x = Done (g x)) -> mapM_outcome f l = Done (map g l).
Proof.
  induction l as [|x l IH]; intros Hf; [done|].
  simpl. rewrite Hf by constructor. rewrite IH; [done|].
  intros y Hy. apply Hf. by constructor.
Qed.

Lemma mapM_outcome_Abort {X Y} (f : X -> outcome Y) (l : list X) x e :
  x ∈ l -> f x = Abort e -> (forall y e', f y = Abort e' -> e' = e) ->
  mapM_outcome f l = Abort e.
Proof.
  intros Hx Hfx Huniq. induction l as [|y l IH]; [by apply elem_of_nil in Hx|].
  simpl. destruct (f y) as [z|e'] eqn:Efy.
  - apply elem_of_cons in Hx as [->|Hx]; [congruence|].
    by rewrite IH.
  - f_equal. by eapply Huniq.
Qed.

Lemma zip_with_map_same {X Y Z} (f : X -> Y -> Z) (g : X -> Y) (l : list X) :
  zip_with f l (map g l) = map (fun x => f x (g x)) l.
Proof. induction l as [|x l IH]; [done|]. simpl. by rewrite IH. Qed.

(** The block written back by the projection of the partial routine. *)
Lemma partial_projection m l :
  colvecs (mat_sub (rightCols m (length (colvecs m) - l))
            (mat_mul (leftCols m l)
               (trans_mul (leftCols m l)
                  (rightCols m (length (colvecs m) - l)))))
  = map (residual (leftCols m l)) (drop l (colvecs m)).
Proof.
  intros. unfold mat_sub, mat_mul, trans_mul, rightCols. simpl.
  destruct (decide (l <= length (colvecs m))%nat) as [Hl|Hl].
  - replace (length (colvecs m) - (length (colvecs m) - l))%nat with l by lia.
    rewrite map_map. apply zip_with_map_same.
  - rewrite (drop_ge _ l) by lia.
    replace (length (colvecs m) - l)%nat with 0%nat by lia.
    rewrite Nat.sub_0_r, drop_all. done.
Qed.

(** The partial routine in two phases: the projection is written back,
    then the new columns are normalised. *)
Lemma partial_first_phase m L :
  (1 <= L < cols m)%Z ->
  partial_orthogonalisation L m =
    colwise_normalize_rightCols (length (colvecs m) - Z.to_nat L)
      (mkMatrix (rows m)
         (take (Z.to_nat L) (colvecs m) ++
          map (residual (leftCols m (Z.to_nat L)))
            (drop (Z.to_nat L) (colvecs m)))).
Proof.
  intros HL. unfold cols in HL. set (l := Z.to_nat L) in *.
  set (len := length (colvecs m)) in *.
  unfold partial_orthogonalisation.
  rewrite (bind_done _ _ m m tt)
    by (apply assert_leftColsToSkip_accepts; unfold cols; lia).
  destruct (Z.eqb_spec L 0) as [->|_]; [lia|].
  unfold get at 1, bind at 1. unfold cols. fold len.
  replace (Z.to_nat (Z.of_nat len - L)) with (len - l)%nat by lia.
  erewrite bind_done.
  2: { apply set_rightCols_run; [lia|]. unfold len.
       rewrite partial_projection, length_map, length_drop. done. }
  unfold len at 1. rewrite partial_projection. fold len.
  by replace (len - (len - l))%nat with l by lia.
Qed.

Lemma rightCols_app (n : nat) (pre new : list (Vector K)) :
  colvecs (rightCols (mkMatrix n (pre ++ new)) (length new)) = new.
Proof.
  unfold rightCols. simpl. rewrite length_app.
  replace (length pre + length new - length new)%nat with (length pre) by lia.
  by rewrite drop_app_length.
Qed.

(** The partial routine computes each new column from the fixed block
    and that column alone. *)
Lemma partial_run m L :
  (1 <= L < cols m)%Z ->
  (forall c, c ∈ drop (Z.to_nat L) (colvecs m) ->
     norm (residual (leftCols m (Z.to_nat L)) c) <> 0%R) ->
  partial_orthogonalisation L m =
    (mkMatrix (rows m)
       (take (Z.to_nat L) (colvecs m) ++
        map (fun c => normalized (residual (leftCols m (Z.to_nat L)) c))
          (drop (Z.to_nat L) (colvecs m))),
     Done tt).
Proof.
  intros HL Hnz. rewrite partial_first_phase by done.
  unfold cols in HL. set (l := Z.to_nat L) in *.
  set (new := map (residual (leftCols m l)) (drop l (colvecs m))).
  assert (length new = (length (colvecs m) - l)%nat) as Hnew
    by (unfold new; by rewrite length_map, length_drop).
  assert (length (take l (colvecs m)) = l) as Hlt
    by (rewrite length_take; lia).
  rewrite <- Hnew.
  unfold colwise_normalize_rightCols, get at 1, bind at 1.
  rewrite rightCols_app.
  erewrite (mapM_outcome_Done normalize normalized).
  2: { intros x Hx. apply list_elem_of_fmap in Hx as (c & -> & Hc).
       unfold normalize. destruct (Req_dec_T _ _) as [E|_]; [|done].
       by apply Hnz in E. }
  unfold lift at 1, bind at 1.
  rewrite set_rightCols_run; simpl.
  - rewrite length_app, Hlt.
    replace (l + length new - length new)%nat with l by lia.
    rewrite take_app_length' by done. unfold new. by rewrite map_map.
  - rewrite length_app. lia.
  - by rewrite length_map.
Qed.

(** A new column whose residual vanishes stops the partial routine at
    the division. *)
Lemma partial_abort m L c :
  (1 <= L < cols m)%Z ->
  c ∈ drop (Z.to_nat L) (colvecs m) ->
  norm (residual (leftCols m (Z.to_nat L)) c) = 0%R ->
  (partial_orthogonalisation L m).2 = Abort ZeroDivisor.
Proof.
  intros HL Hc Hz. rewrite partial_first_phase by done.
  set (l := Z.to_nat L) in *.
  set (new := map (residual (leftCols m l)) (drop l (colvecs m))).
  assert (length new = (length (colvecs m) - l)%nat) as Hnew
    by (unfold new; by rewrite length_map, length_drop).
  rewrite <- Hnew.
  unfold colwise_normalize_rightCols, get at 1, bind at 1.
  rewrite rightCols_app.
  rewrite (mapM_outcome_Abort normalize new (residual (leftCols m l) c) ZeroDivisor).
  - done.
  - apply list_elem_of_fmap. by exists c.
  - unfold normalize. by destruct (Req_dec_T _ _).
  - intros y e'. unfold normalize. by destruct (Req_dec_T _ _); intros [= <-].
Qed.

End Frame.

(** ** Real vectors *)

Section RealVectors.

Local Open Scope R_scope.

Implicit Types (u v w c : Vector R) (a b x y : R) (n : nat).

Lemma length_vzero n : length (vzero (K:=R) n) = n.
Proof. apply length_replicate. Qed.

Lemma length_vadd u v : length u = length v -> length (vadd u v) = length v.
Proof. intros E. unfold vadd. rewrite length_zip_with. lia. Qed.

Lemma length_vsub u v : length u = length v -> length (vsub u v) = length v.
Proof. intros E. unfold vsub. rewrite length_zip_with. lia. Qed.

Lemma length_vscale a v : length (vscale a v) = length v.
Proof. apply length_map. Qed.

Lemma vadd_comm u v : vadd u v = vadd v u.
Proof.
  revert v. induction u as [|x u IH]; intros [|y v]; simpl; try done.
  f_equal; [lra|apply IH].
Qed.

Lemma vadd_assoc u v w : vadd u (vadd v w) = vadd (vadd u v) w.
Proof.
  revert v w. induction u as [|x u IH]; intros [|y v] [|z w]; simpl; try done.
  f_equal; [lra|apply IH].
Qed.

Lemma vadd_zero_r n v : length v = n -> vadd v (vzero n) = v.
Proof.
  intros <-. induction v as [|x v IH]; simpl; [done|].
  f_equal; [lra|apply IH].
Qed.

Lemma vadd_zero_l n v : length v = n -> vadd (vzero n) v = v.
Proof. intros E. rewrite vadd_comm. by apply vadd_zero_r. Qed.

Lemma vscale_plus a b v : vscale (a + b) v = vadd (vscale a v) (vscale b v).
Proof. induction v as [|x v IH]; simpl; [done|]. f_equal; [lra|apply IH]. Qed.

Lemma vscale_vadd a u v : vscale a (vadd u v) = vadd (vscale a u) (vscale a v).
Proof.
  revert v. induction u as [|x u IH]; intros [|y v]; simpl; try done.
  f_equal; [lra|apply IH].
Qed.

Lemma vscale_vscale a b v : vscale a (vscale b v) = vscale (a * b) v.
Proof. induction v as [|x v IH]; simpl; [done|]. f_equal; [lra|apply IH]. Qed.

Lemma vscale_zero a n : vscale a (vzero n) = vzero n.
Proof.
  unfold vzero. induction n as [|n IH]; simpl; [done|]. f_equal; [lra|apply IH].
Qed.

Lemma vscale_0 v : vscale 0 v = vzero (length v).
Proof.
  unfold vzero. induction v as [|x v IH]; simpl; [done|]. f_equal; [lra|apply IH]. Qed.

Lemma vscale_1 v : vscale 1 v = v.
Proof. induction v as [|x v IH]; simpl; [done|]. f_equal; [lra|apply IH]. Qed.

Lemma vsub_vadd_opp u v : vsub u v = vadd u (vscale (-1) v).
Proof.
  revert v. induction u as [|x u IH]; intros [|y v]; simpl; try done.
  f_equal; [lra|apply IH].
Qed.

Lemma vsub_zero_self v : vsub v v = vzero (length v).
Proof.
  unfold vzero. induction v as [|x v IH]; simpl; [done|]. f_equal; [lra|apply IH].
Qed.

Lemma vsub_zero_r n v : length v = n -> vsub v (vzero n) = v.
Proof.
  intros <-. induction v as [|x v IH]; simpl; [done|].
  f_equal; [lra|apply IH].
Qed.

(** *** Inner product and norm *)

Lemma tdot_dot u v : tdot u v = dot u v.
Proof. reflexivity. Qed.

Lemma dot_cons x u y v : dot (x :: u) (y :: v) = x * y + dot u v.
Proof. reflexivity. Qed.

Lemma dot_comm u v : dot u v = dot v u.
Proof.
  revert v. induction u as [|x u IH]; intros [|y v]; try done.
  rewrite !dot_cons, IH. lra.
Qed.

Lemma dot_vadd_r w u v :
  length u = length v -> dot w (vadd u v) = dot w u + dot w v.
Proof.
  revert u v. induction w as [|z w IH]; intros [|x u] [|y v] E; try done;
    try (unfold dot; simpl; lra).
  simpl in E. change (vadd (x :: u) (y :: v)) with ((x + y) :: vadd u v).
  rewrite !dot_cons, IH by lia. lra.
Qed.

Lemma dot_vscale_r w a u : dot w (vscale a u) = a * dot w u.
Proof.
  revert u. induction w as [|z w IH]; intros [|x u];
    try (unfold dot; simpl; lra).
  change (vscale a (x :: u)) with ((a * x) :: vscale a u).
  rewrite !dot_cons, IH. lra.
Qed.

Lemma dot_vzero_r w n : dot w (vzero n) = 0.
Proof.
  revert n. induction w as [|z w IH]; intros [|n]; try done.
  change (vzero (S n)) with (0 :: vzero (K:=R) n).
  rewrite dot_cons, IH. lra.
Qed.

Lemma dot_vsub_r w u v :
  length u = length v -> dot w (vsub u v) = dot w u - dot w v.
Proof.
  intros E. rewrite vsub_vadd_opp, dot_vadd_r, dot_vscale_r; [lra|].
  by rewrite length_vscale.
Qed.

Lemma dot_vscale_l w a u : dot (vscale a u) w = a * dot u w.
Proof. by rewrite dot_comm, dot_vscale_r, dot_comm. Qed.

Lemma dot_vsub_l w u v :
  length u = length v -> dot (vsub u v) w = dot u w - dot v w.
Proof. intros E. by rewrite dot_comm, dot_vsub_r, !(dot_comm w). Qed.

Lemma dot_self v : dot v v = squaredNorm v.
Proof.
  induction v as [|x v IH]; [done|].
  rewrite dot_cons, IH. reflexivity.
Qed.

Lemma squaredNorm_nonneg v : 0 <= squaredNorm v.
Proof.
  induction v as [|x v IH]; [unfold squaredNorm; simpl; lra|].
  change (0 <= x * x + squaredNorm v). nra.
Qed.

Lemma squaredNorm_zero v : squaredNorm v = 0 -> v = vzero (length v).
Proof.
  induction v as [|x v IH]; [done|].
  change (x * x + squaredNorm v = 0 -> x :: v = 0 :: vzero (length v)).
  intros E. pose proof (squaredNorm_nonneg v).
  assert (x = 0) by nra. assert (squaredNorm v = 0) by nra.
  f_equal; auto.
Qed.

Lemma squaredNorm_vzero n : squaredNorm (vzero (K:=R) n) = 0.
Proof.
  induction n as [|n IH]; [done|].
  change (0 * 0 + squaredNorm (vzero (K:=R) n) = 0). rewrite IH. lra.
Qed.

Lemma norm_zero_iff v : norm v = 0 <-> v = vzero (length v).
Proof.
  unfold norm. split.
  - intros E. apply squaredNorm_zero.
    apply sqrt_eq_0; [apply squaredNorm_nonneg|done].
  - intros ->. rewrite squaredNorm_vzero. apply sqrt_0.
Qed.

Lemma norm_sqr v : norm v * norm v = dot v v.
Proof. rewrite dot_self. apply sqrt_sqrt, squaredNorm_nonneg. Qed.

Lemma norm_of_unit v : dot v v = 1 -> norm v = 1.
Proof. intros E. unfold norm. rewrite <- dot_self, E. apply sqrt_1. Qed.

Lemma normalized_vscale v : normalized v = vscale (/ norm v) v.
Proof.
  unfold normalized, vscale. apply map_ext. intros x. simpl. unfold Rdiv. lra.
Qed.

Lemma normalize_Done v :
  norm v <> 0 -> normalize v = Done (vscale (/ norm v) v).
Proof.
  intros Hv. unfold normalize. destruct (Req_dec_T _ _) as [E|_]; [done|].
  by rewrite normalized_vscale.
Qed.

Lemma normalize_Abort v : norm v = 0 -> normalize v = Abort ZeroDivisor.
Proof. intros Hv. unfold normalize. by destruct (Req_dec_T _ _). Qed.

Lemma normalize_unit v : dot v v = 1 -> normalize v = Done v.
Proof.
  intros E. apply norm_of_unit in E. rewrite normalize_Done by lra.
  rewrite E, Rinv_1. by rewrite vscale_1.
Qed.

Lemma dot_normalized v :
  norm v <> 0 -> dot (vscale (/ norm v) v) (vscale (/ norm v) v) = 1.
Proof.
  intros Hv. rewrite dot_vscale_l, dot_vscale_r, <- norm_sqr.
  by field.
Qed.

(** *** Linear combinations of columns *)

Local Abbreviation lc n cs a := (mat_vec (mkMatrix n cs) a).
Local Abbreviation cwf n cs := (Forall (fun c : Vector R => length c = n) cs).

Implicit Types (cs B : list (Vector R)) (ws : list R).

Lemma lc_nil_l n ws : lc n [] ws = vzero n.
Proof. unfold mat_vec. simpl. by rewrite zip_with_nil_r. Qed.

Lemma lc_cons n c cs x ws :
  lc n (c :: cs) (x :: ws) = vadd (vscale x c) (lc n cs ws).
Proof. reflexivity. Qed.

Lemma length_lc n cs ws : cwf n cs -> length (lc n cs ws) = n.
Proof.
  intros Hcs. revert ws. induction Hcs as [|c cs Hc Hcs IH]; intros [|x ws];
    try apply length_vzero.
  rewrite lc_cons, length_vadd; [apply IH|].
  by rewrite length_vscale, IH.
Qed.

Lemma dot_lc_orth n cs ws u :
  cwf n cs -> (forall c, c ∈ cs -> dot u c = 0) -> dot u (lc n cs ws) = 0.
Proof.
  intros Hcs. revert ws. induction Hcs as [|c cs Hc Hcs IH]; intros [|x ws] Hu;
    try apply dot_vzero_r.
  rewrite lc_cons, dot_vadd_r, dot_vscale_r.
  - rewrite Hu by constructor. rewrite IH; [lra|].
    intros c' Hc'. apply Hu. by constructor.
  - by rewrite length_vscale, length_lc.
Qed.

Lemma dot_lc_select n cs ws u i x :
  cwf n cs ->
  (forall k c, cs !! k = Some c -> dot u c = if decide (k = i) then 1 else 0) ->
  ws !! i = Some x -> (i < length cs)%nat ->
  dot u (lc n cs ws) = x.
Proof.
  intros Hcs. revert ws i.
  induction Hcs as [|c cs Hc Hcs IH]; intros [|y ws] i Hu Hx Hi; try done;
    simpl in Hi; try lia.
  - rewrite lc_cons, dot_vadd_r, dot_vscale_r
      by (by rewrite length_vscale, length_lc).
    destruct i as [|i]; simpl in Hx.
    + injection Hx as ->. rewrite (Hu 0%nat c eq_refl). simpl.
      rewrite dot_lc_orth; [lra|done|].
      intros c' Hc'. apply list_elem_of_lookup in Hc' as [k Hk].
      by rewrite (Hu (S k) c' Hk).
    + rewrite (Hu 0%nat c eq_refl). simpl.
      rewrite (IH ws i); [lra| |done|lia].
      intros k c' Hk. rewrite (Hu (S k) c' Hk).
      destruct (decide (k = i)), (decide (S k = S i)); try done; lia.
Qed.

(** *** Spans *)

Lemma in_span_length n B v : in_span n B v -> length v = n.
Proof.
  induction 1 as [|b Hb Hl|u v Hu IHu Hv IHv|a u Hu IHu].
  - apply length_vzero.
  - done.
  - rewrite length_vadd; congruence.
  - by rewrite length_vscale.
Qed.

Lemma in_span_trans n B B' v :
  (forall g : Vector R, g ∈ B -> in_span n B' g) ->
  in_span n B v -> in_span n B' v.
Proof.
  intros HB. induction 1 as [|b Hb Hl|u v Hu IHu Hv IHv|a u Hu IHu].
  - apply span_zero.
  - by apply HB.
  - by apply span_add.
  - by apply span_scale.
Qed.

Lemma in_span_mono n B B' v :
  B ⊆ B' -> in_span n B v -> in_span n B' v.
Proof.
  intros HB. induction 1 as [|b Hb Hl|u v Hu IHu Hv IHv|a u Hu IHu].
  - apply span_zero.
  - apply span_gen; [by apply HB|done].
  - by apply span_add.
  - by apply span_scale.
Qed.

Lemma in_span_vsub n B u v :
  in_span n B u -> in_span n B v -> in_span n B (vsub u v).
Proof.
  intros Hu Hv. rewrite vsub_vadd_opp. apply span_add; [done|].
  by apply span_scale.
Qed.

Lemma in_span_lc n cs ws : cwf n cs -> in_span n cs (lc n cs ws).
Proof.
  intros Hcs. revert ws. induction Hcs as [|c cs Hc Hcs IH]; intros [|x ws];
    try apply span_zero.
  rewrite lc_cons. apply span_add.
  - apply span_scale, span_gen; [constructor|done].
  - eapply in_span_mono; [|apply IH]. intros g Hg. by constructor.
Qed.

(** *** Coefficients of a member of a span *)

Lemma vadd_shuffle u v w c :
  vadd (vadd u v) (vadd w c) = vadd (vadd u w) (vadd v c).
Proof.
  revert v w c. induction u as [|x u IH]; intros [|y v] [|z w] [|t c];
    simpl; try done.
  f_equal; [lra|apply IH].
Qed.

Lemma lc_zeros n B k : cwf n B -> lc n B (replicate k 0) = vzero n.
Proof.
  intros HB. revert k. induction HB as [|c B Hc HB IH]; intros [|k]; try done.
  change (replicate (S k) 0) with (0 :: replicate k 0).
  rewrite lc_cons, IH, vscale_0, Hc. apply vadd_zero_r, length_vzero.
Qed.

Lemma lc_add n B ws ws' :
  cwf n B -> length ws = length ws' ->
  lc n B (zip_with Rplus ws ws') = vadd (lc n B ws) (lc n B ws').
Proof.
  intros HB. revert ws ws'.
  induction HB as [|c B Hc HB IH]; intros [|x ws] [|y ws'] E; try done;
    try (symmetry; apply vadd_zero_r, length_vzero).
  simpl in E. change (zip_with Rplus (x :: ws) (y :: ws'))
    with ((x + y) :: zip_with Rplus ws ws').
  rewrite !lc_cons, IH, vscale_plus by lia. apply vadd_shuffle.
Qed.

Lemma lc_scale n B a ws :
  lc n B (map (Rmult a) ws) = vscale a (lc n B ws).
Proof.
  revert ws. induction B as [|c B IH]; intros [|x ws];
    try (symmetry; apply vscale_zero).
  change (map (Rmult a) (x :: ws)) with ((a * x) :: map (Rmult a) ws).
  by rewrite !lc_cons, IH, vscale_vadd, vscale_vscale.
Qed.

Lemma lc_app n B B' ws ws' :
  length ws = length B -> cwf n B' ->
  lc n (B ++ B') (ws ++ ws') = vadd (lc n B ws) (lc n B' ws').
Proof.
  intros E HB'. revert ws E. induction B as [|c B IH]; intros [|x ws] E; try done.
  - simpl. rewrite lc_nil_l. symmetry. by apply vadd_zero_l, length_lc.
  - simpl in E. change (lc n (c :: (B ++ B')) (x :: (ws ++ ws')) =
                        vadd (lc n (c :: B) (x :: ws)) (lc n B' ws')).
    rewrite !lc_cons, IH by lia. apply vadd_assoc.
Qed.

Lemma span_coeffs n B v :
  cwf n B -> in_span n B v -> exists ws, length ws = length B /\ lc n B ws = v.
Proof.
  intros HB. induction 1 as [|g Hg Hl|u v Hu [wu [Eu <-]] Hv [wv [Ev <-]]
                             |a u Hu [wu [Eu <-]]].
  - exists (replicate (length B) 0). split; [apply length_replicate|].
    by apply lc_zeros.
  - apply list_elem_of_split in Hg as (B1 & B2 & ->).
    apply Forall_app in HB as [HB1 HB2]. apply Forall_cons in HB2 as [_ HB2].
    exists (replicate (length B1) 0 ++ 1 :: replicate (length B2) 0). split.
    + rewrite !length_app. simpl. by rewrite !length_replicate.
    + rewrite lc_app by (by rewrite ?length_replicate; try constructor).
      rewrite lc_cons, !lc_zeros, vscale_1 by done.
      rewrite vadd_zero_r, vadd_zero_l; by rewrite ?length_vzero.
  - exists (zip_with Rplus wu wv). split.
    + rewrite length_zip_with. lia.
    + apply lc_add; [done|congruence].
  - exists (map (Rmult a) wu). split.
    + by rewrite length_map.
    + apply lc_scale.
Qed.

(** No column of a linearly independent family lies in the span of the
    columns before it. *)
Lemma lin_indep_prefix n cs k c :
  lin_indep n cs -> cwf n cs -> cs !! k = Some c ->
  ~ in_span n (take k cs) c.
Proof.
  intros Hli Hcs Hk Hspan.
  pose proof (lookup_lt_Some _ _ _ Hk) as Hlt.
  pose proof (take_drop_middle _ _ _ Hk) as Hsplit.
  assert (cwf n (take k cs)) as Htk by by apply Forall_take.
  assert (cwf n (drop (S k) cs)) as Hdk by by apply Forall_drop.
  assert (length c = n) as Hc by (eapply Forall_lookup_1 in Hcs; eauto).
  destruct (span_coeffs _ _ _ Htk Hspan) as (ws & Ews & Hws).
  rewrite length_take in Ews.
  set (a' := map (Rmult (-1)) ws ++ 1 :: replicate (length cs - S k) 0).
  assert (Forall (fun x => x = 0) a') as Hall.
  { apply Hli.
    - unfold a'. rewrite length_app, length_map. simpl.
      rewrite length_replicate. lia.
    - rewrite <- Hsplit at 1. unfold a'.
      rewrite lc_app; [|rewrite length_map, length_take; lia|by constructor].
      rewrite lc_cons, lc_scale, Hws, lc_zeros by done.
      rewrite vadd_zero_r by (by rewrite length_vscale).
      rewrite <- vscale_plus.
      replace (-1 + 1) with 0 by lra. by rewrite vscale_0, Hc. }
  assert (a' !! k = Some 1) as Hone.
  { unfold a'. rewrite lookup_app_r; rewrite length_map; [|lia].
    by replace (k - length ws)%nat with 0%nat by lia. }
  eapply Forall_lookup_1 in Hall; [|exact Hone]. simpl in Hall. lra.
Qed.

End RealVectors.

(** ** The Gram-Schmidt processes on real matrices *)

Section RealGramSchmidt.

Local Open Scope R_scope.

Local Abbreviation lc n cs a := (mat_vec (mkMatrix n cs) a).
Local Abbreviation cwf n cs := (Forall (fun c : Vector R => length c = n) cs).

Implicit Types (u v w c q : Vector R) (n : nat) (m : Matrix R).
Implicit Types (cs P B : list (Vector R)).

Lemma vsub_eq_zero u v :
  length u = length v -> vsub u v = vzero (length v) -> u = v.
Proof.
  revert v. induction u as [|x u IH]; intros [|y v] E; try done.
  simpl in E. unfold vzero. simpl. intros Hz.
  injection Hz as Hx Hz. f_equal; [lra|]. apply IH; [lia|done].
Qed.

Lemma vsub_vadd_cancel u v : length u = length v -> vadd (vsub u v) v = u.
Proof.
  revert v. induction u as [|x u IH]; intros [|y v] E; try done.
  simpl in E. simpl. f_equal; [lra|]. apply IH. lia.
Qed.

Lemma trans_vec_lookup n P c i q :
  P !! i = Some q -> trans_vec (mkMatrix n P) c !! i = Some (dot q c).
Proof.
  intros Hi. unfold trans_vec. simpl.
  change (((fun c0 => tdot c0 c) <$> P) !! i = Some (dot q c)).
  by rewrite list_lookup_fmap, Hi.
Qed.

Lemma length_residual n P c :
  cwf n P -> length c = n -> length (residual (mkMatrix n P) c) = n.
Proof.
  intros HP Hc. unfold residual. rewrite length_vsub; by rewrite length_lc.
Qed.

Lemma dot_residual n P c i q :
  cwf n P -> orthonormal P -> length c = n -> P !! i = Some q ->
  dot q (residual (mkMatrix n P) c) = 0.
Proof.
  intros HP Ho Hc Hi. unfold residual.
  rewrite dot_vsub_r by (by rewrite length_lc).
  rewrite (dot_lc_select n P _ q i (dot q c)); [lra|done| | |].
  - intros k c' Hk. rewrite (Ho i k q c' Hi Hk).
    destruct (decide (i = k)), (decide (k = i)); done.
  - by apply trans_vec_lookup.
  - by eapply lookup_lt_Some.
Qed.

Lemma residual_in_span n P B c :
  cwf n P -> (forall q, q ∈ P -> in_span n B q) -> in_span n B c ->
  in_span n B (residual (mkMatrix n P) c).
Proof.
  intros HP HB Hc. apply in_span_vsub; [done|].
  eapply in_span_trans; [exact HB|]. by apply in_span_lc.
Qed.

Lemma residual_nonzero n P c :
  cwf n P -> length c = n -> ~ in_span n P c ->
  norm (residual (mkMatrix n P) c) <> 0.
Proof.
  intros HP Hc Hns E. apply norm_zero_iff in E.
  rewrite length_residual in E by done. unfold residual in E.
  apply Hns. rewrite (vsub_eq_zero c (lc n P (trans_vec (mkMatrix n P) c))).
  - by apply in_span_lc.
  - by rewrite length_lc.
  - by rewrite length_lc.
Qed.

Lemma residual_orth n P c :
  cwf n P -> length c = n -> (forall q, q ∈ P -> dot q c = 0) ->
  residual (mkMatrix n P) c = c.
Proof.
  intros HP Hc Ho. unfold residual.
  assert (trans_vec (mkMatrix n P) c = replicate (length P) 0) as ->.
  { unfold trans_vec. simpl. clear HP. induction P as [|q P IH]; [done|].
    simpl. rewrite tdot_dot, Ho by constructor. f_equal. apply IH.
    intros q' Hq'. apply Ho. by constructor. }
  rewrite lc_zeros by done. by apply vsub_zero_r.
Qed.

Lemma orthonormal_snoc P q :
  orthonormal P -> (forall p, p ∈ P -> dot p q = 0) -> dot q q = 1 ->
  orthonormal (P ++ [q]).
Proof.
  intros HP Hq Hqq i j ci cj Hi Hj.
  destruct (decide (i < length P)%nat) as [Hil|Hil];
    destruct (decide (j < length P)%nat) as [Hjl|Hjl].
  - rewrite lookup_app_l in Hi, Hj by done. by apply HP.
  - rewrite lookup_app_l in Hi by done. rewrite lookup_app_r in Hj by lia.
    destruct (j - length P)%nat eqn:E; [|done]. injection Hj as <-.
    rewrite decide_False by lia. apply Hq. by eapply list_elem_of_lookup_2.
  - rewrite lookup_app_l in Hj by done. rewrite lookup_app_r in Hi by lia.
    destruct (i - length P)%nat eqn:E; [|done]. injection Hi as <-.
    rewrite decide_False by lia. rewrite dot_comm. apply Hq.
    by eapply list_elem_of_lookup_2.
  - rewrite lookup_app_r in Hi, Hj by lia.
    destruct (i - length P)%nat eqn:Ei; [|done].
    destruct (j - length P)%nat eqn:Ej; [|done].
    injection Hi as <-. injection Hj as <-.
    rewrite decide_True by lia. done.
Qed.

(** *** The loop invariant *)

Lemma take_S_subseteq {A} (l : list A) j : take j l ⊆ take (S j) l.
Proof.
  intros x Hx. apply list_elem_of_lookup in Hx as [i Hi].
  apply lookup_take_Some in Hi as [Hi Hlt].
  apply (list_elem_of_lookup_2 _ i). apply lookup_take_Some. split; [done|lia].
Qed.

Lemma GS_inv_init n m :
  wf m -> rows m = n -> GS_inv n (colvecs m) 0 m.
Proof.
  intros Hwf Hn. unfold wf in Hwf. rewrite Hn in Hwf.
  split; [done|]. split; [done|]. split; [done|]. split; [|split; [done|]].
  - intros i j ci cj Hi. by rewrite take_0 in Hi.
  - intros q Hq. rewrite take_0 in Hq. by apply elem_of_nil in Hq.
Qed.

Lemma GS_inv_col n cs0 j m c :
  GS_inv n cs0 j m -> cs0 !! j = Some c -> colvecs m !! j = Some c.
Proof.
  intros (_ & _ & _ & _ & Hd & _) Hc.
  rewrite <- (Nat.add_0_r j), <- lookup_drop, Hd, lookup_drop.
  by rewrite Nat.add_0_r.
Qed.

Lemma GS_inv_not_span n cs0 j m c :
  lin_indep n cs0 -> cwf n cs0 -> GS_inv n cs0 j m -> cs0 !! j = Some c ->
  ~ in_span n (take j (colvecs m)) c.
Proof.
  intros Hli Hcs (_ & _ & _ & _ & _ & Hsp) Hc Hin.
  eapply lin_indep_prefix; [exact Hli|done|exact Hc|].
  eapply in_span_trans; [exact Hsp|exact Hin].
Qed.

(** Installing a normalised vector that is orthogonal to the columns
    already treated advances the invariant by one column. *)
Lemma GS_inv_extend n cs0 j m v :
  GS_inv n cs0 j m -> (j < length cs0)%nat ->
  length v = n -> norm v <> 0 ->
  (forall p, p ∈ take j (colvecs m) -> dot p v = 0) ->
  in_span n (take (S j) cs0) v ->
  GS_inv n cs0 (S j)
    (mkMatrix (rows m) (<[j := vscale (/ norm v) v]> (colvecs m))).
Proof.
  intros (Hr & Hwf & Hlen & Hon & Hd & Hsp) Hj Hv Hnv Horth Hin.
  assert (take (S j) (<[j := vscale (/ norm v) v]> (colvecs m))
          = take j (colvecs m) ++ [vscale (/ norm v) v]) as Htake.
  { erewrite take_S_r; [|apply list_lookup_insert_eq; lia].
    by rewrite take_insert_ge. }
  unfold GS_inv. simpl. rewrite Htake.
  split; [|split; [|split; [|split; [|split]]]].
  - done.
  - apply Forall_insert; [done|]. by rewrite length_vscale.
  - by rewrite length_insert.
  - apply orthonormal_snoc; [done| |by apply dot_normalized].
    intros p Hp. rewrite dot_vscale_r, Horth by done. lra.
  - rewrite drop_insert_lt by lia.
    replace (S j) with (j + 1)%nat by lia.
    by rewrite <- !drop_drop, Hd.
  - intros q Hq. apply elem_of_app in Hq as [Hq|Hq].
    + eapply in_span_mono; [apply take_S_subseteq|]. by apply Hsp.
    + apply list_elem_of_singleton in Hq as ->. by apply span_scale.
Qed.

Lemma GS_inv_final n cs0 m :
  GS_inv n cs0 (length cs0) m -> orthonormal (colvecs m).
Proof.
  intros (_ & _ & Hlen & Hon & _). rewrite <- Hlen in Hon.
  by rewrite firstn_all in Hon.
Qed.

Section Independent.

Variables (n : nat) (cs0 : list (Vector R)).
Hypothesis Hcs0 : cwf n cs0.
Hypothesis Hli : lin_indep n cs0.

Lemma GS_inv_generator j m c :
  GS_inv n cs0 j m -> cs0 !! j = Some c -> in_span n (take (S j) cs0) c.
Proof.
  intros Hinv Hc. apply span_gen.
  - apply (list_elem_of_lookup_2 _ j). apply lookup_take_Some. split; [done|lia].
  - by eapply Forall_lookup_1 in Hcs0.
Qed.

(** The bootstrap: column 0 of an independent family is not zero. *)
Lemma treatFirstCol_0_spec m :
  rows m = n -> colvecs m = cs0 -> (0 < length cs0)%nat ->
  exists m', treatFirstCol 0%Z m = (m', Done 1%Z) /\ GS_inv n cs0 1 m'.
Proof.
  intros Hr Hcs Hne.
  destruct (lookup_lt_is_Some_2 cs0 0 Hne) as [c Hc].
  assert (GS_inv n cs0 0 m) as Hinv.
  { rewrite <- Hcs. apply GS_inv_init; [|done]. unfold wf. by rewrite Hr, Hcs. }
  assert (length c = n) as Hlc by (by eapply Forall_lookup_1 in Hcs0).
  assert (norm c <> 0) as Hnc.
  { intros E. apply norm_zero_iff in E.
    apply (lin_indep_prefix n cs0 0 c Hli Hcs0 Hc).
    rewrite E, Hlc. apply span_zero. }
  eexists. split.
  - unfold treatFirstCol. simpl.
    erewrite bind_done; [reflexivity|].
    eapply normalize_col_run; [by rewrite Hcs|by apply normalize_Done].
  - apply GS_inv_extend; try done.
    + intros p Hp. rewrite take_0 in Hp. by apply elem_of_nil in Hp.
    + by eapply GS_inv_generator.
Qed.

(** The classical step. *)
Lemma GS_step_spec j :
  (j < length cs0)%nat ->
  hoare (GS_inv n cs0 j) (GS_step j)
    (fun m' o => o = Done tt /\ GS_inv n cs0 (S j) m').
Proof.
  intros Hj m Hinv.
  destruct (lookup_lt_is_Some_2 cs0 j Hj) as [c Hc].
  pose proof (GS_inv_col _ _ _ _ _ Hinv Hc) as Hmc.
  pose proof (GS_inv_not_span _ _ _ _ _ Hli Hcs0 Hinv Hc) as Hns.
  destruct Hinv as (Hr & Hwf & Hlen & Hon & Hd & Hsp).
  assert (length c = n) as Hlc by (by eapply Forall_lookup_1 in Hcs0).
  assert (cwf n (take j (colvecs m))) as Htk by by apply Forall_take.
  set (r := residual (leftCols m j) c).
  assert (r = residual (mkMatrix n (take j (colvecs m))) c) as Er
    by (unfold r, leftCols; by rewrite Hr).
  assert (norm r <> 0) as Hnr by (rewrite Er; by apply residual_nonzero).
  rewrite (GS_step_run m j c _ Hmc (normalize_Done _ Hnr)). simpl.
  split; [done|]. apply GS_inv_extend; try done.
  - rewrite Er. by apply length_residual.
  - intros p Hp. apply list_elem_of_lookup in Hp as [i Hi].
    rewrite Er. by eapply dot_residual.
  - rewrite Er. apply residual_in_span; [done| |].
    + intros q Hq. eapply in_span_mono; [apply take_S_subseteq|]. by apply Hsp.
    + by eapply (GS_inv_generator j m).
Qed.

(** Any loop whose body advances the invariant runs to completion. *)
Lemma GS_loop_spec body lo :
  (forall j, (j < length cs0)%nat ->
     hoare (GS_inv n cs0 j) (body j)
       (fun m' o => o = Done tt /\ GS_inv n cs0 (S j) m')) ->
  (lo <= length cs0)%nat ->
  hoare (GS_inv n cs0 lo) (for_range lo (length cs0) body)
    (fun m' o => o = Done tt /\ GS_inv n cs0 (length cs0) m').
Proof.
  intros Hbody Hlo. apply hoare_for_range; [done| |done].
  intros k Hk. eapply hoare_weaken; [apply Hbody; lia|done|].
  intros m o [-> Hinv]. exact Hinv.
Qed.

(** The inner loop of the modified process, one projection at a time. *)
Lemma MGS_step_spec m k j :
  GS_inv n cs0 k m -> (j < k)%nat -> (k < length cs0)%nat ->
  hoare (MGS_inv n cs0 (colvecs m) k j) (MGS_step k j)
    (fun m' o => o = Done tt /\ MGS_inv n cs0 (colvecs m) k (S j) m').
Proof.
  intros (Hr & Hwf & Hlen & Hon & Hd & Hsp) Hj Hk m1 (v & -> & Hv & Hns & Hin & Ho).
  destruct (lookup_lt_is_Some_2 (colvecs m) j) as [q Hq]; [lia|].
  assert (take k (colvecs m) !! j = Some q) as Hqt
    by (apply lookup_take_Some; split; [done|lia]).
  assert (length q = n) as Hlq by (by eapply Forall_lookup_1 in Hwf).
  assert (in_span n (take k (colvecs m)) (vscale (dot q v) q)) as Hqs.
  { apply span_scale, span_gen; [|done]. by eapply list_elem_of_lookup_2. }
  erewrite MGS_step_run; simpl.
  2: { rewrite list_lookup_insert_ne by lia. exact Hq. }
  2: { apply list_lookup_insert_eq. lia. }
  split; [done|]. exists (vsub v (vscale (dot q v) q)).
  split; [by rewrite list_insert_insert_eq|].
  split; [by rewrite length_vsub; rewrite length_vscale; congruence|].
  split; [|split].
  - intros Hin'. apply Hns.
    rewrite <- (vsub_vadd_cancel v (vscale (dot q v) q))
      by (rewrite length_vscale; congruence).
    by apply span_add.
  - apply in_span_vsub; [done|].
    eapply in_span_mono; [apply take_S_subseteq|].
    eapply in_span_trans; [exact Hsp|exact Hqs].
  - intros i qi Hi Hqi.
    assert (length qi = n) as Hlqi by (by eapply Forall_lookup_1 in Hwf).
    rewrite dot_vsub_r, dot_vscale_r by (rewrite length_vscale; congruence).
    assert (take k (colvecs m) !! i = Some qi) as Hqit
      by (apply lookup_take_Some; split; [done|lia]).
    rewrite (Hon i j qi q Hqit Hqt).
    destruct (decide (i = j)) as [->|Hne].
    + replace qi with q by congruence. simpl. lra.
    + rewrite (Ho i qi) by (done || lia). simpl. lra.
Qed.

Lemma MGS_body_spec k :
  (k < length cs0)%nat ->
  hoare (GS_inv n cs0 k)
    (bind (for_range 0 k (MGS_step k)) (fun _ => normalize_col k))
    (fun m' o => o = Done tt /\ GS_inv n cs0 (S k) m').
Proof.
  intros Hk m Hinv.
  destruct (lookup_lt_is_Some_2 cs0 k Hk) as [c Hc].
  pose proof (GS_inv_col _ _ _ _ _ Hinv Hc) as Hmc.
  pose proof (GS_inv_not_span _ _ _ _ _ Hli Hcs0 Hinv Hc) as Hns.
  assert (length c = n) as Hlc by (by eapply Forall_lookup_1 in Hcs0).
  assert (MGS_inv n cs0 (colvecs m) k 0 m) as Hstart.
  { exists c. split; [|split; [done|split; [done|split]]].
    - rewrite list_insert_id by done. destruct Hinv as [<- _]. by destruct m.
    - by eapply GS_inv_generator.
    - intros i q Hi. lia. }
  assert (hoare (MGS_inv n cs0 (colvecs m) k 0) (for_range 0 k (MGS_step k))
            (fun m' o => o = Done tt /\ MGS_inv n cs0 (colvecs m) k k m'))
    as Hloop.
  { apply hoare_for_range; [lia| |done].
    intros j Hj. eapply hoare_weaken; [apply MGS_step_spec; [done|lia|done]|done|].
    intros m' o [-> Hm']. exact Hm'. }
  specialize (Hloop m Hstart). simpl in Hloop.
  destruct (for_range 0 k (MGS_step k) m) as [m1 o1] eqn:Erun.
  simpl in Hloop. destruct Hloop as [-> (v & -> & Hv & Hnsv & Hin & Ho)].
  unfold bind. rewrite Erun.
  assert (norm v <> 0) as Hnv.
  { intros E. apply norm_zero_iff in E. apply Hnsv.
    rewrite E, Hv. apply span_zero. }
  pose proof Hinv as (Hr & Hwf & Hlen & _).
  erewrite normalize_col_run; simpl.
  2: { apply list_lookup_insert_eq. lia. }
  2: { by apply normalize_Done. }
  split; [done|]. rewrite list_insert_insert_eq.
  pose proof (GS_inv_extend n cs0 k m v Hinv Hk Hv Hnv) as Hext.
  rewrite Hr in Hext. apply Hext; [|done].
  intros p Hp. apply list_elem_of_lookup in Hp as [i Hi].
  apply lookup_take_Some in Hi as [Hi Hik]. by eapply Ho.
Qed.

(** Both processes from [leftColsToSkip = 0]. *)
Lemma GS_0_run m :
  rows m = n -> colvecs m = cs0 -> (0 < length cs0)%nat ->
  exists m', GS_orthogonalisation 0%Z m = (m', Done tt) /\
             GS_inv n cs0 (length cs0) m'.
Proof.
  intros Hr Hcs Hne. unfold GS_orthogonalisation.
  rewrite (bind_done _ _ m m tt)
    by (apply assert_leftColsToSkip_accepts; unfold cols; rewrite Hcs; lia).
  destruct (treatFirstCol_0_spec m Hr Hcs Hne) as (m1 & Hrun & Hinv).
  rewrite (bind_done _ _ _ _ _ Hrun). unfold get at 1, bind at 1.
  pose proof Hinv as (_ & _ & -> & _).
  pose proof (GS_loop_spec GS_step 1 GS_step_spec Hne m1 Hinv) as Hloop.
  simpl in Hloop. change (Z.to_nat 1) with 1%nat.
  destruct (for_range 1 (length cs0) GS_step m1) as [m' o].
  simpl in Hloop. destruct Hloop as [-> Hfin]. by exists m'.
Qed.

Lemma MGS_0_run m :
  rows m = n -> colvecs m = cs0 -> (0 < length cs0)%nat ->
  exists m', MGS_orthogonalisation 0%Z m = (m', Done tt) /\
             GS_inv n cs0 (length cs0) m'.
Proof.
  intros Hr Hcs Hne. unfold MGS_orthogonalisation.
  rewrite (bind_done _ _ m m tt)
    by (apply assert_leftColsToSkip_accepts; unfold cols; rewrite Hcs; lia).
  destruct (treatFirstCol_0_spec m Hr Hcs Hne) as (m1 & Hrun & Hinv).
  rewrite (bind_done _ _ _ _ _ Hrun). unfold get at 1, bind at 1.
  pose proof Hinv as (_ & _ & -> & _).
  pose proof (GS_loop_spec _ 1 MGS_body_spec Hne m1 Hinv) as Hloop.
  simpl in Hloop. change (Z.to_nat 1) with 1%nat.
  match goal with |- context [for_range 1 _ ?b m1] =>
    destruct (for_range 1 (length cs0) b m1) as [m' o] end.
  simpl in Hloop. destruct Hloop as [-> Hfin]. by exists m'.
Qed.

End Independent.

(** *** Orthonormal input *)

Lemma matrix_eta m : mkMatrix (rows m) (colvecs m) = m.
Proof. by destruct m. Qed.

Lemma for_count_id {St} (body : nat -> M St unit) k lo (s : St) :
  (forall j, (lo <= j < lo + k)%nat -> body j s = (s, Done tt)) ->
  for_count k lo body s = (s, Done tt).
Proof.
  revert lo. induction k as [|k IH]; intros lo Hbody; [done|].
  simpl. unfold bind. rewrite Hbody by lia. apply IH.
  intros j Hj. apply Hbody. lia.
Qed.

Lemma orthonormal_unit cs i c :
  orthonormal cs -> cs !! i = Some c -> dot c c = 1.
Proof. intros Ho Hi. rewrite (Ho i i c c Hi Hi). by rewrite decide_True. Qed.

Lemma normalize_col_orthonormal m j :
  orthonormal (colvecs m) -> (j < length (colvecs m))%nat ->
  normalize_col j m = (m, Done tt).
Proof.
  intros Ho Hj. destruct (lookup_lt_is_Some_2 _ _ Hj) as [c Hc].
  erewrite normalize_col_run; [|exact Hc|].
  2: { apply normalize_unit. by eapply orthonormal_unit. }
  by rewrite list_insert_id, matrix_eta.
Qed.

Lemma GS_step_orthonormal m j :
  wf m -> orthonormal (colvecs m) -> (j < length (colvecs m))%nat ->
  GS_step j m = (m, Done tt).
Proof.
  intros Hwf Ho Hj. destruct (lookup_lt_is_Some_2 _ _ Hj) as [c Hc].
  assert (length c = rows m) as Hlc by (by eapply Forall_lookup_1 in Hwf).
  assert (residual (leftCols m j) c = c) as Hres.
  { apply residual_orth; [by apply Forall_take|done|].
    intros q Hq. apply list_elem_of_lookup in Hq as [i Hi].
    apply lookup_take_Some in Hi as [Hi Hij].
    rewrite (Ho i j q c Hi Hc). by rewrite decide_False by lia. }
  erewrite GS_step_run; [|exact Hc|].
  2: { rewrite Hres. apply normalize_unit. by eapply orthonormal_unit. }
  by rewrite list_insert_id, matrix_eta.
Qed.

Lemma GS_orthonormal_id m L :
  wf m -> orthonormal (colvecs m) -> (0 <= L < cols m)%Z ->
  GS_orthogonalisation L m = (m, Done tt).
Proof.
  intros Hwf Ho HL. unfold GS_orthogonalisation.
  rewrite (bind_done _ _ m m tt) by by apply assert_leftColsToSkip_accepts.
  unfold cols in HL.
  assert (exists L', treatFirstCol L m = (m, Done L')) as [L' Hrun].
  { unfold treatFirstCol. destruct (L =? 0)%Z; [|by eexists].
    exists 1%Z. unfold bind. rewrite normalize_col_orthonormal; [done..|lia]. }
  rewrite (bind_done _ _ _ _ _ Hrun). unfold get at 1, bind at 1.
  apply for_count_id. intros j Hj. apply GS_step_orthonormal; [done..|lia].
Qed.

(** *** Projection against a fixed orthonormal block *)

Lemma norm_normalized v : norm v <> 0 -> norm (normalized v) = 1.
Proof.
  intros Hv. apply norm_of_unit. rewrite normalized_vscale.
  by apply dot_normalized.
Qed.

Lemma dot_in_span n B u v :
  in_span n B v -> (forall c, c ∈ B -> dot u c = 0) -> dot u v = 0.
Proof.
  intros Hv Hu. induction Hv as [|g Hg Hl|x y Hx IHx Hy IHy|a x Hx IHx].
  - apply dot_vzero_r.
  - by apply Hu.
  - rewrite dot_vadd_r, IHx, IHy; [lra|].
    apply in_span_length in Hx, Hy. congruence.
  - rewrite dot_vscale_r, IHx. lra.
Qed.

Lemma partial_column n P c :
  cwf n P -> orthonormal P -> length c = n -> ~ in_span n P c ->
  norm (normalized (residual (mkMatrix n P) c)) = 1 /\
  forall p, p ∈ P -> dot p (normalized (residual (mkMatrix n P) c)) = 0.
Proof.
  intros HP Ho Hc Hns.
  pose proof (residual_nonzero n P c HP Hc Hns) as Hnz. split.
  - by apply norm_normalized.
  - intros p Hp. apply list_elem_of_lookup in Hp as [i Hi].
    rewrite normalized_vscale, dot_vscale_r.
    rewrite (dot_residual n P c i p) by done. lra.
Qed.

(** *** Rank deficiency *)

(** A vector in the span of an orthonormal family has no residual. *)
Lemma residual_of_span n P c :
  cwf n P -> orthonormal P -> in_span n P c ->
  residual (mkMatrix n P) c = vzero n.
Proof.
  intros HP Ho Hin.
  destruct (span_coeffs n P c HP Hin) as (ws & Hlen & Hc).
  assert (trans_vec (mkMatrix n P) c = ws) as Hw.
  { apply list_eq. intros i.
    destruct (P !! i) as [q|] eqn:Hq.
    - etrans; [exact (trans_vec_lookup n P c i q Hq)|].
      pose proof (lookup_lt_Some _ _ _ Hq) as Hi.
      destruct (lookup_lt_is_Some_2 ws i) as [x Hx]; [lia|].
      rewrite Hx. f_equal. rewrite <- Hc.
      apply (dot_lc_select n P ws q i x); [done| |done|done].
      intros k c' Hk. rewrite (Ho i k q c' Hq Hk).
      destruct (decide (i = k)), (decide (k = i)); done.
    - apply lookup_ge_None in Hq.
      rewrite !lookup_ge_None_2; [done|lia|].
      unfold trans_vec. simpl. by rewrite length_map. }
  unfold residual. rewrite Hw, Hc, vsub_zero_self.
  by rewrite (in_span_length n P c Hin).
Qed.

(** The classical step divides by zero on a column that depends on the
    orthonormal columns before it. *)
Lemma GS_step_dependent m k c :
  wf m -> orthonormal (take k (colvecs m)) -> colvecs m !! k = Some c ->
  in_span (rows m) (take k (colvecs m)) c ->
  (GS_step k m).2 = Abort ZeroDivisor.
Proof.
  intros Hwf Ho Hk Hin. apply (GS_step_abort m k c ZeroDivisor Hk).
  apply normalize_Abort. unfold leftCols.
  rewrite residual_of_span; [|by apply Forall_take|done|done].
  apply norm_zero_iff. by rewrite length_vzero.
Qed.

(** So does the partial routine on a new column that depends on the
    fixed block. *)
Lemma partial_dependent m L c :
  wf m -> (1 <= L < cols m)%Z ->
  orthonormal (take (Z.to_nat L) (colvecs m)) ->
  c ∈ drop (Z.to_nat L) (colvecs m) ->
  in_span (rows m) (take (Z.to_nat L) (colvecs m)) c ->
  (partial_orthogonalisation L m).2 = Abort ZeroDivisor.
Proof.
  intros Hwf HL Ho Hc Hin. apply (partial_abort m L c HL Hc). unfold leftCols.
  rewrite residual_of_span; [|by apply Forall_take|done|done].
  apply norm_zero_iff. by rewrite length_vzero.
Qed.

(** The bootstrap divides by zero on a zero first column. *)
Lemma treatFirstCol_zero_column m n :
  colvecs m !! 0%nat = Some (vzero n) ->
  treatFirstCol 0%Z m = (m, Abort ZeroDivisor).
Proof.
  intros H0. unfold treatFirstCol. simpl. apply bind_abort.
  apply (normalize_col_abort m 0 (vzero n) ZeroDivisor H0).
  apply normalize_Abort, norm_zero_iff. by rewrite length_vzero.
Qed.

End RealGramSchmidt.

(** ** The QR step on real matrices *)

Section RealQR.

Local Open Scope R_scope.

Local Abbreviation lc n cs a := (mat_vec (mkMatrix n cs) a).
Local Abbreviation cwf n cs := (Forall (fun c : Vector R => length c = n) cs).

Implicit Types (u v w c q : Vector R) (n : nat) (m : Matrix R).
Implicit Types (cs Qs Bs P Rs : list (Vector R)).

Lemma lc_all_zero n cs (ws : list R) :
  cwf n cs -> Forall (fun x => x = 0) ws -> lc n cs ws = vzero n.
Proof.
  intros Hcs. revert ws. induction Hcs as [|c cs Hc Hcs IH]; intros [|x ws] Hws;
    try done.
  apply Forall_cons in Hws as [-> Hws].
  rewrite lc_cons, IH, vscale_0, Hc by done. apply vadd_zero_r, length_vzero.
Qed.

Lemma lc_unit_vec n Qs j q s N :
  cwf n Qs -> Qs !! j = Some q -> (j < N)%nat ->
  lc n Qs (map (fun i => if Nat.eqb i (s + j) then 1 else 0) (seq s N)) = q.
Proof.
  intros HQ. revert j s N.
  induction HQ as [|c Qs Hc HQ IH]; intros j s [|N] Hj HN; try done; try lia.
  simpl seq. simpl map. rewrite lc_cons. destruct j as [|j]; simpl in Hj.
  - injection Hj as ->. rewrite Nat.add_0_r, Nat.eqb_refl, vscale_1.
    rewrite lc_all_zero; [by apply vadd_zero_r|done|].
    apply Forall_forall. intros x Hx.
    apply list_elem_of_fmap in Hx as (i & -> & Hi).
    apply elem_of_seq in Hi. destruct (Nat.eqb_spec i s); [lia|done].
  - destruct (Nat.eqb_spec s (s + S j)); [lia|].
    rewrite vscale_0, Hc.
    replace (fun i => if Nat.eqb i (s + S j) then 1 else 0)
      with (fun i => if Nat.eqb i (S s + j) then 1 else 0).
    + rewrite (IH j (S s) N Hj) by lia.
      apply vadd_zero_l. by eapply Forall_lookup_1 in HQ.
    + replace (S s + j)%nat with (s + S j)%nat by lia. done.
Qed.

(** [q * Identity(n, r)] keeps the first [r] columns of [q]. *)
Lemma mat_mul_Identity (Q : Matrix R) N r :
  wf Q -> (r <= length (colvecs Q))%nat -> (r <= N)%nat ->
  colvecs (mat_mul Q (Identity N r)) = take r (colvecs Q).
Proof.
  intros HQ Hr HN. unfold mat_mul, Identity. simpl.
  induction r as [|r IH]; [done|].
  destruct (lookup_lt_is_Some_2 (colvecs Q) r) as [q Hq]; [lia|].
  rewrite seq_S, !map_app, IH by lia. simpl.
  rewrite (take_S_r _ _ q) by done. f_equal. f_equal.
  unfold unit_vec. destruct Q as [n Qs]. simpl in *.
  by apply (lc_unit_vec n Qs r q 0 N).
Qed.

Lemma take_subseteq {A} (l : list A) i k :
  (i <= k)%nat -> take i l ⊆ take k l.
Proof.
  intros Hik x Hx. apply list_elem_of_lookup in Hx as [j Hj].
  apply lookup_take_Some in Hj as [Hj Hlt].
  apply (list_elem_of_lookup_2 _ j). apply lookup_take_Some. split; [done|lia].
Qed.

Lemma vadd_vsub_cancel u v : length u = length v -> vsub (vadd u v) u = v.
Proof.
  revert v. induction u as [|x u IH]; intros [|y v] E; try done.
  simpl in E. simpl. f_equal; [lra|]. apply IH. lia.
Qed.

(** A column of [q * r] for an upper triangular [r] only involves the
    columns of [q] up to its own index. *)
Lemma upper_column_split n Qs (Rk : Vector R) k q rho :
  cwf n Qs -> Qs !! k = Some q -> Rk !! k = Some rho ->
  (forall i x, Rk !! i = Some x -> (k < i)%nat -> x = 0) ->
  lc n Qs Rk = vadd (lc n (take k Qs) (take k Rk)) (vscale rho q).
Proof.
  intros HQ Hq Hrho Hup.
  pose proof (lookup_lt_Some _ _ _ Hq) as HkQ.
  pose proof (lookup_lt_Some _ _ _ Hrho) as HkR.
  rewrite <- (take_drop_middle _ _ _ Hq) at 1.
  rewrite <- (take_drop_middle _ _ _ Hrho) at 1.
  assert (cwf n (drop (S k) Qs)) as Hd by by apply Forall_drop.
  rewrite lc_app; [|rewrite !length_take; lia|].
  2: { constructor; [exact (Forall_lookup_1 _ _ _ _ HQ Hq)|done]. }
  rewrite lc_cons, (lc_all_zero n (drop (S k) Qs)); [|done|].
  - rewrite vadd_zero_r; [done|].
    rewrite length_vscale. exact (Forall_lookup_1 _ _ _ _ HQ Hq).
  - apply Forall_lookup_2. intros i x Hi. rewrite lookup_drop in Hi.
    eapply Hup; [exact Hi|lia].
Qed.

(** With independent columns in [b = q * r], each column [k] of [q] lies
    in the span of the columns of [b] up to [k]. *)
Lemma qr_span n Qs Rs :
  cwf n Qs -> Forall (fun c => length c = length Qs) Rs ->
  upper_triangular (mkMatrix (length Qs) Rs) ->
  (forall k c, map (fun w => lc n Qs w) Rs !! k = Some c ->
     ~ in_span n (take k (map (fun w => lc n Qs w) Rs)) c) ->
  forall k q, (k < length Rs)%nat -> Qs !! k = Some q ->
    in_span n (take (S k) (map (fun w => lc n Qs w) Rs)) q.
Proof.
  intros HQ HR Hup Hind. set (Bs := map (fun w => lc n Qs w) Rs) in *.
  intros k. induction k as [k IH] using lt_wf_ind. intros q Hk Hq.
  destruct (lookup_lt_is_Some_2 Rs k Hk) as [Rk HRk].
  assert (length Rk = length Qs) as HlR by (by eapply Forall_lookup_1 in HR).
  pose proof (lookup_lt_Some _ _ _ Hq) as HkQ.
  destruct (lookup_lt_is_Some_2 Rk k) as [rho Hrho]; [lia|].
  assert (Bs !! k = Some (lc n Qs Rk)) as HBk.
  { unfold Bs. etrans; [apply list_lookup_fmap|]. by rewrite HRk. }
  assert (length q = n) as Hlq by (by eapply Forall_lookup_1 in HQ).
  set (X := lc n (take k Qs) (take k Rk)).
  assert (length X = n) as HlX by (apply length_lc; by apply Forall_take).
  assert (in_span n (take k Bs) X) as HX.
  { eapply in_span_trans; [|apply in_span_lc; by apply Forall_take].
    intros g Hg. apply list_elem_of_lookup in Hg as [i Hi].
    apply lookup_take_Some in Hi as [Hi Hik].
    eapply in_span_mono; [apply (take_subseteq _ (S i) k); lia|].
    apply IH; [lia|lia|done]. }
  assert (lc n Qs Rk = vadd X (vscale rho q)) as Hsplit.
  { eapply upper_column_split; try done.
    intros i x Hi Hki. by eapply (Hup k Rk i x). }
  destruct (Req_dec_T rho 0) as [Hz|Hnz].
  - exfalso. apply (Hind k _ HBk). rewrite Hsplit, Hz, vscale_0, Hlq.
    by rewrite vadd_zero_r.
  - replace q with (vscale (/ rho) (vsub (lc n Qs Rk) X)).
    + apply span_scale, in_span_vsub.
      * apply span_gen; [|rewrite Hsplit, length_vadd; by rewrite ?length_vscale; congruence].
        apply (list_elem_of_lookup_2 _ k). apply lookup_take_Some. split; [done|lia].
      * eapply in_span_mono; [apply take_S_subseteq|done].
    + rewrite Hsplit, vadd_vsub_cancel by (rewrite length_vscale; congruence).
      rewrite vscale_vscale. replace (/ rho * rho) with 1 by (by field).
      apply vscale_1.
Qed.

End RealQR.

(** ** Independent columns are at most as many as the rows *)

Section Dimension.

Local Open Scope R_scope.

Local Abbreviation lc n cs a := (mat_vec (mkMatrix n cs) a).
Local Abbreviation cwf n cs := (Forall (fun c : Vector R => length c = n) cs).

Implicit Types (u v e q : Vector R) (n : nat) (Qs cs : list (Vector R)).

Lemma ssum_cons (x : R) (l : list R) : ssum (x :: l) = x + ssum l.
Proof. reflexivity. Qed.

Lemma ssum_map_add {A} (f g : A -> R) (l : list A) :
  ssum (map (fun x => f x + g x) l) = ssum (map f l) + ssum (map g l).
Proof.
  induction l as [|x l IH]; simpl map; [unfold ssum; simpl; lra|].
  rewrite !ssum_cons, IH. lra.
Qed.

Lemma ssum_map_const {A} (a : R) (l : list A) :
  ssum (map (fun _ => a) l) = INR (length l) * a.
Proof.
  induction l as [|x l IH]; [unfold ssum; simpl; lra|].
  simpl map. rewrite ssum_cons, IH. simpl length. rewrite S_INR. lra.
Qed.

Lemma ssum_map_le {A} (f g : A -> R) (l : list A) :
  (forall x, x ∈ l -> f x <= g x) -> ssum (map f l) <= ssum (map g l).
Proof.
  induction l as [|x l IH]; intros Hfg; [unfold ssum; simpl; lra|].
  simpl map. rewrite !ssum_cons.
  pose proof (Hfg x (list_elem_of_here _ _)).
  assert (ssum (map f l) <= ssum (map g l))
    by (apply IH; intros y Hy; apply Hfg; by constructor).
  lra.
Qed.

Lemma ssum_map_ext {A} (f g : A -> R) (l : list A) :
  (forall x, x ∈ l -> f x = g x) -> ssum (map f l) = ssum (map g l).
Proof.
  induction l as [|x l IH]; intros Hfg; [done|].
  simpl map. rewrite !ssum_cons, (Hfg x) by constructor.
  f_equal. apply IH. intros y Hy. apply Hfg. by constructor.
Qed.

Lemma ssum_swap {A B} (f : A -> B -> R) (la : list A) (lb : list B) :
  ssum (map (fun a => ssum (map (f a) lb)) la) =
  ssum (map (fun b => ssum (map (fun a => f a b) la)) lb).
Proof.
  induction la as [|a la IH]; simpl map.
  - rewrite (ssum_map_const 0). unfold ssum at 1. simpl. lra.
  - rewrite ssum_cons, IH.
    rewrite <- ssum_map_add. apply ssum_map_ext. intros b _.
    reflexivity.
Qed.

Lemma dot_all_zero u v : Forall (fun x => x = 0) v -> dot u v = 0.
Proof.
  intros Hv. revert u. induction Hv as [|x v -> Hv IH]; intros [|y u]; try done.
  rewrite dot_cons, IH. lra.
Qed.

Lemma dot_unit_vec q i s N :
  (i < N)%nat ->
  dot q (map (fun i' => if Nat.eqb i' (s + i) then 1 else 0) (seq s N))
  = default 0 (q !! i).
Proof.
  revert i s N. induction q as [|x q IH]; intros i s [|N] Hi; try done; try lia.
  simpl seq. simpl map. rewrite dot_cons. destruct i as [|i]; simpl.
  - rewrite Nat.add_0_r, Nat.eqb_refl. rewrite dot_all_zero; [lra|].
    apply Forall_forall. intros y Hy.
    apply list_elem_of_fmap in Hy as (j & -> & Hj).
    apply elem_of_seq in Hj. destruct (Nat.eqb_spec j s); [lia|done].
  - destruct (Nat.eqb_spec s (s + S i)); [lia|].
    replace (fun i' => if Nat.eqb i' (s + S i) then 1 else 0)
      with (fun i' => if Nat.eqb i' (S s + i) then 1 else 0).
    + rewrite (IH i (S s) N) by lia. by rewrite Rmult_0_r, Rplus_0_l.
    + replace (S s + i)%nat with (s + S i)%nat by lia. done.
Qed.

Lemma dot_unit_vec0 q i n :
  (i < n)%nat -> dot q (unit_vec n i) = default 0 (q !! i).
Proof. intros Hi. exact (dot_unit_vec q i 0 n Hi). Qed.

Lemma squaredNorm_coordinates q :
  ssum (map (fun i => default 0 (q !! i) * default 0 (q !! i))
          (seq 0 (length q))) = squaredNorm q.
Proof.
  induction q as [|x q IH]; [done|].
  simpl length. simpl seq. simpl map. rewrite ssum_cons.
  rewrite <- seq_shift, map_map. simpl.
  change (squaredNorm (x :: q)) with (x * x + squaredNorm q).
  f_equal. exact IH.
Qed.

(** The general form of the inner product with a combination. *)
Lemma dot_lc n cs (ws : list R) u :
  cwf n cs ->
  dot u (lc n cs ws) = ssum (zip_with (fun x c => x * dot u c) ws cs).
Proof.
  intros Hcs. revert ws. induction Hcs as [|c cs Hc Hcs IH]; intros [|x ws];
    try apply dot_vzero_r.
  rewrite lc_cons, dot_vadd_r, dot_vscale_r, IH
    by (by rewrite length_vscale, length_lc).
  reflexivity.
Qed.

(** Bessel's inequality for an orthonormal family. *)
Lemma bessel n Qs e :
  cwf n Qs -> orthonormal Qs -> length e = n ->
  ssum (map (fun q => dot q e * dot q e) Qs) <= dot e e.
Proof.
  intros HQ Ho He.
  set (r := residual (mkMatrix n Qs) e).
  assert (length r = n) as Hr by by apply length_residual.
  assert (dot r (lc n Qs (trans_vec (mkMatrix n Qs) e)) = 0) as Hperp.
  { apply dot_lc_orth; [done|]. intros q Hq.
    apply list_elem_of_lookup in Hq as [i Hi].
    rewrite dot_comm. by eapply dot_residual. }
  assert (dot e (lc n Qs (trans_vec (mkMatrix n Qs) e))
          = ssum (map (fun q => dot q e * dot q e) Qs)) as Hproj.
  { rewrite dot_lc by done. unfold trans_vec. simpl.
    rewrite zip_with_fmap_l, zip_with_diag.
    apply ssum_map_ext. intros q _. by rewrite tdot_dot, (dot_comm e q). }
  pose proof (squaredNorm_nonneg r) as Hpos. rewrite <- dot_self in Hpos.
  assert (dot r r = dot e e - dot e (lc n Qs (trans_vec (mkMatrix n Qs) e))) as E.
  { unfold r at 2. unfold residual. rewrite dot_vsub_r by (by rewrite length_lc).
    rewrite Hperp. unfold r, residual.
    rewrite dot_vsub_l by (by rewrite length_lc).
    rewrite (dot_comm (lc n Qs _) e). lra. }
  rewrite <- Hproj. lra.
Qed.

Lemma orthonormal_le_rows n Qs :
  cwf n Qs -> orthonormal Qs -> (length Qs <= n)%nat.
Proof.
  intros HQ Ho. apply INR_le.
  set (f := fun q i => dot q (unit_vec n i) * dot q (unit_vec n i)).
  assert (INR (length Qs) = ssum (map (fun q => ssum (map (f q) (seq 0 n))) Qs)) as ->.
  { replace (INR (length Qs)) with (ssum (map (fun _ : Vector R => 1) Qs))
      by (rewrite ssum_map_const; lra).
    apply ssum_map_ext. intros q Hq.
    pose proof Hq as Hq'. apply list_elem_of_lookup in Hq' as [k Hk].
    assert (length q = n) as Hl by exact (Forall_lookup_1 _ _ _ _ HQ Hk).
    rewrite <- (orthonormal_unit Qs k q Ho Hk), dot_self.
    rewrite <- squaredNorm_coordinates, Hl.
    apply ssum_map_ext. intros i Hi. apply elem_of_seq in Hi.
    unfold f. by rewrite dot_unit_vec0 by lia. }
  rewrite ssum_swap.
  replace (INR n) with (ssum (map (fun _ : nat => 1) (seq 0 n)))
    by (rewrite ssum_map_const, length_seq; lra).
  apply ssum_map_le. intros i Hi. apply elem_of_seq in Hi.
  assert (length (unit_vec (K:=R) n i) = n) as Hlu
    by (unfold unit_vec; by rewrite length_map, length_seq).
  etrans; [apply (bessel n Qs (unit_vec n i)); done|].
  rewrite dot_unit_vec0 by lia.
  assert (unit_vec (K:=R) n i !! i = Some 1) as ->.
  { unfold unit_vec. etrans; [apply list_lookup_fmap|].
    rewrite lookup_seq_lt by lia. simpl. by rewrite Nat.eqb_refl. }
  simpl. lra.
Qed.

Lemma lin_indep_le_rows n cs :
  cwf n cs -> lin_indep n cs -> (length cs <= n)%nat.
Proof.
  intros Hcs Hli. destruct (decide (0 < length cs)%nat) as [Hpos|]; [|lia].
  destruct (GS_0_run n cs Hcs Hli (mkMatrix n cs) eq_refl eq_refl Hpos)
    as (m' & _ & Hinv).
  pose proof (GS_inv_final _ _ _ Hinv) as Ho.
  destruct Hinv as (_ & Hwf & <- & _). by apply orthonormal_le_rows.
Qed.

End Dimension.

(** ** The composite routine on real matrices *)

Section RealJensWehner.

Local Open Scope R_scope.

Local Abbreviation lc n cs a := (mat_vec (mkMatrix n cs) a).
Local Abbreviation cwf n cs := (Forall (fun c : Vector R => length c = n) cs).

Implicit Types (u v w c q : Vector R) (n : nat) (m : Matrix R).
Implicit Types (cs Qs Bs P : list (Vector R)).

Lemma residual_recover n P c :
  cwf n P -> length c = n -> norm (residual (mkMatrix n P) c) <> 0 ->
  c = vadd (vscale (norm (residual (mkMatrix n P) c))
              (normalized (residual (mkMatrix n P) c)))
        (lc n P (trans_vec (mkMatrix n P) c)).
Proof.
  intros HP Hc Hnz. rewrite normalized_vscale, vscale_vscale.
  replace (norm _ * / norm _) with 1 by (by field).
  rewrite vscale_1. unfold residual.
  by rewrite vsub_vadd_cancel by (by rewrite length_lc).
Qed.

(** The block left by the projection is still free of dependencies. *)
Lemma partial_block_indep n cs l k b :
  cwf n cs -> lin_indep n cs ->
  map (fun c => normalized (residual (mkMatrix n (take l cs)) c)) (drop l cs)
    !! k = Some b ->
  ~ in_span n
      (take k (map (fun c => normalized (residual (mkMatrix n (take l cs)) c))
                 (drop l cs))) b.
Proof.
  intros Hcs Hli Hb Hin. set (P := take l cs) in *.
  set (F := fun c => normalized (residual (mkMatrix n P) c)) in *.
  assert (cwf n P) as HP by by apply Forall_take.
  assert (forall j g, (j <= k)%nat -> drop l cs !! j = Some g ->
            in_span n (take (l + S j) cs) g) as Hgen.
  { intros j g Hj Hg. rewrite lookup_drop in Hg. apply span_gen.
    - apply (list_elem_of_lookup_2 _ (l + j)). apply lookup_take_Some.
      split; [done|lia].
    - exact (Forall_lookup_1 _ _ _ _ Hcs Hg). }
  assert (forall j q, q ∈ P -> in_span n (take (l + j) cs) q) as HPs.
  { intros j q Hq. apply span_gen.
    - eapply (take_subseteq cs l (l + j)); [lia|done].
    - apply list_elem_of_lookup in Hq as [i Hi].
      exact (Forall_lookup_1 _ _ _ _ HP Hi). }
  assert (F <$> drop l cs !! k = Some b) as Hb'
    by (rewrite <- Hb; symmetry; apply list_lookup_fmap).
  destruct (drop l cs !! k) as [c|] eqn:Hc; [|done].
  injection Hb' as <-.
  assert (cs !! (l + k)%nat = Some c) as Hck by by rewrite <- lookup_drop.
  assert (length c = n) as Hlc by exact (Forall_lookup_1 _ _ _ _ Hcs Hck).
  pose proof (lin_indep_prefix n cs (l + k) c Hli Hcs Hck) as Hns.
  assert (norm (residual (mkMatrix n P) c) <> 0) as Hnz.
  { apply residual_nonzero; [done..|]. intros HinP. apply Hns.
    eapply in_span_trans; [|exact HinP]. intros g Hg. by apply HPs. }
  apply Hns. rewrite (residual_recover n P c HP Hlc Hnz).
  apply span_add.
  - apply span_scale. eapply in_span_trans; [|exact Hin].
    intros g Hg. apply list_elem_of_lookup in Hg as [j Hj].
    apply lookup_take_Some in Hj as [Hj Hjk].
    assert (F <$> drop l cs !! j = Some g) as Hj'
      by (rewrite <- Hj; symmetry; apply list_lookup_fmap).
    destruct (drop l cs !! j) as [cj|] eqn:Hcj; [|done].
    injection Hj' as <-. unfold F. rewrite normalized_vscale.
    apply span_scale, residual_in_span; [done| |].
    + intros q Hq. by apply HPs.
    + eapply in_span_mono; [|apply (Hgen j cj); [lia|done]].
      apply take_subseteq. lia.
  - eapply in_span_trans; [|apply in_span_lc; done].
    intros g Hg. by apply HPs.
Qed.

Lemma orthonormal_take cs r : orthonormal cs -> orthonormal (take r cs).
Proof.
  intros Ho i j ci cj Hi Hj.
  apply lookup_take_Some in Hi as [Hi _]. apply lookup_take_Some in Hj as [Hj _].
  by apply Ho.
Qed.

(** The composite routine, once the projection has gone through. *)
Lemma JW_run hq m L m1 :
  (0 <= L < cols m)%Z ->
  partial_orthogonalisation L m = (m1, Done tt) ->
  length (colvecs m1) = length (colvecs m) ->
  wf (hq (rightCols m1 (length (colvecs m) - Z.to_nat L))) ->
  length (colvecs (hq (rightCols m1 (length (colvecs m) - Z.to_nat L))))
    = rows m1 ->
  (length (colvecs m) - Z.to_nat L <= rows m1)%nat ->
  JensWehner_orthogonalisation hq L m =
    (mkMatrix (rows m1)
       (take (Z.to_nat L) (colvecs m1) ++
        take (length (colvecs m) - Z.to_nat L)
          (colvecs (hq (rightCols m1 (length (colvecs m) - Z.to_nat L))))),
     Done tt).
Proof.
  intros HL Hpart Hlen HwfQ HlenQ Hr. unfold cols in HL.
  set (l := Z.to_nat L) in *. set (len := length (colvecs m)) in *.
  set (r := (len - l)%nat) in *. set (Q := hq (rightCols m1 r)) in *.
  unfold JensWehner_orthogonalisation.
  rewrite (bind_done _ _ m m tt)
    by (apply assert_leftColsToSkip_accepts; unfold cols; lia).
  unfold get at 1, bind at 1. unfold cols. fold len.
  replace (Z.to_nat (Z.of_nat len - L)) with r by (unfold r; lia).
  rewrite (bind_done _ _ _ _ _ Hpart).
  assert (length (colvecs (rightCols m1 r)) = r) as HlenB.
  { unfold rightCols. simpl. rewrite length_drop, Hlen. fold len. unfold r. lia. }
  assert (colvecs (mat_mul Q (Identity (rows m1) r)) = take r (colvecs Q)) as HQI
    by (apply mat_mul_Identity; [done|lia|done]).
  assert (on_rightCols r (QR_orthogonalisation hq) m1 =
          (mkMatrix (rows m1) (take l (colvecs m1) ++ take r (colvecs Q)), Done tt))
    as Hqr.
  { unfold on_rightCols, QR_orthogonalisation. munfold.
    rewrite HlenB. change (rows (rightCols m1 r)) with (rows m1).
    rewrite Nat.min_r by done. fold Q.
    rewrite set_rightCols_run.
    - rewrite HQI, Hlen. fold len.
      by replace (len - r)%nat with l by (unfold r; lia).
    - rewrite Hlen. fold len. unfold r. lia.
    - rewrite HQI, length_take. lia. }
  rewrite (bind_done _ _ _ _ _ Hqr). unfold get at 1, bind at 1.
  assert (length (take l (colvecs m1)) = l) as Hlt
    by (rewrite length_take, Hlen; fold len; lia).
  assert (length (take r (colvecs Q)) = r) as Hlr
    by (rewrite length_take; lia).
  rewrite set_rightCols_run; simpl.
  - rewrite length_app, Hlt, Hlr.
    replace (l + r - r)%nat with l by lia.
    rewrite take_app_length' by done. rewrite drop_app_length' by done. done.
  - rewrite length_app, Hlt, Hlr. lia.
  - rewrite length_drop, length_app, Hlt, Hlr. lia.
Qed.

(** What the projection leaves behind on an independent family whose
    first [l] columns are orthonormal. *)
Lemma partial_result m L :
  wf m -> lin_indep (rows m) (colvecs m) -> (0 <= L < cols m)%Z ->
  orthonormal (take (Z.to_nat L) (colvecs m)) ->
  exists Bs,
    partial_orthogonalisation L m =
      (mkMatrix (rows m) (take (Z.to_nat L) (colvecs m) ++ Bs), Done tt) /\
    cwf (rows m) Bs /\
    length Bs = (length (colvecs m) - Z.to_nat L)%nat /\
    (forall k b, Bs !! k = Some b -> ~ in_span (rows m) (take k Bs) b) /\
    (forall p b, p ∈ take (Z.to_nat L) (colvecs m) -> b ∈ Bs -> dot p b = 0).
Proof.
  intros Hwf Hli HL Ho. unfold wf in Hwf. unfold cols in HL.
  destruct (decide (L = 0%Z)) as [->|HL0].
  - exists (colvecs m). simpl. split; [|split; [done|split; [lia|split]]].
    + unfold partial_orthogonalisation.
      rewrite (bind_done _ _ m m tt)
        by (apply assert_leftColsToSkip_accepts; unfold cols; lia).
      simpl. by rewrite matrix_eta.
    + intros k b Hb. by apply lin_indep_prefix.
    + intros p b Hp. by apply elem_of_nil in Hp.
  - set (l := Z.to_nat L) in *. set (n := rows m) in *.
    set (P := take l (colvecs m)) in *.
    assert (cwf n P) as HP by by apply Forall_take.
    assert (forall c, c ∈ drop l (colvecs m) ->
              length c = n /\ ~ in_span n P c) as Hcols.
    { intros c Hc. apply list_elem_of_lookup in Hc as [j Hj].
      rewrite lookup_drop in Hj. split.
      - exact (Forall_lookup_1 _ _ _ _ Hwf Hj).
      - intros Hin. apply (lin_indep_prefix n _ _ c Hli Hwf Hj).
        eapply in_span_mono; [|exact Hin]. apply take_subseteq. lia. }
    exists (map (fun c => normalized (residual (mkMatrix n P) c))
              (drop l (colvecs m))).
    split; [|split; [|split; [|split]]].
    + apply partial_run; [unfold cols; lia|].
      intros c Hc. destruct (Hcols c Hc) as [Hlc Hns].
      by apply residual_nonzero.
    + apply Forall_forall. intros b Hb.
      apply list_elem_of_fmap in Hb as (c & -> & Hc).
      destruct (Hcols c Hc) as [Hlc Hns].
      rewrite normalized_vscale, length_vscale. by apply length_residual.
    + by rewrite length_map, length_drop.
    + intros k b Hb. by apply partial_block_indep.
    + intros p b Hp Hb. apply list_elem_of_fmap in Hb as (c & -> & Hc).
      destruct (Hcols c Hc) as [Hlc Hns].
      by apply (partial_column n P c HP Ho Hlc Hns).
Qed.

End RealJensWehner.

(** * The claims *)

Section Claims.

Local Open Scope R_scope.

(** C2. On a real matrix with linearly independent columns whose first
    [L] columns are orthonormal ([0 <= L < m]), and with Eigen's kernel
    honouring its contract on the block it is handed,
    [JensWehner_orthogonalisation] returns normally; the first [L] columns
    are unchanged, the columns from [L] on are orthonormal, and each of
    them is orthogonal to each of the first [L]. *)
Theorem JensWehner_extends_basis (hq : Matrix R -> Matrix R) (m : Matrix R) (L : Index) :
  wf m -> lin_indep (rows m) (colvecs m) -> (0 <= L < cols m)%Z ->
  orthonormal (take (Z.to_nat L) (colvecs m)) ->
  is_householderQ
    (rightCols (partial_orthogonalisation L m).1
       (length (colvecs m) - Z.to_nat L))
    (hq (rightCols (partial_orthogonalisation L m).1
           (length (colvecs m) - Z.to_nat L))) ->
  exists m',
    JensWehner_orthogonalisation hq L m = (m', Done tt) /\
    take (Z.to_nat L) (colvecs m') = take (Z.to_nat L) (colvecs m) /\
    length (colvecs m') = length (colvecs m) /\
    orthonormal (drop (Z.to_nat L) (colvecs m')) /\
    orthogonal_to (take (Z.to_nat L) (colvecs m'))
      (drop (Z.to_nat L) (colvecs m')).
Proof.
  intros Hwf Hli HL Ho Hq.
  pose proof (lin_indep_le_rows _ _ Hwf Hli) as Hdim.
  destruct (partial_result m L Hwf Hli HL Ho)
    as (Bs & Hpart & HBs & HlenB & Hind & Horth).
  unfold cols in HL. set (l := Z.to_nat L) in *.
  set (len := length (colvecs m)) in *. set (n := rows m) in *.
  assert (length (take l (colvecs m)) = l) as Hlt
    by (rewrite length_take; fold len; lia).
  rewrite Hpart in Hq. simpl in Hq.
  assert (rightCols (mkMatrix n (take l (colvecs m) ++ Bs)) (len - l)
          = mkMatrix n Bs) as HB.
  { unfold rightCols. simpl. rewrite length_app, Hlt, HlenB.
    replace (l + (len - l) - (len - l))%nat with l by lia.
    by rewrite drop_app_length'. }
  rewrite HB in Hq. set (Q := hq (mkMatrix n Bs)) in *.
  destruct Hq as (HrQ & HlQ & HwfQ & HoQ & Rm & HrR & HlR & HwfR & Hup & HQR).
  simpl in HrQ, HlQ, HrR, HlR.
  assert (length (colvecs (mkMatrix n (take l (colvecs m) ++ Bs))) = len) as Hlen1
    by (simpl; rewrite length_app, Hlt, HlenB; lia).
  pose proof (JW_run hq m L _ HL Hpart Hlen1) as Hrun.
  fold len l in Hrun. rewrite HB in Hrun. fold Q in Hrun. simpl in Hrun.
  specialize (Hrun HwfQ HlQ ltac:(lia)).
  rewrite take_app_length' in Hrun by done.
  eexists. split; [exact Hrun|]. simpl.
  assert (length (take (len - l) (colvecs Q)) = (len - l)%nat) as Hlr
    by (rewrite length_take; lia).
  rewrite take_app_length', drop_app_length' by done.
  split; [done|]. split; [rewrite length_app; lia|]. split.
  - by apply orthonormal_take.
  - intros p q Hp Hq'. apply list_elem_of_lookup in Hq' as [k Hk].
    apply lookup_take_Some in Hk as [Hk Hkr].
    unfold wf in HwfQ, HwfR. rewrite HrQ in HwfQ. rewrite HrR, <- HlQ in HwfR.
    assert (Bs = map (fun w => mat_vec (mkMatrix n (colvecs Q)) w) (colvecs Rm))
      as HBs'.
    { injection HQR as _ HQR. rewrite HQR. apply map_ext. intros w.
      by rewrite <- HrQ, matrix_eta. }
    apply (dot_in_span n Bs); [|intros c Hc; by apply Horth].
    eapply in_span_mono; [apply (subseteq_take (S k))|].
    rewrite HBs'. apply qr_span.
    + exact HwfQ.
    + exact HwfR.
    + intros j c i x Hj Hi Hji. by apply (Hup j c i x).
    + rewrite <- HBs'. exact Hind.
    + lia.
    + exact Hk.
Qed.

(** What the invariant says once the sweep has passed the last column:
    the buffer has kept its shape, its columns are orthonormal and each of
    them is a combination of the original columns. *)
Lemma GS_inv_result n cs0 (m' : Matrix R) :
  GS_inv n cs0 (length cs0) m' ->
  rows m' = n /\ length (colvecs m') = length cs0 /\ wf m' /\
  orthonormal (colvecs m') /\
  (forall q, q ∈ colvecs m' -> in_span n cs0 q).
Proof.
  intros (Hr & Hwf & Hlen & Hon & _ & Hsp).
  split; [done|]. split; [done|]. split; [unfold wf; by rewrite Hr|].
  split; [by rewrite <- Hlen, firstn_all in Hon|].
  intros q Hq. rewrite <- (firstn_all cs0). apply Hsp.
  by rewrite <- Hlen, firstn_all.
Qed.

(** C1. On a real matrix [A] with linearly independent columns,
    [GS_orthogonalisation] and [MGS_orthogonalisation] with nothing
    skipped leave a buffer with the rows and the number of columns of
    [A], whose columns all have that many entries, have the identity as
    their Gram matrix (distinct columns have inner product 0, each column
    has norm 1) and are each a combination of the columns of [A]; both
    calls return normally as soon as [A] has a column. *)
Theorem Gram_Schmidt_orthonormal (m : Matrix R) :
  wf m -> lin_indep (rows m) (colvecs m) ->
  let orthonormalised (r : Matrix R * outcome unit) :=
    rows r.1 = rows m /\
    length (colvecs r.1) = length (colvecs m) /\
    wf r.1 /\
    orthonormal (colvecs r.1) /\
    (forall q, q ∈ colvecs r.1 -> in_span (rows m) (colvecs m) q) /\
    ((0 < cols m)%Z -> r.2 = Done tt) in
  orthonormalised (GS_orthogonalisation 0%Z m) /\
  orthonormalised (MGS_orthogonalisation 0%Z m).
Proof.
  intros Hwf Hli. simpl. unfold cols.
  destruct (decide (0 < length (colvecs m))%nat) as [Hpos|Hzero].
  - destruct (GS_0_run _ _ Hwf Hli m eq_refl eq_refl Hpos) as (m1 & -> & H1).
    destruct (MGS_0_run _ _ Hwf Hli m eq_refl eq_refl Hpos) as (m2 & -> & H2).
    apply GS_inv_result in H1 as (? & ? & ? & ? & ?).
    apply GS_inv_result in H2 as (? & ? & ? & ? & ?). simpl. done.
  - assert (assert_leftColsToSkip 0%Z m = (m, Abort PreconditionViolation)) as Hrej
      by (apply assert_leftColsToSkip_rejects; unfold cols; lia).
    unfold GS_orthogonalisation, MGS_orthogonalisation.
    rewrite !(bind_abort _ _ _ _ _ Hrej). simpl.
    assert (colvecs m = []) as Hnil
      by (destruct (colvecs m); [done|simpl in *; lia]).
    assert (orthonormal (colvecs m)) as Ho
      by (rewrite Hnil; intros i j ci cj Hi; done).
    assert (forall q, q ∈ colvecs m -> in_span (rows m) (colvecs m) q) as Hsp
      by (rewrite Hnil; intros q Hq; by apply elem_of_nil in Hq).
    assert ((0 < Z.of_nat (length (colvecs m)))%Z ->
            @Abort unit PreconditionViolation = Done tt) as Hno by lia.
    done.
Qed.

(** C3. On a real matrix whose first [L] columns are orthonormal
    ([1 <= L < m]) and none of whose other columns lies in their span,
    [partial_orthogonalisation] returns normally, keeps the first [L]
    columns, and replaces each other column [c] by the normalised residual
    of [c] against the first [L] columns alone: a unit vector orthogonal to
    each of them, computed without regard to the other new columns. *)
Theorem partial_orthogonalisation_columns (m : Matrix R) (L : Index) :
  wf m -> (1 <= L < cols m)%Z ->
  orthonormal (take (Z.to_nat L) (colvecs m)) ->
  (forall c, c ∈ drop (Z.to_nat L) (colvecs m) ->
     ~ in_span (rows m) (take (Z.to_nat L) (colvecs m)) c) ->
  exists m',
    partial_orthogonalisation L m = (m', Done tt) /\
    length (colvecs m') = length (colvecs m) /\
    take (Z.to_nat L) (colvecs m') = take (Z.to_nat L) (colvecs m) /\
    forall k c', (Z.to_nat L <= k)%nat -> colvecs m' !! k = Some c' ->
      norm c' = 1 /\
      (forall p, p ∈ take (Z.to_nat L) (colvecs m) -> dot p c' = 0) /\
      exists c, colvecs m !! k = Some c /\
        c' = normalized (residual (leftCols m (Z.to_nat L)) c).
Proof.
  intros Hwf HL Ho Hns. unfold cols in HL. set (l := Z.to_nat L) in *.
  assert (length (take l (colvecs m)) = l) as Hlt by (rewrite length_take; lia).
  assert (Forall (fun c => length c = rows m) (take l (colvecs m))) as HP
    by by apply Forall_take.
  assert (forall c, c ∈ drop l (colvecs m) -> length c = rows m) as Hlen.
  { intros c Hc. apply list_elem_of_lookup in Hc as [j Hj].
    rewrite lookup_drop in Hj. exact (Forall_lookup_1 _ _ _ _ Hwf Hj). }
  eexists. split; [|split; [|split]].
  - apply partial_run; [unfold cols; lia|]. intros c Hc.
    apply residual_nonzero; [done|by apply Hlen|by apply Hns].
  - simpl. rewrite length_app, length_map, length_drop, length_take. lia.
  - simpl. by rewrite take_app_length'.
  - simpl. intros k c' Hk Hc'. fold l in Hc'.
    rewrite lookup_app_r in Hc' by (rewrite Hlt; lia). rewrite Hlt in Hc'.
    assert ((fun c => normalized (residual (leftCols m l) c)) <$>
              drop l (colvecs m) !! (k - l)%nat = Some c') as Hc''
      by (rewrite <- Hc'; symmetry; apply list_lookup_fmap).
    destruct (drop l (colvecs m) !! (k - l)%nat) as [c|] eqn:Hc; [|done].
    injection Hc'' as <-.
    assert (c ∈ drop l (colvecs m)) as Hin by by eapply list_elem_of_lookup_2.
    destruct (partial_column (rows m) (take l (colvecs m)) c
                HP Ho (Hlen c Hin) (Hns c Hin)) as [Hunit Horth].
    split; [exact Hunit|]. split; [exact Horth|].
    exists c. split; [|done]. rewrite lookup_drop in Hc.
    by replace (l + (k - l))%nat with k in Hc by lia.
Qed.

(** For real scalars the two sweeps are the identity on orthonormal
    columns: for every [0 <= L < m],
    [twice_is_enough_orthogonalisation] returns normally and leaves the
    matrix as it was, and so does each of its two sweeps. *)
Theorem twice_is_enough_fixes_orthonormal (m : Matrix R) (L : Index) :
  wf m -> orthonormal (colvecs m) -> (0 <= L < cols m)%Z ->
  GS_orthogonalisation L m = (m, Done tt) /\
  twice_is_enough_orthogonalisation L m = (m, Done tt).
Proof.
  intros Hwf Ho HL.
  pose proof (GS_orthonormal_id m L Hwf Ho HL) as HGS. split; [done|].
  unfold twice_is_enough_orthogonalisation.
  by rewrite (bind_done _ _ _ _ _ HGS).
Qed.

(** C10. Nothing guards the normalisations: on a matrix whose column 0 is
    the zero vector, [treatFirstCol], [GS_orthogonalisation] and
    [MGS_orthogonalisation] with nothing skipped reach the division by a
    zero norm, and so do [GS_orthogonalisation], [MGS_orthogonalisation]
    and [partial_orthogonalisation] with one column skipped on a matrix
    whose column 1 is a multiple of column 0. *)
Theorem zero_norm_reachable :
  (treatFirstCol 0%Z zero_column).2 = Abort ZeroDivisor /\
  (GS_orthogonalisation 0%Z zero_column).2 = Abort ZeroDivisor /\
  (MGS_orthogonalisation 0%Z zero_column).2 = Abort ZeroDivisor /\
  (GS_orthogonalisation 1%Z dependent_columns).2 = Abort ZeroDivisor /\
  (MGS_orthogonalisation 1%Z dependent_columns).2 = Abort ZeroDivisor /\
  (partial_orthogonalisation 1%Z dependent_columns).2 = Abort ZeroDivisor.
Proof.
  assert (treatFirstCol 0%Z zero_column = (zero_column, Abort ZeroDivisor))
    as Hfirst by (by apply (treatFirstCol_zero_column zero_column 2)).
  assert (wf dependent_columns) as Hwf by (by repeat constructor).
  assert (orthonormal (take 1 (colvecs dependent_columns))) as Ho
    by (simpl; orthonormal_by_cases).
  assert (in_span 2 (take 1 (colvecs dependent_columns)) [2; 0]) as Hdep.
  { replace [2; 0] with (vscale 2 [1; 0])
      by (unfold vscale; simpl; f_equal; [lra|f_equal; lra]).
    apply span_scale, span_gen; [by constructor|done]. }
  split; [by rewrite Hfirst|]. split; [|split; [|split; [|split]]].
  - unfold GS_orthogonalisation.
    rewrite (bind_done _ _ zero_column zero_column tt)
      by (by apply assert_leftColsToSkip_accepts).
    by rewrite (bind_abort _ _ _ _ _ Hfirst).
  - unfold MGS_orthogonalisation.
    rewrite (bind_done _ _ zero_column zero_column tt)
      by (by apply assert_leftColsToSkip_accepts).
    by rewrite (bind_abort _ _ _ _ _ Hfirst).
  - unfold GS_orthogonalisation.
    rewrite (bind_done _ _ dependent_columns dependent_columns tt)
      by (by apply assert_leftColsToSkip_accepts).
    unfold treatFirstCol. change (1 =? 0)%Z with false.
    unfold bind at 1, ret at 1. cbv beta iota.
    unfold bind at 1, get at 1. cbv beta iota.
    unfold for_range. change (Z.to_nat 1) with 1%nat. simpl for_count.
    unfold bind at 1.
    pose proof (GS_step_dependent dependent_columns 1 [2; 0] Hwf Ho eq_refl Hdep)
      as Hstep.
    destruct (GS_step 1 dependent_columns) as [m' o]. simpl in Hstep.
    by rewrite Hstep.
  - unfold MGS_orthogonalisation.
    rewrite (bind_done _ _ dependent_columns dependent_columns tt)
      by (by apply assert_leftColsToSkip_accepts).
    unfold treatFirstCol. change (1 =? 0)%Z with false.
    unfold bind at 1, ret at 1. cbv beta iota.
    unfold bind at 1, get at 1. cbv beta iota.
    unfold for_range. change (Z.to_nat 1) with 1%nat. simpl for_count.
    unfold bind at 1, bind at 1, bind at 1.
    rewrite (MGS_step_run dependent_columns 1 0 [1; 0] [2; 0] eq_refl eq_refl).
    unfold ret at 1. simpl.
    erewrite normalize_col_abort; [done|reflexivity|].
    apply normalize_Abort, norm_zero_iff.
    unfold dot, vsub, vscale, vzero. simpl. f_equal; [lra|]. f_equal. lra.
  - apply (partial_dependent dependent_columns 1 [2; 0]); try done.
    simpl. by apply list_elem_of_singleton.
Qed.

(** C5 fails on the code.  On two independent complex columns the
    classical process returns normally, but the projection is taken with
    the plain transpose: the two columns it leaves are not orthogonal for
    the Hermitian inner product. *)
Theorem GS_complex_not_orthonormal :
  GS_orthogonalisation 0%Z complex_columns
    = (complex_columns_after_GS, Done tt) /\
  dot [(3/5, 0); (0, 4/5)] [(144/185, -12/185); (41/185, -108/185)]
    = (0, -8/37) /\
  ~ orthonormal (colvecs complex_columns_after_GS).
Proof.
  set (c0 := [(3/5, 0); (0, 4/5)] : Vector C).
  set (r := [(144/25, -12/25); (41/25, -108/25)] : Vector C).
  set (q := [(144/185, -12/185); (41/185, -108/185)] : Vector C).
  assert (norm c0 = 1) as Hn0.
  { unfold norm, squaredNorm, c0. simpl.
    replace (_ + _) with 1 by lra. apply sqrt_1. }
  assert (normalize c0 = Done c0) as H0.
  { unfold normalize. destruct (Req_dec_T _ _) as [E|_]; [lra|].
    unfold normalized. rewrite Hn0. unfold c0. simpl.
    repeat (f_equal; try lra). }
  assert (norm r = 37/5) as Hnr.
  { unfold norm, squaredNorm, r. simpl.
    replace (_ + _) with (37/5 * (37/5)) by lra. apply sqrt_square. lra. }
  assert (normalize r = Done q) as Hr.
  { unfold normalize. destruct (Req_dec_T _ _) as [E|_]; [lra|].
    unfold normalized. rewrite Hnr. unfold r, q. simpl.
    repeat (f_equal; try lra). }
  assert (dot c0 q = (0, -8/37)) as Hdot.
  { unfold dot, c0, q. simpl. f_equal; lra. }
  split; [|split; [exact Hdot|]].
  - unfold GS_orthogonalisation.
    rewrite (bind_done _ _ complex_columns complex_columns tt)
      by (by apply assert_leftColsToSkip_accepts).
    assert (treatFirstCol 0%Z complex_columns = (complex_columns, Done 1%Z))
      as Hfirst.
    { unfold treatFirstCol. simpl.
      by rewrite (bind_done _ _ _ _ _
                    (normalize_col_run complex_columns 0 c0 c0 eq_refl H0)). }
    rewrite (bind_done _ _ _ _ _ Hfirst). unfold get at 1, bind at 1.
    unfold for_range. change (Z.to_nat 1) with 1%nat. simpl for_count.
    assert (residual (leftCols complex_columns 1) [(9, 0); (1, 0)] = r) as Hres.
    { unfold residual, mat_vec, trans_vec, tdot, vsub, vadd, vscale, r. simpl.
      repeat (f_equal; try lra). }
    rewrite (bind_done _ _ _ _ _
               (GS_step_run complex_columns 1 [(9, 0); (1, 0)] q eq_refl
                  (eq_trans (f_equal normalize Hres) Hr))).
    reflexivity.
  - intros Ho. specialize (Ho 0%nat 1%nat c0 q eq_refl eq_refl).
    rewrite Hdot in Ho. simpl in Ho. injection Ho as Ho. lra.
Qed.

Lemma bind_Done_inv {K X Y} (c : M (Matrix K) X) (k : X -> M (Matrix K) Y)
    (m m' : Matrix K) y :
  bind c k m = (m', Done y) ->
  exists m1 x, c m = (m1, Done x) /\ k x m1 = (m', Done y).
Proof.
  unfold bind. destruct (c m) as [m1 [x|e]]; [|done]. intros Hk. by exists m1, x.
Qed.

Lemma normalize_Done_inv {K} `{Scalar K} (v q : Vector K) :
  normalize v = Done q -> norm v <> 0 /\ q = normalized v.
Proof.
  unfold normalize. destruct (Req_dec_T _ _) as [E|E]; [done|].
  intros Hq. injection Hq as <-. done.
Qed.

(** The classical process with one column skipped on a matrix of two
    columns: one pass of the loop body. *)
Lemma GS_1_two_columns {K} `{Scalar K} (m m' : Matrix K) c0 c1 :
  colvecs m = [c0; c1] ->
  GS_orthogonalisation 1%Z m = (m', Done tt) ->
  norm (residual (leftCols m 1) c1) <> 0 /\
  m' = mkMatrix (rows m) [c0; normalized (residual (leftCols m 1) c1)].
Proof.
  intros Hm Hrun. unfold GS_orthogonalisation in Hrun.
  rewrite (bind_done _ _ m m tt) in Hrun
    by (apply assert_leftColsToSkip_accepts; unfold cols; rewrite Hm; simpl; lia).
  unfold treatFirstCol in Hrun. change (1 =? 0)%Z with false in Hrun.
  unfold bind at 1, ret at 1 in Hrun. cbv beta iota in Hrun.
  unfold bind at 1, get at 1 in Hrun. cbv beta iota in Hrun.
  rewrite Hm in Hrun. unfold for_range in Hrun.
  change (Z.to_nat 1) with 1%nat in Hrun. simpl for_count in Hrun.
  apply bind_Done_inv in Hrun as (m1 & [] & Hstep & Hret).
  injection Hret as <-.
  assert (colvecs m !! 1%nat = Some c1) as Hc1 by by rewrite Hm.
  destruct (normalize (residual (leftCols m 1) c1)) as [q|e] eqn:Hq.
  - rewrite (GS_step_run m 1 c1 q Hc1 Hq) in Hstep. injection Hstep as <-.
    apply normalize_Done_inv in Hq as [Hnz ->]. split; [done|].
    by rewrite Hm.
  - pose proof (GS_step_abort m 1 c1 e Hc1 Hq) as Habort.
    rewrite Hstep in Habort. done.
Qed.

(** C8 fails on the code for complex scalars.  The two columns are
    orthonormal for the Hermitian inner product, yet the two sweeps do not
    hand the matrix back: the projection is taken with the plain
    transpose, for which the columns are not orthogonal. *)
Theorem twice_is_enough_moves_complex_orthonormal :
  orthonormal (colvecs complex_orthonormal) /\
  (0 <= 1 < cols complex_orthonormal)%Z /\
  twice_is_enough_orthogonalisation 1%Z complex_orthonormal
    <> (complex_orthonormal, Done tt).
Proof.
  split; [|split; [unfold cols; simpl; lia|]].
  - intros i j ci cj Hi Hj.
    destruct i as [|[|i]]; destruct j as [|[|j]]; simpl in Hi, Hj; try done;
      injection Hi as <-; injection Hj as <-;
      case_decide; try lia; unfold dot; simpl; f_equal; lra.
  - intros Hrun. unfold twice_is_enough_orthogonalisation in Hrun.
    apply bind_Done_inv in Hrun as (m1 & [] & Hfirst & Hsecond).
    apply (GS_1_two_columns complex_orthonormal m1
             [(3/5, 0); (0, 4/5)] [(0, 4/5); (3/5, 0)] eq_refl)
      in Hfirst as [Hn1 ->].
    eapply GS_1_two_columns in Hsecond; [|reflexivity].
    destruct Hsecond as [Hn2 Heq].
    set (r := residual (leftCols complex_orthonormal 1) [(0, 4/5); (3/5, 0)]) in *.
    assert (r = [(0, 28/125); (171/125, 0)]) as Hr.
    { unfold r, residual, mat_vec, trans_vec, tdot, vsub, vadd, vscale. simpl.
      repeat (f_equal; try lra). }
    set (n1 := norm r) in *.
    assert (0 < n1) as Hpos1.
    { pose proof (sqrt_pos (squaredNorm r)). unfold n1, norm in *. lra. }
    set (r' := residual (leftCols _ 1) (normalized r)) in *.
    set (n2 := norm r') in *.
    assert (0 < n2) as Hpos2.
    { pose proof (sqrt_pos (squaredNorm r')). unfold n2, norm in *. lra. }
    assert (exists y, r' = [(0, - (1604/3125) * / n1); y]) as [y Hr'].
    { unfold r', residual, mat_vec, trans_vec, tdot, vsub, vadd, vscale.
      unfold normalized. fold n1. rewrite Hr. simpl.
      eexists. f_equal. unfold Rdiv. f_equal; lra. }
    unfold normalized in Heq. fold n2 in Heq. rewrite Hr' in Heq.
    simpl in Heq. injection Heq as Heq.
    assert (0 < / n1) by (by apply Rinv_0_lt_compat).
    assert (0 < / n2) by (by apply Rinv_0_lt_compat).
    unfold Rdiv in Heq. nra.
Qed.

(** The modified process projects with [dot], which conjugates: on the
    complex columns that defeat the classical process it returns columns
    that are orthonormal for the Hermitian inner product. *)
Lemma MGS_complex_orthonormal :
  exists m', MGS_orthogonalisation 0%Z complex_columns = (m', Done tt) /\
             orthonormal (colvecs m').
Proof.
  set (c0 := [(3/5, 0); (0, 4/5)] : Vector C).
  set (r := [(144/25, 12/25); (9/25, -108/25)] : Vector C).
  assert (norm c0 = 1) as Hn0.
  { unfold norm, squaredNorm, c0. simpl.
    replace (_ + _) with 1 by lra. apply sqrt_1. }
  assert (normalize c0 = Done c0) as H0.
  { unfold normalize. destruct (Req_dec_T _ _) as [E|_]; [lra|].
    unfold normalized. rewrite Hn0. unfold c0. simpl.
    repeat (f_equal; try lra). }
  assert (squaredNorm r = 261/5) as Hsq
    by (unfold squaredNorm, r; simpl; lra).
  assert (norm r * norm r = 261/5) as Hnn
    by (unfold norm; rewrite sqrt_sqrt; lra).
  assert (norm r <> 0) as Hnz by nra.
  assert (/ norm r * norm r = 1) as Hinv by (by apply Rinv_l).
  exists (mkMatrix 2 [c0; normalized r]). split.
  - unfold MGS_orthogonalisation.
    rewrite (bind_done _ _ complex_columns complex_columns tt)
      by (by apply assert_leftColsToSkip_accepts).
    assert (treatFirstCol 0%Z complex_columns = (complex_columns, Done 1%Z))
      as Hfirst.
    { unfold treatFirstCol. simpl.
      by rewrite (bind_done _ _ _ _ _
                    (normalize_col_run complex_columns 0 c0 c0 eq_refl H0)). }
    rewrite (bind_done _ _ _ _ _ Hfirst). unfold get at 1, bind at 1.
    unfold for_range. change (Z.to_nat 1) with 1%nat. simpl for_count.
    unfold bind at 1, bind at 1, bind at 1.
    rewrite (MGS_step_run complex_columns 1 0 c0 [(9, 0); (1, 0)] eq_refl eq_refl).
    unfold ret at 1.
    match goal with |- context [vsub ?a ?b] =>
      replace (vsub a b) with r
        by (unfold dot, vsub, vscale, c0, r; simpl; repeat (f_equal; try lra))
    end.
    erewrite normalize_col_run; [reflexivity|reflexivity|].
    unfold normalize. by destruct (Req_dec_T _ _).
  - unfold normalized. set (n := norm r) in *. clearbody n.
    set (t := / n) in *.
    intros i j ci cj Hi Hj.
    destruct i as [|[|i]]; destruct j as [|[|j]]; simpl in Hi, Hj; try done;
      injection Hi as <-; injection Hj as <-;
      case_decide; try lia; unfold dot, c0, r; simpl; unfold Rdiv; fold t;
      clearbody t; f_equal; nra.
Qed.

(** The new columns are left as skew to each other as the projection
    makes them: here their inner product is 3/5. *)
Lemma partial_orthogonalisation_block_skew :
  partial_orthogonalisation 1%Z unit_then_two
    = (mkMatrix 3 [[1; 0; 0]; [0; 3/5; 4/5]; [0; 1; 0]], Done tt) /\
  dot [0; 3/5; 4/5] [0; 1; 0] = 3/5.
Proof.
  assert (residual (leftCols unit_then_two (Z.to_nat 1)) [1; 3; 4] = [0; 3; 4])
    as Hr1.
  { unfold residual, mat_vec, trans_vec, tdot, vsub, vadd, vscale. simpl.
    repeat (f_equal; try lra). }
  assert (residual (leftCols unit_then_two (Z.to_nat 1)) [2; 1; 0] = [0; 1; 0])
    as Hr2.
  { unfold residual, mat_vec, trans_vec, tdot, vsub, vadd, vscale. simpl.
    repeat (f_equal; try lra). }
  assert (norm [0; 3; 4] = 5) as Hn1.
  { unfold norm, squaredNorm. simpl.
    replace (_ + _) with (5 * 5) by lra. apply sqrt_square. lra. }
  assert (norm [0; 1; 0] = 1) as Hn2.
  { unfold norm, squaredNorm. simpl.
    replace (_ + _) with 1 by lra. apply sqrt_1. }
  split; [|unfold dot; simpl; lra].
  rewrite partial_run.
  - simpl. rewrite Hr1, Hr2. unfold normalized. rewrite Hn1, Hn2. simpl.
    repeat (f_equal; try lra).
  - unfold cols. simpl. lia.
  - intros c Hc. simpl in Hc.
    apply elem_of_cons in Hc as [->|Hc];
      [|apply list_elem_of_singleton in Hc as ->].
    + rewrite Hr1, Hn1. lra.
    + rewrite Hr2, Hn2. lra.
Qed.

End Claims.

Section ClaimsAnyScalar.

Context {K : Type} `{Scalar K}.

(** C4. With [1 <= L < m], none of the five routines that take
    [leftColsToSkip] writes to the first [L] columns: whatever the outcome
    of the call, they hold what they held before it. *)
Theorem skipped_columns_untouched (hq : Matrix K -> Matrix K) (m : Matrix K) (L : Index) :
  (1 <= L < cols m)%Z ->
  take (Z.to_nat L) (colvecs (GS_orthogonalisation L m).1)
    = take (Z.to_nat L) (colvecs m) /\
  take (Z.to_nat L) (colvecs (MGS_orthogonalisation L m).1)
    = take (Z.to_nat L) (colvecs m) /\
  take (Z.to_nat L) (colvecs (twice_is_enough_orthogonalisation L m).1)
    = take (Z.to_nat L) (colvecs m) /\
  take (Z.to_nat L) (colvecs (partial_orthogonalisation L m).1)
    = take (Z.to_nat L) (colvecs m) /\
  take (Z.to_nat L) (colvecs (JensWehner_orthogonalisation hq L m).1)
    = take (Z.to_nat L) (colvecs m).
Proof.
  intros HL. unfold cols in HL.
  assert (frame (Z.to_nat L) (length (colvecs m))
            (take (Z.to_nat L) (colvecs m)) m) as Hm by done.
  assert (0 <= L < Z.of_nat (length (colvecs m)))%Z as HL' by lia.
  split; [|split; [|split; [|split]]].
  - by destruct (framed_GS _ L _ HL' m Hm) as [[_ ?] _].
  - by destruct (framed_MGS _ L _ HL' m Hm) as [[_ ?] _].
  - by destruct (framed_twice_is_enough _ L _ HL' m Hm) as [[_ ?] _].
  - by destruct (framed_partial _ L _ HL' m Hm) as [[_ ?] _].
  - by destruct (framed_JensWehner _ L _ HL' hq m Hm) as [[_ ?] _].
Qed.

(** C6. Each routine that takes [leftColsToSkip] aborts on its
    precondition, before writing anything, when called with the number of
    columns or with -1; with [0 <= leftColsToSkip < m] the guard passes and
    no routine ends in a precondition violation.  [QR_orthogonalisation]
    has no such guard and never aborts. *)
Theorem precondition_guard (hq : Matrix K -> Matrix K) (m : Matrix K) (L : Index) :
  (L = cols m \/ L = (-1)%Z ->
     GS_orthogonalisation L m = (m, Abort PreconditionViolation) /\
     MGS_orthogonalisation L m = (m, Abort PreconditionViolation) /\
     twice_is_enough_orthogonalisation L m = (m, Abort PreconditionViolation) /\
     partial_orthogonalisation L m = (m, Abort PreconditionViolation) /\
     JensWehner_orthogonalisation hq L m = (m, Abort PreconditionViolation)) /\
  ((0 <= L < cols m)%Z ->
     assert_leftColsToSkip L m = (m, Done tt) /\
     (GS_orthogonalisation L m).2 <> Abort PreconditionViolation /\
     (MGS_orthogonalisation L m).2 <> Abort PreconditionViolation /\
     (twice_is_enough_orthogonalisation L m).2 <> Abort PreconditionViolation /\
     (partial_orthogonalisation L m).2 <> Abort PreconditionViolation /\
     (JensWehner_orthogonalisation hq L m).2 <> Abort PreconditionViolation) /\
  (QR_orthogonalisation hq m).2 = Done tt.
Proof.
  split; [|split; [|done]].
  - intros HL.
    assert (assert_leftColsToSkip L m = (m, Abort PreconditionViolation)) as Hrej
      by (apply assert_leftColsToSkip_rejects; unfold cols in *; lia).
    assert (GS_orthogonalisation L m = (m, Abort PreconditionViolation)) as HGS
      by (unfold GS_orthogonalisation; by rewrite (bind_abort _ _ _ _ _ Hrej)).
    split; [done|]. split; [|split; [|split]].
    + unfold MGS_orthogonalisation. by rewrite (bind_abort _ _ _ _ _ Hrej).
    + unfold twice_is_enough_orthogonalisation.
      by rewrite (bind_abort _ _ _ _ _ HGS).
    + unfold partial_orthogonalisation. by rewrite (bind_abort _ _ _ _ _ Hrej).
    + unfold JensWehner_orthogonalisation.
      by rewrite (bind_abort _ _ _ _ _ Hrej).
  - intros HL. split; [by apply assert_leftColsToSkip_accepts|].
    unfold cols in HL.
    assert (frame (Z.to_nat L) (length (colvecs m))
              (take (Z.to_nat L) (colvecs m)) m) as Hm by done.
    split; [|split; [|split; [|split]]].
    + by destruct (framed_GS _ L _ HL m Hm) as [_ ?].
    + by destruct (framed_MGS _ L _ HL m Hm) as [_ ?].
    + by destruct (framed_twice_is_enough _ L _ HL m Hm) as [_ ?].
    + by destruct (framed_partial _ L _ HL m Hm) as [_ ?].
    + by destruct (framed_JensWehner _ L _ HL hq m Hm) as [_ ?].
Qed.

(** C7. Under the precondition [0 <= leftColsToSkip < m] at
    [leftColsToSkip = 0], that is on every matrix with at least one
    column, of any scalar type, [partial_orthogonalisation] returns at
    once and leaves the whole matrix as it was: no projection, and no
    normalisation of any column, whatever the columns hold. *)
Theorem partial_orthogonalisation_zero_noop (m : Matrix K) :
  (0 < cols m)%Z -> partial_orthogonalisation 0%Z m = (m, Done tt).
Proof.
  intros Hpos. unfold partial_orthogonalisation.
  by rewrite (bind_done _ _ m m tt) by (apply assert_leftColsToSkip_accepts; lia).
Qed.

End ClaimsAnyScalar.

Section ClaimsTypeTraits.

Variable value : scalar_type -> Type.
Variable std_numeric_limits_epsilon : forall t, value t.
Variable std_numeric_limits_min : forall t, value t.
Variable eigen_numeric_limits_epsilon : forall t, value t.
Variable mul : forall t, value t -> value t -> value t.

(** C9. [TypeTraits::min()] is [std::numeric_limits::min()] for [float],
    [double] and [long double], and [epsilon() * epsilon() * epsilon()]
    for every other scalar type; [TypeTraits::epsilon()] is the epsilon of
    the scalar type's numeric limits in every case. *)
Theorem TypeTraits_values :
  let epsilon :=
    TypeTraits_epsilon value std_numeric_limits_epsilon
      eigen_numeric_limits_epsilon in
  let min :=
    TypeTraits_min value std_numeric_limits_epsilon std_numeric_limits_min
      eigen_numeric_limits_epsilon mul in
  min Float = std_numeric_limits_min Float /\
  min Double = std_numeric_limits_min Double /\
  min LongDouble = std_numeric_limits_min LongDouble /\
  (forall u, min (OtherScalar u) =
     mul _ (mul _ (epsilon (OtherScalar u)) (epsilon (OtherScalar u)))
       (epsilon (OtherScalar u))) /\
  epsilon Float = std_numeric_limits_epsilon Float /\
  epsilon Double = std_numeric_limits_epsilon Double /\
  epsilon LongDouble = std_numeric_limits_epsilon LongDouble /\
  (forall u, epsilon (OtherScalar u) = eigen_numeric_limits_epsilon (OtherScalar u)).
Proof. repeat split. Qed.

End ClaimsTypeTraits.

(** ** The theorems at sample inputs *)

Section SampleInputs.

Local Open Scope R_scope.

Lemma skew_columns_indep : lin_indep 2 (colvecs skew_columns).
Proof.
  intros [|a [|b [|? ?]]] Hlen Hz; try done.
  unfold mat_vec, vadd, vscale, vzero in Hz. simpl in Hz.
  injection Hz as H1 H2. constructor; [|constructor; [|constructor]]; simpl; lra.
Qed.

Lemma unit_then_skew_indep : lin_indep 2 (colvecs unit_then_skew).
Proof.
  intros [|a [|b [|? ?]]] Hlen Hz; try done.
  unfold mat_vec, vadd, vscale, vzero in Hz. simpl in Hz.
  injection Hz as H1 H2. constructor; [|constructor; [|constructor]]; simpl; lra.
Qed.

Lemma unit_then_skew_prefix : orthonormal (take 1 (colvecs unit_then_skew)).
Proof. simpl. orthonormal_by_cases. Qed.

Lemma unit_then_skew_outside c :
  c ∈ drop 1 (colvecs unit_then_skew) ->
  ~ in_span 2 (take 1 (colvecs unit_then_skew)) c.
Proof.
  simpl. intros Hc Hin. apply list_elem_of_singleton in Hc as ->.
  assert (dot [0; 1] [3; 4] = 0) as E.
  { apply (dot_in_span 2 [[1; 0]]); [done|].
    intros c Hc. apply list_elem_of_singleton in Hc as ->.
    unfold dot. simpl. lra. }
  unfold dot in E. simpl in E. lra.
Qed.

Lemma rotation_orthonormal : orthonormal (colvecs rotation).
Proof. simpl. orthonormal_by_cases. Qed.

Lemma unit_then_skew_partial :
  partial_orthogonalisation 1%Z unit_then_skew
    = (mkMatrix 2 [[1; 0]; [0; 1]], Done tt).
Proof.
  rewrite partial_run.
  - simpl. f_equal. f_equal. f_equal. f_equal.
    assert (residual (leftCols unit_then_skew (Z.to_nat 1)) [3; 4] = [0; 4]) as ->.
    { unfold residual, mat_vec, trans_vec, tdot, vsub, vadd, vscale. simpl.
      repeat (f_equal; try lra). }
    assert (norm [0; 4] = 4) as Hn.
    { unfold norm, squaredNorm. simpl.
      replace (_ + _) with (4 * 4) by lra. apply sqrt_square. lra. }
    unfold normalized. rewrite Hn. simpl. repeat (f_equal; try lra).
  - done.
  - intros c Hc. apply residual_nonzero.
    + by repeat constructor.
    + simpl in Hc. by apply list_elem_of_singleton in Hc as ->.
    + by apply unit_then_skew_outside.
Qed.

Lemma swap_factor_contract :
  is_householderQ
    (rightCols (partial_orthogonalisation 1%Z unit_then_skew).1
       (length (colvecs unit_then_skew) - Z.to_nat 1))
    (swap_factor
       (rightCols (partial_orthogonalisation 1%Z unit_then_skew).1
          (length (colvecs unit_then_skew) - Z.to_nat 1))).
Proof.
  rewrite unit_then_skew_partial. unfold swap_factor, rightCols. simpl.
  split; [done|]. split; [done|]. split; [by repeat constructor|].
  split; [orthonormal_by_cases|].
  exists (mkMatrix 2 [[1; 0]]). split; [done|]. split; [done|].
  split; [by repeat constructor|]. split.
  - intros j c i x Hj Hi Hji. destruct j as [|j]; [|done].
    injection Hj as <-. destruct i as [|[|i]]; [lia| |done].
    by injection Hi as <-.
  - unfold mat_mul, mat_vec, vadd, vscale. simpl. repeat (f_equal; try lra).
Qed.

Lemma Gram_Schmidt_orthonormal_witness :
  wf skew_columns /\ lin_indep (rows skew_columns) (colvecs skew_columns) /\
  let orthonormalised (r : Matrix R * outcome unit) :=
    rows r.1 = rows skew_columns /\
    length (colvecs r.1) = length (colvecs skew_columns) /\
    wf r.1 /\
    orthonormal (colvecs r.1) /\
    (forall q, q ∈ colvecs r.1 ->
       in_span (rows skew_columns) (colvecs skew_columns) q) /\
    ((0 < cols skew_columns)%Z -> r.2 = Done tt) in
  orthonormalised (GS_orthogonalisation 0%Z skew_columns) /\
  orthonormalised (MGS_orthogonalisation 0%Z skew_columns).
Proof.
  assert (wf skew_columns) as Hwf by (by repeat constructor).
  split; [exact Hwf|]. split; [exact skew_columns_indep|].
  exact (Gram_Schmidt_orthonormal skew_columns Hwf skew_columns_indep).
Defined.

Lemma JensWehner_extends_basis_witness :
  wf unit_then_skew /\
  lin_indep (rows unit_then_skew) (colvecs unit_then_skew) /\
  (0 <= 1 < cols unit_then_skew)%Z /\
  orthonormal (take (Z.to_nat 1) (colvecs unit_then_skew)) /\
  exists m',
    JensWehner_orthogonalisation swap_factor 1%Z unit_then_skew = (m', Done tt) /\
    take (Z.to_nat 1) (colvecs m') = take (Z.to_nat 1) (colvecs unit_then_skew) /\
    length (colvecs m') = length (colvecs unit_then_skew) /\
    orthonormal (drop (Z.to_nat 1) (colvecs m')) /\
    orthogonal_to (take (Z.to_nat 1) (colvecs m'))
      (drop (Z.to_nat 1) (colvecs m')).
Proof.
  assert (wf unit_then_skew) as Hwf by (by repeat constructor).
  assert (0 <= 1 < cols unit_then_skew)%Z as HL by (unfold cols; simpl; lia).
  split; [exact Hwf|]. split; [exact unit_then_skew_indep|].
  split; [exact HL|]. split; [exact unit_then_skew_prefix|].
  exact (JensWehner_extends_basis swap_factor unit_then_skew 1%Z Hwf
           unit_then_skew_indep HL unit_then_skew_prefix swap_factor_contract).
Defined.

Lemma partial_orthogonalisation_columns_witness :
  wf unit_then_skew /\ (1 <= 1 < cols unit_then_skew)%Z /\
  orthonormal (take (Z.to_nat 1) (colvecs unit_then_skew)) /\
  exists m',
    partial_orthogonalisation 1%Z unit_then_skew = (m', Done tt) /\
    length (colvecs m') = length (colvecs unit_then_skew) /\
    take (Z.to_nat 1) (colvecs m') = take (Z.to_nat 1) (colvecs unit_then_skew) /\
    forall k c', (Z.to_nat 1 <= k)%nat -> colvecs m' !! k = Some c' ->
      norm c' = 1 /\
      (forall p, p ∈ take (Z.to_nat 1) (colvecs unit_then_skew) -> dot p c' = 0) /\
      exists c, colvecs unit_then_skew !! k = Some c /\
        c' = normalized (residual (leftCols unit_then_skew (Z.to_nat 1)) c).
Proof.
  assert (wf unit_then_skew) as Hwf by (by repeat constructor).
  assert (1 <= 1 < cols unit_then_skew)%Z as HL by (unfold cols; simpl; lia).
  split; [exact Hwf|]. split; [exact HL|]. split; [exact unit_then_skew_prefix|].
  exact (partial_orthogonalisation_columns unit_then_skew 1%Z Hwf HL
           unit_then_skew_prefix unit_then_skew_outside).
Defined.

Lemma twice_is_enough_fixes_orthonormal_witness :
  wf rotation /\ orthonormal (colvecs rotation) /\ (0 <= 0 < cols rotation)%Z /\
  GS_orthogonalisation 0%Z rotation = (rotation, Done tt) /\
  twice_is_enough_orthogonalisation 0%Z rotation = (rotation, Done tt).
Proof.
  assert (wf rotation) as Hwf by (by repeat constructor).
  assert (0 <= 0 < cols rotation)%Z as HL by (unfold cols; simpl; lia).
  split; [exact Hwf|]. split; [exact rotation_orthonormal|]. split; [exact HL|].
  exact (twice_is_enough_fixes_orthonormal rotation 0%Z Hwf
           rotation_orthonormal HL).
Defined.

Lemma skipped_columns_untouched_witness :
  (1 <= 1 < cols unit_then_skew)%Z /\
  take 1 (colvecs (GS_orthogonalisation 1%Z unit_then_skew).1) = [[1; 0]] /\
  take 1 (colvecs (MGS_orthogonalisation 1%Z unit_then_skew).1) = [[1; 0]] /\
  take 1 (colvecs (twice_is_enough_orthogonalisation 1%Z unit_then_skew).1)
    = [[1; 0]] /\
  take 1 (colvecs (partial_orthogonalisation 1%Z unit_then_skew).1) = [[1; 0]] /\
  take 1 (colvecs (JensWehner_orthogonalisation swap_factor 1%Z unit_then_skew).1)
    = [[1; 0]].
Proof.
  assert (1 <= 1 < cols unit_then_skew)%Z as HL by (unfold cols; simpl; lia).
  split; [exact HL|].
  exact (skipped_columns_untouched swap_factor unit_then_skew 1%Z HL).
Defined.

Lemma precondition_guard_witness :
  (GS_orthogonalisation 2%Z unit_then_skew
     = (unit_then_skew, Abort PreconditionViolation) /\
   MGS_orthogonalisation 2%Z unit_then_skew
     = (unit_then_skew, Abort PreconditionViolation) /\
   twice_is_enough_orthogonalisation 2%Z unit_then_skew
     = (unit_then_skew, Abort PreconditionViolation) /\
   partial_orthogonalisation 2%Z unit_then_skew
     = (unit_then_skew, Abort PreconditionViolation) /\
   JensWehner_orthogonalisation swap_factor 2%Z unit_then_skew
     = (unit_then_skew, Abort PreconditionViolation)) /\
  (assert_leftColsToSkip 1%Z unit_then_skew = (unit_then_skew, Done tt) /\
   (GS_orthogonalisation 1%Z unit_then_skew).2 <> Abort PreconditionViolation /\
   (MGS_orthogonalisation 1%Z unit_then_skew).2 <> Abort PreconditionViolation /\
   (twice_is_enough_orthogonalisation 1%Z unit_then_skew).2
     <> Abort PreconditionViolation /\
   (partial_orthogonalisation 1%Z unit_then_skew).2
     <> Abort PreconditionViolation /\
   (JensWehner_orthogonalisation swap_factor 1%Z unit_then_skew).2
     <> Abort PreconditionViolation).
Proof.
  split.
  - apply (proj1 (precondition_guard swap_factor unit_then_skew 2%Z)).
    left. reflexivity.
  - apply (proj1 (proj2 (precondition_guard swap_factor unit_then_skew 1%Z))).
    unfold cols. simpl. lia.
Defined.

(** A column that is zero stays as it is: nothing is normalised. *)
Lemma partial_orthogonalisation_zero_noop_witness :
  (0 < cols zero_column)%Z /\
  partial_orthogonalisation 0%Z zero_column = (zero_column, Done tt).
Proof.
  assert (0 < cols zero_column)%Z as Hpos by (unfold cols; simpl; lia).
  split; [exact Hpos|].
  exact (partial_orthogonalisation_zero_noop zero_column Hpos).
Defined.

End SampleInputs.

(** * Further properties of the routines *)

(** ** Shape of the buffer, for every scalar type *)

Section Shape.

Context {K : Type} `{Scalar K}.

Implicit Types (m b : Matrix K) (c : Vector K).

Lemma keeps_shape_ret {X} (x : X) : keeps_shape (K:=K) (ret x).
Proof. by intros m. Qed.

Lemma keeps_shape_fail {X} e : keeps_shape (K:=K) (@fail _ X e).
Proof. by intros m. Qed.

Lemma keeps_shape_lift {X} (o : outcome X) : keeps_shape (K:=K) (lift o).
Proof. by intros m. Qed.

Lemma keeps_shape_bind {X Y} (c : M (Matrix K) X) (k : X -> M (Matrix K) Y) :
  keeps_shape c -> (forall x, keeps_shape (k x)) -> keeps_shape (bind c k).
Proof.
  intros Hc Hk m. unfold bind. specialize (Hc m).
  destruct (c m) as [m' [x|e]]; simpl in *; [|done].
  destruct (Hk x m') as [-> ->]. done.
Qed.

Lemma keeps_shape_get_bind {X} (k : Matrix K -> M (Matrix K) X) :
  (forall m0, keeps_shape (k m0)) -> keeps_shape (bind get k).
Proof. intros Hk m. exact (Hk m m). Qed.

Lemma keeps_shape_for_count body n lo :
  (forall k, keeps_shape (K:=K) (body k)) -> keeps_shape (for_count n lo body).
Proof.
  intros Hbody. revert lo. induction n as [|n IH]; intros lo; simpl.
  - apply keeps_shape_ret.
  - apply keeps_shape_bind; [apply Hbody|]. intros _. apply IH.
Qed.

Lemma keeps_shape_get_col j : keeps_shape (K:=K) (get_col j).
Proof.
  apply keeps_shape_get_bind. intros m0.
  destruct (colvecs m0 !! j); [apply keeps_shape_ret|apply keeps_shape_fail].
Qed.

Lemma keeps_shape_set_col j c : keeps_shape (set_col j c).
Proof.
  intros m. unfold set_col. munfold.
  destruct (_ <? _)%nat; simpl; [|done]. by rewrite length_insert.
Qed.

Lemma keeps_shape_normalize_col j : keeps_shape (K:=K) (normalize_col j).
Proof.
  apply keeps_shape_bind; [apply keeps_shape_get_col|]. intros c.
  apply keeps_shape_bind; [apply keeps_shape_lift|]. intros c'.
  apply keeps_shape_set_col.
Qed.

Lemma keeps_shape_set_rightCols r b : keeps_shape (set_rightCols r b).
Proof.
  intros m. unfold set_rightCols. munfold.
  destruct (_ && _) eqn:Hb; simpl; [|done].
  apply andb_true_iff in Hb as [Hb1 Hb2].
  apply Nat.leb_le in Hb1. apply Nat.eqb_eq in Hb2.
  split; [done|]. rewrite length_app, length_take. lia.
Qed.

(** Whatever runs on the view, the caller's matrix keeps its shape. *)
Lemma keeps_shape_on_rightCols {X} r (c : M (Matrix K) X) :
  keeps_shape (on_rightCols r c).
Proof.
  intros m. unfold on_rightCols. destruct (c (rightCols m r)) as [b o].
  pose proof (keeps_shape_set_rightCols r b m) as Hs.
  by destruct (set_rightCols r b m) as [m' [[]|e]].
Qed.

Lemma keeps_shape_assert_leftColsToSkip L :
  keeps_shape (K:=K) (assert_leftColsToSkip L).
Proof.
  apply keeps_shape_get_bind. intros m0.
  apply keeps_shape_bind; [|intros _]; unfold c_assert;
    (destruct (_ : bool); [apply keeps_shape_ret|apply keeps_shape_fail]).
Qed.

Lemma keeps_shape_treatFirstCol L : keeps_shape (K:=K) (treatFirstCol L).
Proof.
  unfold treatFirstCol. destruct (L =? 0)%Z; [|apply keeps_shape_ret].
  apply keeps_shape_bind; [apply keeps_shape_normalize_col|].
  intros _. apply keeps_shape_ret.
Qed.

Lemma keeps_shape_GS L : keeps_shape (K:=K) (GS_orthogonalisation L).
Proof.
  apply keeps_shape_bind; [apply keeps_shape_assert_leftColsToSkip|]. intros _.
  apply keeps_shape_bind; [apply keeps_shape_treatFirstCol|]. intros L'.
  apply keeps_shape_get_bind. intros m0. apply keeps_shape_for_count. intros j.
  apply keeps_shape_get_bind. intros m1.
  apply keeps_shape_bind; [apply keeps_shape_get_col|]. intros cj.
  apply keeps_shape_bind; [apply keeps_shape_set_col|]. intros _.
  apply keeps_shape_normalize_col.
Qed.

Lemma keeps_shape_MGS L : keeps_shape (K:=K) (MGS_orthogonalisation L).
Proof.
  apply keeps_shape_bind; [apply keeps_shape_assert_leftColsToSkip|]. intros _.
  apply keeps_shape_bind; [apply keeps_shape_treatFirstCol|]. intros L'.
  apply keeps_shape_get_bind. intros m0. apply keeps_shape_for_count. intros k.
  apply keeps_shape_bind; [|intros _; apply keeps_shape_normalize_col].
  apply keeps_shape_for_count. intros j.
  apply keeps_shape_bind; [apply keeps_shape_get_col|]. intros cj.
  apply keeps_shape_bind; [apply keeps_shape_get_col|]. intros ck.
  apply keeps_shape_set_col.
Qed.

Lemma keeps_shape_partial L : keeps_shape (K:=K) (partial_orthogonalisation L).
Proof.
  apply keeps_shape_bind; [apply keeps_shape_assert_leftColsToSkip|]. intros _.
  destruct (L =? 0)%Z; [apply keeps_shape_ret|].
  apply keeps_shape_get_bind. intros m0.
  apply keeps_shape_bind; [apply keeps_shape_set_rightCols|]. intros _.
  apply keeps_shape_get_bind. intros m1.
  apply keeps_shape_bind; [apply keeps_shape_lift|]. intros cs.
  apply keeps_shape_set_rightCols.
Qed.

Lemma keeps_shape_JensWehner hq L :
  keeps_shape (K:=K) (JensWehner_orthogonalisation hq L).
Proof.
  apply keeps_shape_bind; [apply keeps_shape_assert_leftColsToSkip|]. intros _.
  apply keeps_shape_get_bind. intros m0.
  apply keeps_shape_bind; [apply keeps_shape_partial|]. intros _.
  apply keeps_shape_bind; [apply keeps_shape_on_rightCols|]. intros _.
  apply keeps_shape_get_bind. intros m1. apply keeps_shape_set_rightCols.
Qed.

(** X1. For every scalar type, every matrix and every [leftColsToSkip],
    in range or not, each of the five routines that take [leftColsToSkip]
    leaves the buffer with the numbers of rows and of columns it had at
    the call, whether the call returns or aborts. *)
Theorem routines_keep_shape (hq : Matrix K -> Matrix K) (m : Matrix K) (L : Index) :
  let same_shape (m' : Matrix K) :=
    rows m' = rows m /\ length (colvecs m') = length (colvecs m) in
  same_shape (GS_orthogonalisation L m).1 /\
  same_shape (MGS_orthogonalisation L m).1 /\
  same_shape (twice_is_enough_orthogonalisation L m).1 /\
  same_shape (partial_orthogonalisation L m).1 /\
  same_shape (JensWehner_orthogonalisation hq L m).1.
Proof.
  simpl. split; [apply keeps_shape_GS|]. split; [apply keeps_shape_MGS|].
  split; [|split; [apply keeps_shape_partial|apply keeps_shape_JensWehner]].
  apply keeps_shape_bind; [|intros _]; apply keeps_shape_GS.
Qed.

End Shape.

(** ** The guard and the view, for every scalar type *)

Section Guard.

Context {K : Type} `{Scalar K}.

Implicit Types (m b : Matrix K) (c : Vector K).

(** A computation that stops at the guard outside the range and passes
    it inside ends in a precondition violation exactly outside the range,
    and then has written nothing. *)
Lemma guard_decides (c : M (Matrix K) unit) m L :
  ((L < 0 \/ cols m <= L)%Z -> c m = (m, Abort PreconditionViolation)) ->
  ((0 <= L < cols m)%Z -> (c m).2 <> Abort PreconditionViolation) ->
  ((c m).2 = Abort PreconditionViolation <-> (L < 0 \/ cols m <= L)%Z) /\
  ((c m).2 = Abort PreconditionViolation -> (c m).1 = m).
Proof.
  intros Hout Hin.
  assert ((c m).2 = Abort PreconditionViolation -> (L < 0 \/ cols m <= L)%Z)
    as Hback.
  { intros E. destruct (decide (0 <= L < cols m)%Z) as [HL|HL]; [|lia].
    by destruct (Hin HL). }
  split; [split; [exact Hback|]|].
  - intros HL. by rewrite (Hout HL).
  - intros E. by rewrite (Hout (Hback E)).
Qed.

Lemma guard_stops {X} (k : unit -> M (Matrix K) X) m L :
  (L < 0 \/ cols m <= L)%Z ->
  bind (assert_leftColsToSkip L) k m = (m, Abort PreconditionViolation).
Proof. intros HL. by apply bind_abort, assert_leftColsToSkip_rejects. Qed.

(** X2. For every scalar type, every matrix and every [leftColsToSkip],
    each of the five routines that take [leftColsToSkip] ends in a
    precondition violation exactly when [leftColsToSkip] is negative or
    at least the number of columns, and in that case the buffer is as it
    was at the call. *)
Theorem guard_exact (hq : Matrix K -> Matrix K) (m : Matrix K) (L : Index) :
  let exact (c : M (Matrix K) unit) :=
    ((c m).2 = Abort PreconditionViolation <-> (L < 0 \/ cols m <= L)%Z) /\
    ((c m).2 = Abort PreconditionViolation -> (c m).1 = m) in
  exact (GS_orthogonalisation L) /\
  exact (MGS_orthogonalisation L) /\
  exact (twice_is_enough_orthogonalisation L) /\
  exact (partial_orthogonalisation L) /\
  exact (JensWehner_orthogonalisation hq L).
Proof.
  simpl.
  assert (frame (Z.to_nat L) (length (colvecs m))
            (take (Z.to_nat L) (colvecs m)) m) as Hm by done.
  split; [|split; [|split; [|split]]]; apply guard_decides.
  - apply guard_stops.
  - intros HL. by destruct (framed_GS _ L _ HL m Hm) as [_ ?].
  - apply guard_stops.
  - intros HL. by destruct (framed_MGS _ L _ HL m Hm) as [_ ?].
  - intros HL. unfold twice_is_enough_orthogonalisation.
    apply bind_abort. by apply guard_stops.
  - intros HL. by destruct (framed_twice_is_enough _ L _ HL m Hm) as [_ ?].
  - apply guard_stops.
  - intros HL. by destruct (framed_partial _ L _ HL m Hm) as [_ ?].
  - apply guard_stops.
  - intros HL. by destruct (framed_JensWehner _ L _ HL hq m Hm) as [_ ?].
Qed.

(** The factorisation step always returns, with as many columns as the
    smaller of the two dimensions of its input. *)
Lemma QR_run hq m :
  QR_orthogonalisation hq m =
    (mat_mul (hq m)
       (Identity (rows m) (Nat.min (rows m) (length (colvecs m)))), Done tt).
Proof. done. Qed.

Lemma length_mat_mul_Identity (q : Matrix K) N r :
  length (colvecs (mat_mul q (Identity N r))) = r.
Proof. unfold mat_mul, Identity. simpl. by rewrite !length_map, length_seq. Qed.

(** When the columns handed to the factorisation step of the composite
    routine are more than the rows, the step yields fewer columns than the
    view holds and the view cannot take them. *)
Lemma JW_wide_block (hq : Matrix K -> Matrix K) (m m1 : Matrix K)
    (L : Index) :
  (0 <= L < cols m)%Z ->
  partial_orthogonalisation L m = (m1, Done tt) ->
  (rows m < length (colvecs m) - Z.to_nat L)%nat ->
  JensWehner_orthogonalisation hq L m = (m1, Abort IndexOutOfRange).
Proof.
  intros HL Hpart Hwide.
  destruct (keeps_shape_partial L m) as [Hrows Hlen]. rewrite Hpart in Hrows, Hlen.
  simpl in Hrows, Hlen. unfold cols in HL.
  set (l := Z.to_nat L) in *. set (len := length (colvecs m)) in *.
  unfold JensWehner_orthogonalisation.
  rewrite (bind_done _ _ m m tt)
    by (apply assert_leftColsToSkip_accepts; unfold cols; lia).
  unfold get at 1, bind at 1. unfold cols. fold len.
  replace (Z.to_nat (Z.of_nat len - L)) with (len - l)%nat by lia.
  rewrite (bind_done _ _ _ _ _ Hpart). apply bind_abort.
  unfold on_rightCols. rewrite QR_run.
  unfold set_rightCols. munfold. rewrite length_mat_mul_Identity.
  change (rows (rightCols m1 (len - l))) with (rows m1).
  assert (length (colvecs (rightCols m1 (len - l))) = (len - l)%nat) as ->
    by (unfold rightCols; simpl; rewrite length_drop; lia).
  rewrite Nat.min_l by lia.
  destruct (Nat.eqb_spec (rows m1) (len - l)) as [E|_]; [lia|].
  by rewrite andb_false_r.
Qed.

(** With [leftColsToSkip] in range and no zero norm among the residuals
    it normalises, the projection returns. *)
Lemma partial_returns (m : Matrix K) (L : Index) :
  (0 <= L < cols m)%Z ->
  (L <> 0%Z -> forall c, c ∈ drop (Z.to_nat L) (colvecs m) ->
     norm (residual (leftCols m (Z.to_nat L)) c) <> 0%R) ->
  exists m1, partial_orthogonalisation L m = (m1, Done tt).
Proof.
  intros HL Hnz. destruct (decide (L = 0%Z)) as [->|Hne].
  - exists m. unfold partial_orthogonalisation.
    by rewrite (bind_done _ _ m m tt)
      by (apply assert_leftColsToSkip_accepts; lia).
  - eexists. apply partial_run; [lia|by apply Hnz].
Qed.

End Guard.

(** ** The two sweeps over real columns, whatever their rank *)

Section RealSweeps.

Local Open Scope R_scope.

Local Abbreviation lc n cs a := (mat_vec (mkMatrix n cs) a).
Local Abbreviation cwf n cs := (Forall (fun c : Vector R => length c = n) cs).

Implicit Types (u v w c q : Vector R) (n : nat) (m : Matrix R).
Implicit Types (cs P B : list (Vector R)).

Lemma vsub_vsub u v w : vsub (vsub u v) w = vsub u (vadd v w).
Proof.
  revert v w. induction u as [|a u IH]; intros [|b v] [|d w]; try done.
  simpl. f_equal; [lra|apply IH].
Qed.

Lemma residual_nil n c : length c = n -> residual (mkMatrix n []) c = c.
Proof.
  intros Hc. unfold residual, trans_vec. simpl. rewrite lc_nil_l.
  by apply vsub_zero_r.
Qed.

(** Projecting against one more column takes one more component away. *)
Lemma residual_snoc n P q c :
  cwf n P -> length q = n ->
  residual (mkMatrix n (P ++ [q])) c
  = vsub (residual (mkMatrix n P) c) (vscale (dot q c) q).
Proof.
  intros HP Hq. unfold residual, trans_vec. simpl. rewrite map_app. simpl.
  rewrite lc_app; [|by rewrite length_map|by constructor].
  rewrite lc_cons, lc_nil_l, tdot_dot.
  rewrite (vadd_zero_r n) by (by rewrite length_vscale).
  by rewrite vsub_vsub.
Qed.

Lemma dot_residual_outside n P c q :
  cwf n P -> length c = n -> (forall p, p ∈ P -> dot q p = 0) ->
  dot q (residual (mkMatrix n P) c) = dot q c.
Proof.
  intros HP Hc Hq. unfold residual.
  rewrite dot_vsub_r by (by rewrite length_lc).
  rewrite dot_lc_orth by done. lra.
Qed.

Lemma take_S_insert {A} (l : list A) k x :
  (k < length l)%nat -> take (S k) (<[k := x]> l) = take k l ++ [x].
Proof.
  intros Hk. erewrite take_S_r; [|apply list_lookup_insert_eq; lia].
  by rewrite take_insert_ge.
Qed.

(** With orthonormal columns before column [k], the inner loop of the
    modified process leaves in column [k] what the classical process
    computes with one product. *)
Lemma MGS_inner_run m k c :
  wf m -> orthonormal (take k (colvecs m)) -> colvecs m !! k = Some c ->
  for_range 0 k (MGS_step k) m =
    (mkMatrix (rows m) (<[k := residual (leftCols m k) c]> (colvecs m)), Done tt).
Proof.
  intros Hwf Ho Hc. pose proof (lookup_lt_Some _ _ _ Hc) as Hk.
  assert (length c = rows m) as Hlc by exact (Forall_lookup_1 _ _ _ _ Hwf Hc).
  set (I := fun (j : nat) (m' : Matrix R) =>
    m' = mkMatrix (rows m) (<[k := residual (leftCols m j) c]> (colvecs m))).
  set (Q := fun (m' : Matrix R) (o : outcome unit) => I k m' /\ o = Done tt).
  assert (I 0%nat m) as H0.
  { unfold I, leftCols. rewrite take_0, residual_nil by done.
    by rewrite list_insert_id, matrix_eta. }
  pose proof (hoare_for_range I Q (MGS_step k) 0 k (Nat.le_0_l k)) as Hloop.
  destruct (Hloop) with (m := m) as [Hm Hd]; try done.
  - intros j Hj m' ->.
    destruct (lookup_lt_is_Some_2 (colvecs m) j) as [q Hq]; [lia|].
    assert (length q = rows m) as Hlq by exact (Forall_lookup_1 _ _ _ _ Hwf Hq).
    erewrite MGS_step_run; simpl.
    2: { rewrite list_lookup_insert_ne by lia. exact Hq. }
    2: { apply list_lookup_insert_eq. lia. }
    unfold I. rewrite list_insert_insert_eq. do 2 f_equal.
    unfold leftCols. rewrite (take_S_r _ _ q) by done.
    rewrite residual_snoc; [|by apply Forall_take|done].
    rewrite dot_residual_outside; [done|by apply Forall_take|done|].
    intros p Hp. apply list_elem_of_lookup in Hp as [i Hi].
    apply lookup_take_Some in Hi as [Hi Hij].
    assert (take k (colvecs m) !! j = Some q) as Hqt
      by (apply lookup_take_Some; split; [done|lia]).
    assert (take k (colvecs m) !! i = Some p) as Hpt
      by (apply lookup_take_Some; split; [done|lia]).
    rewrite (Ho j i q p Hqt Hpt). by rewrite decide_False by lia.
  - destruct (for_range 0 k (MGS_step k) m) as [m' o]. simpl in *.
    by rewrite Hm, Hd.
Qed.

Lemma GS_step_unfold m k c :
  colvecs m !! k = Some c ->
  GS_step k m =
    normalize_col k
      (mkMatrix (rows m) (<[k := residual (leftCols m k) c]> (colvecs m))).
Proof.
  intros Hk. pose proof (lookup_lt_Some _ _ _ Hk) as Hlt.
  unfold GS_step. unfold get at 1. unfold bind at 1.
  rewrite (bind_done _ _ _ _ _ (get_col_run _ _ _ Hk)).
  by rewrite (bind_done _ _ _ _ _ (set_col_run _ _ _ Hlt)).
Qed.

(** On such a buffer the bodies of the two outer loops are one function. *)
Lemma MGS_body_GS_step m k :
  sweep_inv k m -> (k < length (colvecs m))%nat ->
  bind (for_range 0 k (MGS_step k)) (fun _ => normalize_col k) m = GS_step k m.
Proof.
  intros (Hwf & _ & Ho) Hk. destruct (lookup_lt_is_Some_2 _ _ Hk) as [c Hc].
  rewrite (bind_done _ _ _ _ _ (MGS_inner_run m k c Hwf Ho Hc)).
  by rewrite (GS_step_unfold m k c Hc).
Qed.

(** One step of the sweep: the column joins the orthonormal ones, or its
    residual is zero and the division stops the call. *)
Lemma GS_step_sweep m k :
  sweep_inv k m -> (k < length (colvecs m))%nat ->
  (exists m', GS_step k m = (m', Done tt) /\ sweep_inv (S k) m' /\
              length (colvecs m') = length (colvecs m)) \/
  (GS_step k m).2 = Abort ZeroDivisor.
Proof.
  intros (Hwf & _ & Ho) Hk. destruct (lookup_lt_is_Some_2 _ _ Hk) as [c Hc].
  assert (length c = rows m) as Hlc by exact (Forall_lookup_1 _ _ _ _ Hwf Hc).
  assert (cwf (rows m) (take k (colvecs m))) as HP by by apply Forall_take.
  set (r := residual (leftCols m k) c).
  assert (length r = rows m) as Hlr by by apply length_residual.
  destruct (Req_dec_T (norm r) 0) as [Hz|Hnz].
  - right. apply (GS_step_abort m k c ZeroDivisor Hc). by apply normalize_Abort.
  - left. eexists. split; [exact (GS_step_run m k c _ Hc (normalize_Done _ Hnz))|].
    split; [|by simpl; rewrite length_insert].
    split; [|split; [simpl; rewrite length_insert; lia|]]; simpl.
    + apply Forall_insert; [done|]. simpl. by rewrite length_vscale.
    + rewrite take_S_insert by done. apply orthonormal_snoc; [done| |].
      * intros p Hp. apply list_elem_of_lookup in Hp as [i Hi].
        rewrite dot_vscale_r. unfold r, leftCols.
        rewrite (dot_residual (rows m) _ c i p) by done. lra.
      * by apply dot_normalized.
Qed.

Lemma bind_agree {St X Y} (c c' : M St X) (k k' : X -> M St Y) (s : St) :
  c s = c' s -> (forall x s', c' s = (s', Done x) -> k x s' = k' x s') ->
  bind c k s = bind c' k' s.
Proof.
  intros E Hk. unfold bind. rewrite E.
  destruct (c' s) as [s' [x|e]]; [by apply Hk|done].
Qed.

Lemma sweep_loops_agree d k m :
  sweep_inv k m -> (k + d)%nat = length (colvecs m) ->
  for_count d k
    (fun k => bind (for_range 0 k (MGS_step k)) (fun _ => normalize_col k)) m
  = for_count d k GS_step m.
Proof.
  revert k m. induction d as [|d IH]; intros k m Hinv Hlen; [done|].
  simpl. apply bind_agree; [apply MGS_body_GS_step; [done|lia]|].
  intros [] m' Hrun.
  destruct (GS_step_sweep m k Hinv) as [(m'' & Hrun' & Hinv' & Hl)|Habort]; [lia| |].
  - rewrite Hrun in Hrun'. injection Hrun' as <-. apply IH; [done|lia].
  - by rewrite Hrun in Habort.
Qed.

Lemma GS_loop_sweep d k m :
  sweep_inv k m -> (k + d)%nat = length (colvecs m) ->
  (exists m', for_count d k GS_step m = (m', Done tt) /\
              sweep_inv (length (colvecs m)) m' /\
              length (colvecs m') = length (colvecs m)) \/
  (for_count d k GS_step m).2 = Abort ZeroDivisor.
Proof.
  revert k m. induction d as [|d IH]; intros k m Hinv Hlen.
  - left. exists m. split; [done|]. split; [|done].
    by replace (length (colvecs m)) with k by lia.
  - simpl.
    destruct (GS_step_sweep m k Hinv) as [(m' & Hrun & Hinv' & Hl)|Habort]; [lia| |].
    + rewrite (bind_done _ _ _ _ _ Hrun).
      destruct (IH (S k) m' Hinv') as [(m'' & Hrun' & Hinv'' & Hl')|Habort]; [lia| |].
      * left. exists m''. rewrite <- Hl. split; [done|]. split; [done|lia].
      * by right.
    + right. unfold bind.
      destruct (GS_step k m) as [m' [[]|e]]; simpl in *;
        [discriminate|by injection Habort as ->].
Qed.

Lemma normalize_col_0_GS_step m :
  wf m -> normalize_col 0 m = GS_step 0 m.
Proof.
  intros Hwf. destruct (colvecs m !! 0%nat) as [c|] eqn:Hc.
  - rewrite (GS_step_unfold m 0 c Hc). unfold leftCols. rewrite take_0.
    rewrite residual_nil by exact (Forall_lookup_1 _ _ _ _ Hwf Hc).
    by rewrite list_insert_id, matrix_eta.
  - unfold normalize_col, GS_step, get_col. munfold. by rewrite Hc.
Qed.

Lemma sweep_inv_0 m : wf m -> sweep_inv 0 m.
Proof.
  intros Hwf. split; [done|]. split; [lia|].
  intros i j ci cj Hi. by rewrite take_0 in Hi.
Qed.

(** The bootstrap opens the sweep, or stops on a zero first column. *)
Lemma treatFirstCol_sweep m L :
  wf m -> (0 <= L < cols m)%Z ->
  orthonormal (take (Z.to_nat L) (colvecs m)) ->
  (exists m' L', treatFirstCol L m = (m', Done L') /\
     (Z.to_nat L' <= length (colvecs m))%nat /\
     sweep_inv (Z.to_nat L') m' /\
     length (colvecs m') = length (colvecs m)) \/
  (treatFirstCol L m).2 = Abort ZeroDivisor.
Proof.
  intros Hwf HL Ho. unfold cols in HL. unfold treatFirstCol.
  destruct (Z.eqb_spec L 0) as [->|Hne].
  - unfold bind. rewrite normalize_col_0_GS_step by done.
    destruct (GS_step_sweep m 0 (sweep_inv_0 m Hwf))
      as [(m' & Hrun & Hinv' & Hl)|Habort]; [lia| |].
    + left. exists m', 1%Z. rewrite Hrun. split; [done|].
      change (Z.to_nat 1) with 1%nat. split; [lia|done].
    + right. destruct (GS_step 0 m) as [m' [[]|e]]; simpl in *;
        [discriminate|by injection Habort as ->].
  - left. exists m, L. split; [done|]. split; [lia|]. split; [|done].
    split; [done|]. split; [lia|done].
Qed.

(** The classical process on a buffer whose skipped columns are
    orthonormal: all columns end up orthonormal, or a division by zero
    stops the call. *)
Lemma GS_run_cases m L :
  wf m -> (0 <= L < cols m)%Z ->
  orthonormal (take (Z.to_nat L) (colvecs m)) ->
  (exists m', GS_orthogonalisation L m = (m', Done tt) /\ wf m' /\
              orthonormal (colvecs m') /\
              length (colvecs m') = length (colvecs m)) \/
  (GS_orthogonalisation L m).2 = Abort ZeroDivisor.
Proof.
  intros Hwf HL Ho. unfold GS_orthogonalisation.
  rewrite (bind_done _ _ m m tt) by by apply assert_leftColsToSkip_accepts.
  destruct (treatFirstCol_sweep m L Hwf HL Ho)
    as [(m1 & L' & Hrun & HL' & Hinv & Hl)|Habort].
  - rewrite (bind_done _ _ _ _ _ Hrun). unfold get at 1, bind at 1.
    unfold for_range.
    destruct (GS_loop_sweep (length (colvecs m1) - Z.to_nat L') (Z.to_nat L') m1)
      as [(m' & Hloop & (Hwf' & _ & Ho') & Hl')|Habort]; [done|lia| |].
    + left. exists m'. rewrite Hloop. split; [done|]. split; [done|].
      split; [|lia]. rewrite <- Hl', firstn_all in Ho'. done.
    + by right.
  - right. unfold bind.
    destruct (treatFirstCol L m) as [m' [x|e]]; simpl in *;
        [discriminate|by injection Habort as ->].
Qed.

(** In exact real arithmetic the modified process is the classical one. *)
Lemma sweeps_agree m L :
  wf m -> orthonormal (take (Z.to_nat L) (colvecs m)) ->
  MGS_orthogonalisation L m = GS_orthogonalisation L m.
Proof.
  intros Hwf Ho. unfold MGS_orthogonalisation, GS_orthogonalisation.
  apply bind_agree; [done|]. intros [] m0 Hguard.
  assert (m0 = m /\ (0 <= L < cols m)%Z) as [-> HL].
  { destruct (decide (0 <= L < cols m)%Z) as [HL|HL].
    - rewrite assert_leftColsToSkip_accepts in Hguard by done.
      by injection Hguard as <-.
    - rewrite assert_leftColsToSkip_rejects in Hguard by lia. done. }
  apply bind_agree; [done|]. intros L' m1 Hrun. unfold get. unfold bind at 1 3.
  unfold for_range.
  destruct (treatFirstCol_sweep m L Hwf HL Ho)
    as [(m1' & L'' & Hrun' & HL' & Hinv & Hl)|Habort].
  - rewrite Hrun in Hrun'. injection Hrun' as <- <-.
    apply sweep_loops_agree; [done|lia].
  - by rewrite Hrun in Habort.
Qed.

End RealSweeps.

Section RealSweepTheorems.

Local Open Scope R_scope.

(** X4. In exact real arithmetic [MGS_orthogonalisation] and
    [GS_orthogonalisation] are the same function on every matrix whose
    skipped columns are orthonormal, whatever the rank of the others and
    whatever [leftColsToSkip]: the same outcome (a return, a division by
    zero or a failed guard) and the same final buffer.  With nothing
    skipped this is every matrix. *)
Theorem MGS_is_GS (m : Matrix R) (L : Index) :
  wf m -> orthonormal (take (Z.to_nat L) (colvecs m)) ->
  MGS_orthogonalisation L m = GS_orthogonalisation L m.
Proof. apply sweeps_agree. Qed.

(** X5. On a real matrix whose skipped columns are orthonormal
    ([0 <= L < m]), a sweep of [GS_orthogonalisation] or of
    [MGS_orthogonalisation] goes one of two ways: every normalisation
    gets a vector of non-zero norm, and the routine returns with all the
    columns of the buffer orthonormal; or some normalisation is handed a
    vector of norm exactly zero. *)
Theorem Gram_Schmidt_outcomes (m : Matrix R) (L : Index) :
  wf m -> (0 <= L < cols m)%Z ->
  orthonormal (take (Z.to_nat L) (colvecs m)) ->
  let outcomes (c : M (Matrix R) unit) :=
    ((c m).2 = Done tt /\ orthonormal (colvecs (c m).1)) \/
    meets_zero_norm c m in
  outcomes (GS_orthogonalisation L) /\ outcomes (MGS_orthogonalisation L).
Proof.
  intros Hwf HL Ho. unfold meets_zero_norm. cbv zeta.
  rewrite (sweeps_agree m L Hwf Ho).
  assert ((GS_orthogonalisation L m).2 = Done tt /\
          orthonormal (colvecs (GS_orthogonalisation L m).1) \/
          (GS_orthogonalisation L m).2 = Abort ZeroDivisor) as Hout; [|done].
  destruct (GS_run_cases m L Hwf HL Ho) as [(m' & -> & _ & Ho' & _)|Hzero].
  - by left.
  - by right.
Qed.

(** X6. On a real matrix with more columns than rows and orthonormal
    skipped columns ([0 <= L < m]), the sweep of [GS_orthogonalisation]
    and the sweep of [MGS_orthogonalisation] both come to a column whose
    residual has norm exactly zero, and hand it to the normalisation:
    such a matrix has no orthonormalisation. *)
Theorem Gram_Schmidt_wide_matrix (m : Matrix R) (L : Index) :
  wf m -> (0 <= L < cols m)%Z ->
  orthonormal (take (Z.to_nat L) (colvecs m)) ->
  (rows m < length (colvecs m))%nat ->
  meets_zero_norm (GS_orthogonalisation L) m /\
  meets_zero_norm (MGS_orthogonalisation L) m.
Proof.
  intros Hwf HL Ho Hwide. unfold meets_zero_norm.
  rewrite (sweeps_agree m L Hwf Ho).
  assert ((GS_orthogonalisation L m).2 = Abort ZeroDivisor) as Hout; [|done].
  destruct (GS_run_cases m L Hwf HL Ho) as [(m' & Hrun & Hwf' & Ho' & Hl)|Hzero];
    [|done].
  pose proof (keeps_shape_GS L m) as [Hrows _]. rewrite Hrun in Hrows.
  simpl in Hrows. pose proof (orthonormal_le_rows _ _ Hwf' Ho'). lia.
Qed.

(** X7. In exact real arithmetic the second sweep of
    [twice_is_enough_orthogonalisation] changes nothing: on every matrix
    whose skipped columns are orthonormal the routine has the outcome and
    the final buffer of a single [GS_orthogonalisation]. *)
Theorem twice_is_enough_is_GS (m : Matrix R) (L : Index) :
  wf m -> orthonormal (take (Z.to_nat L) (colvecs m)) ->
  twice_is_enough_orthogonalisation L m = GS_orthogonalisation L m.
Proof.
  intros Hwf Ho. unfold twice_is_enough_orthogonalisation.
  destruct (decide (0 <= L < cols m)%Z) as [HL|HL].
  - destruct (GS_run_cases m L Hwf HL Ho) as [(m' & Hrun & Hwf' & Ho' & Hl)|Habort].
    + rewrite (bind_done _ _ _ _ _ Hrun), Hrun.
      apply GS_orthonormal_id; [done..|]. unfold cols in *. lia.
    + unfold bind. destruct (GS_orthogonalisation L m) as [m' [[]|e]]; [|done].
      discriminate.
  - assert (GS_orthogonalisation L m = (m, Abort PreconditionViolation)) as Hrej.
    { unfold GS_orthogonalisation.
      apply bind_abort, assert_leftColsToSkip_rejects. lia. }
    rewrite Hrej. by apply bind_abort.
Qed.

End RealSweepTheorems.

(** ** The sweep column by column: nested spans and rank *)

Section RealNestedSpans.

Local Open Scope R_scope.

Local Abbreviation lc n cs a := (mat_vec (mkMatrix n cs) a).
Local Abbreviation cwf n cs := (Forall (fun c : Vector R => length c = n) cs).

Implicit Types (u v w c q : Vector R) (n : nat) (m : Matrix R).
Implicit Types (cs P B Q : list (Vector R)).

(** With [0 <= leftColsToSkip < m] the classical process is its loop
    started at [leftColsToSkip]: the bootstrap is the pass for column 0. *)
Lemma GS_as_loop m L :
  wf m -> (0 <= L < cols m)%Z ->
  GS_orthogonalisation L m =
    for_range (Z.to_nat L) (length (colvecs m)) GS_step m.
Proof.
  intros Hwf HL. unfold GS_orthogonalisation.
  rewrite (bind_done _ _ m m tt) by by apply assert_leftColsToSkip_accepts.
  unfold cols in HL. unfold treatFirstCol.
  destruct (Z.eqb_spec L 0) as [->|Hne]; [|done].
  change (Z.to_nat 0) with 0%nat. unfold for_range.
  destruct (length (colvecs m)) as [|len] eqn:Hlen; [lia|].
  rewrite Nat.sub_0_r. simpl for_count.
  unfold bind at 1 2. rewrite (normalize_col_0_GS_step m Hwf).
  unfold bind at 2.
  pose proof (keeps_shape_normalize_col 0 m) as [_ Hl].
  rewrite (normalize_col_0_GS_step m Hwf) in Hl.
  destruct (GS_step 0 m) as [m1 [[]|e]]; [|done].
  simpl in Hl. unfold ret at 1, get at 1, bind at 1.
  rewrite Hl, Hlen. change (Z.to_nat 1) with 1%nat.
  by replace (S len - 1)%nat with len by lia.
Qed.

Lemma nested_inv_init m k :
  wf m -> (k <= length (colvecs m))%nat -> orthonormal (take k (colvecs m)) ->
  nested_inv (rows m) (colvecs m) k m.
Proof.
  intros Hwf Hk Ho. split; [done|]. split; [done|]. split; [done|].
  intros i Hi.
  assert (forall c, colvecs m !! i = Some c ->
            in_span (rows m) (take (S i) (colvecs m)) c) as Hgen.
  { intros c Hc. apply span_gen; [|exact (Forall_lookup_1 _ _ _ _ Hwf Hc)].
    apply (list_elem_of_lookup_2 _ i). apply lookup_take_Some. split; [done|lia]. }
  split; [exact Hgen|]. intros c Hc. split; [by apply Hgen|].
  intros q Hq. replace q with c by congruence.
  rewrite (orthonormal_unit (take k (colvecs m)) i c Ho); [simpl; lra|].
  apply lookup_take_Some. split; [done|lia].
Qed.

(** A successful pass for column [k] advances the invariant. *)
Lemma nested_inv_step n cs0 k m c :
  sweep_inv k m -> nested_inv n cs0 k m -> colvecs m !! k = Some c ->
  norm (residual (leftCols m k) c) <> 0 ->
  nested_inv n cs0 (S k)
    (mkMatrix (rows m)
       (<[k := vscale (/ norm (residual (leftCols m k) c))
                 (residual (leftCols m k) c)]> (colvecs m))).
Proof.
  intros (Hwf & _ & Ho) (Hr & Hlen & Hd & Hnest) Hc Hnz.
  pose proof (lookup_lt_Some _ _ _ Hc) as Hk.
  assert (cs0 !! k = Some c) as Hc0.
  { rewrite <- (Nat.add_0_r k), <- lookup_drop, <- Hd, lookup_drop.
    by rewrite Nat.add_0_r. }
  unfold wf in Hwf. rewrite Hr in Hwf. unfold leftCols in *. rewrite Hr in *.
  set (P := take k (colvecs m)) in *.
  assert (cwf n P) as HP by by apply Forall_take.
  assert (length c = n) as Hlc by exact (Forall_lookup_1 _ _ _ _ Hwf Hc).
  set (r := residual (mkMatrix n P) c) in *.
  set (q := vscale (/ norm r) r).
  assert (length r = n) as Hlr by by apply length_residual.
  assert (forall p, p ∈ P -> dot q p = 0) as Hqp.
  { intros p Hp. apply list_elem_of_lookup in Hp as [i Hi].
    unfold q. rewrite dot_vscale_l, dot_comm. unfold r.
    rewrite (dot_residual n P c i p) by done. lra. }
  assert (c = vadd (vscale (norm r) q) (lc n P (trans_vec (mkMatrix n P) c)))
    as Hrec.
  { unfold q. rewrite <- normalized_vscale. by apply residual_recover. }
  split; [done|]. split; [by simpl; rewrite length_insert|]. split.
  { simpl. rewrite drop_insert_lt by lia.
    replace (S k) with (k + 1)%nat by lia. by rewrite <- !drop_drop, Hd. }
  simpl. intros i Hi. destruct (decide (i = k)) as [->|Hne].
  - rewrite take_S_insert by done. fold P. split.
    + intros q' Hq'. rewrite list_lookup_insert_eq in Hq' by done.
      injection Hq' as <-. apply span_scale, residual_in_span; [done| |].
      * intros p Hp. apply list_elem_of_lookup in Hp as [i Hi'].
        apply lookup_take_Some in Hi' as [Hi' Hik].
        eapply in_span_mono; [apply (take_subseteq _ (S i) (S k)); lia|].
        by apply (Hnest i Hik).
      * apply span_gen; [|done]. apply (list_elem_of_lookup_2 _ k).
        apply lookup_take_Some. split; [done|lia].
    + intros c' Hc'. replace c' with c by congruence. split.
      * rewrite Hrec. apply span_add.
        -- apply span_scale, span_gen; [|by unfold q; rewrite length_vscale].
           apply elem_of_app. right. by apply list_elem_of_singleton.
        -- eapply in_span_mono; [|by apply in_span_lc].
           intros p Hp. apply elem_of_app. by left.
      * intros q' Hq'. rewrite list_lookup_insert_eq in Hq' by done.
        injection Hq' as <-.
        assert (dot q (vadd (vscale (norm r) q)
                         (lc n P (trans_vec (mkMatrix n P) c))) = norm r) as E.
        { rewrite dot_vadd_r
            by (unfold q; by rewrite !length_vscale, length_lc).
          rewrite dot_vscale_r, dot_lc_orth by done.
          unfold q. rewrite dot_normalized by done. lra. }
        rewrite <- Hrec in E. rewrite E.
        pose proof (sqrt_pos (squaredNorm r)) as Hpos. unfold norm in *. lra.
  - assert (i < k)%nat as Hik by lia. destruct (Hnest i Hik) as [Ha Hb].
    rewrite take_insert_ge by lia. split.
    + intros q' Hq'. rewrite list_lookup_insert_ne in Hq' by lia. by apply Ha.
    + intros c' Hc'. destruct (Hb c' Hc') as [Hs Hdot]. split; [done|].
      intros q' Hq'. rewrite list_lookup_insert_ne in Hq' by lia. by apply Hdot.
Qed.

(** The loop of the classical process, without any assumption on the
    rank: it arrives with the invariant, or a division by zero stops it. *)
Lemma GS_loop_nested n cs0 d k m :
  sweep_inv k m -> nested_inv n cs0 k m -> (k + d)%nat = length cs0 ->
  (exists m', for_count d k GS_step m = (m', Done tt) /\
              sweep_inv (length cs0) m' /\ nested_inv n cs0 (length cs0) m') \/
  (for_count d k GS_step m).2 = Abort ZeroDivisor.
Proof.
  revert k m. induction d as [|d IH]; intros k m Hinv Hnest Hlen.
  - left. exists m. split; [done|]. by replace (length cs0) with k by lia.
  - simpl. pose proof Hnest as (_ & Hl & _).
    destruct (lookup_lt_is_Some_2 (colvecs m) k) as [c Hc]; [lia|].
    destruct (Req_dec_T (norm (residual (leftCols m k) c)) 0) as [Hz|Hnz].
    + right. unfold bind.
      pose proof (GS_step_abort m k c ZeroDivisor Hc (normalize_Abort _ Hz)) as Ha.
      destruct (GS_step k m) as [m' [[]|e]]; simpl in *;
        [discriminate|by injection Ha as ->].
    + pose proof (GS_step_run m k c _ Hc (normalize_Done _ Hnz)) as Hrun.
      rewrite (bind_done _ _ _ _ _ Hrun). apply IH; [| |lia].
      * destruct (GS_step_sweep m k Hinv) as [(m' & Hrun' & Hinv' & _)|Ha]; [lia| |].
        -- rewrite Hrun in Hrun'. by injection Hrun' as <-.
        -- by rewrite Hrun in Ha.
      * by apply nested_inv_step.
Qed.

End RealNestedSpans.

Section RealRank.

Local Open Scope R_scope.

Local Abbreviation lc n cs a := (mat_vec (mkMatrix n cs) a).
Local Abbreviation cwf n cs := (Forall (fun c : Vector R => length c = n) cs).

Implicit Types (u v w c q : Vector R) (n : nat) (m : Matrix R).
Implicit Types (cs P B Q : list (Vector R)).

(** Columns that are triangular over an orthonormal family, with no
    vanishing diagonal entry, are linearly independent. *)
Lemma triangular_indep n cs : forall Q,
  length Q = length cs -> cwf n Q -> orthonormal Q ->
  (forall i c, cs !! i = Some c -> in_span n (take (S i) Q) c) ->
  (forall i c q, cs !! i = Some c -> Q !! i = Some q -> dot q c <> 0) ->
  lin_indep n cs.
Proof.
  induction cs as [|c cs IH] using rev_ind; intros Q Hlen HQ Ho Hspan Hdiag.
  { intros [|x a] Ha _; [done|]. simpl in Ha. lia. }
  destruct Q as [|q Q _] using rev_ind;
    [rewrite length_app in Hlen; simpl in Hlen; lia|].
  rewrite !length_app in Hlen. simpl in Hlen.
  assert (length Q = length cs) as Hlen' by lia.
  apply Forall_app in HQ as [HQ Hq]. apply Forall_cons in Hq as [Hq _].
  assert (forall i c', cs !! i = Some c' -> in_span n (take (S i) Q) c') as Hspan'.
  { intros i c' Hi. pose proof (lookup_lt_Some _ _ _ Hi) as Hlt.
    rewrite <- (take_app_le Q [q]) by lia.
    apply Hspan. by apply lookup_app_l_Some. }
  assert (cwf n cs) as Hcs.
  { apply Forall_lookup_2. intros i c' Hi.
    exact (in_span_length _ _ _ (Hspan' i c' Hi)). }
  assert (length c = n) as Hlc.
  { apply (in_span_length n (take (S (length cs)) (Q ++ [q]))).
    apply Hspan. by rewrite lookup_app_r, Nat.sub_diag by lia. }
  assert (forall p, p ∈ Q -> dot q p = 0) as Hqp.
  { intros p Hp. apply list_elem_of_lookup in Hp as [i Hi].
    pose proof (lookup_lt_Some _ _ _ Hi) as Hlt.
    rewrite (Ho (length Q) i q p).
    - by rewrite decide_False by lia.
    - by rewrite lookup_app_r, Nat.sub_diag by lia.
    - by apply lookup_app_l_Some. }
  assert (lin_indep n cs) as Hli.
  { apply (IH Q); [done|done| |done|].
    - rewrite <- (take_app_length Q [q]). by apply orthonormal_take.
    - intros i c' q' Hi Hq'. apply (Hdiag i); by apply lookup_app_l_Some. }
  intros a Ha Hz. rewrite length_app in Ha. simpl in Ha.
  destruct a as [|x a _] using rev_ind; [simpl in Ha; lia|].
  rewrite length_app in Ha. simpl in Ha.
  rewrite lc_app in Hz; [|lia|by constructor].
  rewrite lc_cons, lc_nil_l in Hz.
  rewrite (vadd_zero_r n) in Hz by (by rewrite length_vscale).
  assert (dot q (lc n cs a) = 0) as Hqa.
  { apply dot_lc_orth; [done|]. intros c' Hc'.
    apply list_elem_of_lookup in Hc' as [i Hi].
    apply (dot_in_span n (take (S i) Q)); [by apply Hspan'|].
    intros p Hp. apply Hqp. by eapply (subseteq_take (S i)). }
  assert (x = 0) as ->.
  { assert (dot q (vadd (lc n cs a) (vscale x c)) = 0) as E
      by (rewrite Hz; apply dot_vzero_r).
    rewrite dot_vadd_r, dot_vscale_r, Hqa in E
      by (by rewrite length_vscale, length_lc).
    assert (dot q c <> 0) as Hd.
    { apply (Hdiag (length cs)).
      - by rewrite lookup_app_r, Nat.sub_diag by lia.
      - by rewrite lookup_app_r, Hlen', Nat.sub_diag by lia. }
    destruct (Rmult_integral x (dot q c)) as [?|?]; [lra|done|done]. }
  rewrite vscale_0, Hlc in Hz.
  rewrite (vadd_zero_r n) in Hz by (by apply length_lc).
  apply Forall_app. split; [apply Hli; [lia|done]|by constructor].
Qed.

(** With independent columns and orthonormal skipped columns the loop
    of the classical process runs to its end. *)
Lemma GS_indep_run m L :
  wf m -> lin_indep (rows m) (colvecs m) -> (0 <= L < cols m)%Z ->
  orthonormal (take (Z.to_nat L) (colvecs m)) ->
  (GS_orthogonalisation L m).2 = Done tt.
Proof.
  intros Hwf Hli HL Ho. rewrite GS_as_loop by done. unfold cols in HL.
  assert (GS_inv (rows m) (colvecs m) (Z.to_nat L) m) as Hinv.
  { split; [done|]. split; [done|]. split; [done|]. split; [done|].
    split; [done|]. intros q Hq. apply span_gen; [done|].
    apply list_elem_of_lookup in Hq as [i Hi].
    apply lookup_take_Some in Hi as [Hi _].
    exact (Forall_lookup_1 _ _ _ _ Hwf Hi). }
  apply (GS_loop_spec (rows m) (colvecs m) GS_step (Z.to_nat L)
           (GS_step_spec (rows m) (colvecs m) Hwf Hli) ltac:(lia) m Hinv).
Qed.

(** The classical process on a buffer whose skipped columns are
    orthonormal, column by column. *)
Lemma GS_run_nested m L :
  wf m -> (0 <= L < cols m)%Z ->
  orthonormal (take (Z.to_nat L) (colvecs m)) ->
  (exists m', GS_orthogonalisation L m = (m', Done tt) /\
     sweep_inv (length (colvecs m)) m' /\
     nested_inv (rows m) (colvecs m) (length (colvecs m)) m') \/
  (GS_orthogonalisation L m).2 = Abort ZeroDivisor.
Proof.
  intros Hwf HL Ho. rewrite GS_as_loop by done. unfold cols in HL.
  apply GS_loop_nested; [|apply nested_inv_init; [done|lia|done]|lia].
  split; [done|]. split; [lia|done].
Qed.

(** X8. On a real matrix with linearly independent columns whose first
    [L] columns are orthonormal ([0 <= L < m]), [GS_orthogonalisation] and
    [MGS_orthogonalisation] return the same matrix: its columns are
    orthonormal, its first [L] columns are those of the input, and for
    every [j] its first [j + 1] columns span what the first [j + 1]
    columns of the input span (each column [j] of either matrix is a
    combination of the columns up to [j] of the other), with a positive
    component of column [j] of the input along column [j] of the
    result. *)
Theorem Gram_Schmidt_nested_spans (m : Matrix R) (L : Index) :
  wf m -> lin_indep (rows m) (colvecs m) -> (0 <= L < cols m)%Z ->
  orthonormal (take (Z.to_nat L) (colvecs m)) ->
  exists m',
    GS_orthogonalisation L m = (m', Done tt) /\
    MGS_orthogonalisation L m = (m', Done tt) /\
    orthonormal (colvecs m') /\
    take (Z.to_nat L) (colvecs m') = take (Z.to_nat L) (colvecs m) /\
    forall j,
      (forall q, colvecs m' !! j = Some q ->
         in_span (rows m) (take (S j) (colvecs m)) q) /\
      (forall c, colvecs m !! j = Some c ->
         in_span (rows m) (take (S j) (colvecs m')) c) /\
      (forall q c, colvecs m' !! j = Some q -> colvecs m !! j = Some c ->
         0 < dot q c).
Proof.
  intros Hwf Hli HL Ho.
  pose proof (GS_indep_run m L Hwf Hli HL Ho) as Hdone.
  destruct (GS_run_nested m L Hwf HL Ho)
    as [(m' & Hrun & (Hwf' & _ & Ho') & (Hr & Hl & _ & Hnest))|Habort];
    [|rewrite Hdone in Habort; discriminate].
  exists m'. split; [done|]. split; [by rewrite sweeps_agree|].
  split; [by rewrite <- Hl, firstn_all in Ho'|]. split.
  - unfold cols in HL.
    assert (frame (Z.to_nat L) (length (colvecs m))
              (take (Z.to_nat L) (colvecs m)) m) as Hm by done.
    destruct (framed_GS _ L _ HL m Hm) as [[_ Hpre] _].
    by rewrite Hrun in Hpre.
  - intros j. split; [|split].
    + intros q Hq. apply (Hnest j); [|done].
      apply lookup_lt_Some in Hq. lia.
    + intros c Hc. apply (Hnest j); [|done]. by apply lookup_lt_Some in Hc.
    + intros q c Hq Hc. pose proof (lookup_lt_Some _ _ _ Hc) as Hj.
      destruct (Hnest j Hj) as [_ Hb]. destruct (Hb c Hc) as [_ Hd].
      by apply Hd.
Qed.

(** X9. On a real matrix whose skipped columns are orthonormal
    ([0 <= L < m]), the sweep of [GS_orthogonalisation], and likewise
    the sweep of [MGS_orthogonalisation], hands a vector of norm exactly
    zero to a normalisation exactly when the columns of the matrix are
    linearly dependent. *)
Theorem Gram_Schmidt_zero_norm_iff_dependent (m : Matrix R) (L : Index) :
  wf m -> (0 <= L < cols m)%Z ->
  orthonormal (take (Z.to_nat L) (colvecs m)) ->
  (meets_zero_norm (GS_orthogonalisation L) m <->
     ~ lin_indep (rows m) (colvecs m)) /\
  (meets_zero_norm (MGS_orthogonalisation L) m <->
     ~ lin_indep (rows m) (colvecs m)).
Proof.
  intros Hwf HL Ho. unfold meets_zero_norm.
  rewrite (sweeps_agree m L Hwf Ho).
  assert ((GS_orthogonalisation L m).2 = Abort ZeroDivisor <->
          ~ lin_indep (rows m) (colvecs m)) as Hiff; [|done].
  split.
  - intros Hzero Hli. pose proof (GS_indep_run m L Hwf Hli HL Ho) as Hdone.
    rewrite Hdone in Hzero. discriminate.
  - intros Hdep.
    destruct (GS_run_nested m L Hwf HL Ho)
      as [(m' & Hrun & (Hwf' & _ & Ho') & (Hr & Hl & _ & Hnest))|Hzero];
      [|done].
    exfalso. apply Hdep.
    rewrite <- Hl, firstn_all in Ho'. unfold wf in Hwf'. rewrite Hr in Hwf'.
    apply (triangular_indep (rows m) (colvecs m) (colvecs m')); try done.
    + intros i c Hc. apply (Hnest i); [|done]. by apply lookup_lt_Some in Hc.
    + intros i c q Hc Hq. pose proof (lookup_lt_Some _ _ _ Hc) as Hi.
      destruct (Hnest i Hi) as [_ Hb]. destruct (Hb c Hc) as [_ Hd].
      pose proof (Hd q Hq). lra.
Qed.

End RealRank.

(** ** The projection against the skipped columns, on real matrices *)

Section RealPartial.

Local Open Scope R_scope.

Local Abbreviation cwf n cs := (Forall (fun c : Vector R => length c = n) cs).

Implicit Types (u v w c q : Vector R) (n : nat) (m : Matrix R).
Implicit Types (cs P B Q : list (Vector R)).

Lemma norms_decide (f : Vector R -> Vector R) cs :
  (forall c, c ∈ cs -> norm (f c) <> 0) \/ (exists c, c ∈ cs /\ norm (f c) = 0).
Proof.
  induction cs as [|c cs [IH|(c' & Hc' & Hz)]].
  - left. intros c Hc. by apply elem_of_nil in Hc.
  - destruct (Req_dec_T (norm (f c)) 0) as [Hz|Hnz].
    + right. exists c. split; [by constructor|done].
    + left. intros c' Hc'. apply elem_of_cons in Hc' as [->|Hc']; [done|].
      by apply IH.
  - right. exists c'. split; [by constructor|done].
Qed.

Lemma normalized_unit v : dot v v = 1 -> normalized v = v.
Proof.
  intros E. rewrite normalized_vscale, (norm_of_unit v E), Rinv_1.
  apply vscale_1.
Qed.

Lemma map_fixed {A} (f : A -> A) (l : list A) :
  (forall x, x ∈ l -> f x = x) -> map f l = l.
Proof.
  induction l as [|x l IH]; intros Hf; [done|]. simpl.
  rewrite Hf by constructor. f_equal. apply IH. intros y Hy. apply Hf.
  by constructor.
Qed.

(** New columns that are unit vectors orthogonal to the skipped columns
    are left as they are. *)
Lemma partial_fixed m L :
  wf m -> (0 <= L < cols m)%Z ->
  (forall c, c ∈ drop (Z.to_nat L) (colvecs m) ->
     dot c c = 1 /\
     forall p, p ∈ take (Z.to_nat L) (colvecs m) -> dot p c = 0) ->
  partial_orthogonalisation L m = (m, Done tt).
Proof.
  intros Hwf HL Hnew. destruct (decide (L = 0%Z)) as [->|HL0].
  - unfold partial_orthogonalisation.
    by rewrite (bind_done _ _ m m tt) by by apply assert_leftColsToSkip_accepts.
  - set (l := Z.to_nat L) in *.
    assert (forall c, c ∈ drop l (colvecs m) ->
              residual (leftCols m l) c = c) as Hres.
    { intros c Hc. destruct (Hnew c Hc) as [_ Horth].
      apply residual_orth; [by apply Forall_take| |done].
      apply list_elem_of_lookup in Hc as [j Hj]. rewrite lookup_drop in Hj.
      exact (Forall_lookup_1 _ _ _ _ Hwf Hj). }
    rewrite partial_run; [|lia|].
    + fold l. rewrite map_fixed; [by rewrite take_drop, matrix_eta|].
      intros c Hc. rewrite Hres by done. apply normalized_unit.
      by apply (Hnew c Hc).
    + fold l. intros c Hc. rewrite Hres by done.
      destruct (Hnew c Hc) as [Hunit _]. rewrite (norm_of_unit c Hunit). lra.
Qed.

Lemma residual_zero_span n P c :
  cwf n P -> length c = n -> norm (residual (mkMatrix n P) c) = 0 ->
  in_span n P c.
Proof.
  intros HP Hc E. apply norm_zero_iff in E.
  rewrite length_residual in E by done. unfold residual in E.
  rewrite (vsub_eq_zero c
             (mat_vec (mkMatrix n P) (trans_vec (mkMatrix n P) c))).
  - by apply in_span_lc.
  - by rewrite length_lc.
  - by rewrite length_lc.
Qed.

(** X10. On a real matrix whose first [L] columns are orthonormal
    ([1 <= L < m]), the column-wise normalisation of
    [partial_orthogonalisation] is handed a vector of norm exactly zero
    exactly when one of the other columns lies in the span of the first
    [L]; when none of them does, the routine returns normally. *)
Theorem partial_orthogonalisation_zero_norm_iff (m : Matrix R) (L : Index) :
  wf m -> (1 <= L < cols m)%Z ->
  orthonormal (take (Z.to_nat L) (colvecs m)) ->
  (meets_zero_norm (partial_orthogonalisation L) m <->
     exists c, c ∈ drop (Z.to_nat L) (colvecs m) /\
       in_span (rows m) (take (Z.to_nat L) (colvecs m)) c) /\
  ((forall c, c ∈ drop (Z.to_nat L) (colvecs m) ->
      ~ in_span (rows m) (take (Z.to_nat L) (colvecs m)) c) ->
   (partial_orthogonalisation L m).2 = Done tt).
Proof.
  intros Hwf HL Ho. unfold meets_zero_norm. set (l := Z.to_nat L) in *.
  assert (forall c, c ∈ drop l (colvecs m) -> length c = rows m) as Hlen.
  { intros c Hc. apply list_elem_of_lookup in Hc as [j Hj].
    rewrite lookup_drop in Hj. exact (Forall_lookup_1 _ _ _ _ Hwf Hj). }
  assert (cwf (rows m) (take l (colvecs m))) as HP by by apply Forall_take.
  destruct (norms_decide (residual (leftCols m l)) (drop l (colvecs m)))
    as [Hnz|(c & Hc & Hz)].
  - rewrite (partial_run m L HL Hnz). simpl. split; [|done].
    split; [done|]. intros (c & Hc & Hin). exfalso. apply (Hnz c Hc).
    unfold leftCols. rewrite residual_of_span by done. apply norm_zero_iff.
    by rewrite length_vzero.
  - rewrite (partial_abort m L c HL Hc Hz). split.
    + split; [|done]. intros _. exists c. split; [done|].
      apply residual_zero_span; [done|by apply Hlen|done].
    + intros Hall. exfalso. revert Hz.
      apply residual_nonzero; [done|by apply Hlen|by apply Hall].
Qed.

(** X11. [partial_orthogonalisation] is the identity on every real
    matrix whose columns from [L] on are unit vectors orthogonal to each
    of the first [L] columns ([0 <= L < m]): it returns normally and the
    buffer is as it was. *)
Theorem partial_orthogonalisation_fixed_points (m : Matrix R) (L : Index) :
  wf m -> (0 <= L < cols m)%Z ->
  (forall c, c ∈ drop (Z.to_nat L) (colvecs m) ->
     dot c c = 1 /\
     forall p, p ∈ take (Z.to_nat L) (colvecs m) -> dot p c = 0) ->
  partial_orthogonalisation L m = (m, Done tt).
Proof. apply partial_fixed. Qed.

(** X12. On a real matrix whose first [L] columns are orthonormal
    ([1 <= L < m]), running [partial_orthogonalisation] a second time
    changes nothing: two calls in a row have the outcome and the final
    buffer of one. *)
Theorem partial_orthogonalisation_idempotent (m : Matrix R) (L : Index) :
  wf m -> (1 <= L < cols m)%Z ->
  orthonormal (take (Z.to_nat L) (colvecs m)) ->
  bind (partial_orthogonalisation L) (fun _ => partial_orthogonalisation L) m
  = partial_orthogonalisation L m.
Proof.
  intros Hwf HL Ho. unfold cols in HL. set (l := Z.to_nat L) in *.
  assert (cwf (rows m) (take l (colvecs m))) as HP by by apply Forall_take.
  assert (length (take l (colvecs m)) = l) as Hlt by (rewrite length_take; lia).
  destruct (norms_decide (residual (leftCols m l)) (drop l (colvecs m)))
    as [Hnz|(c & Hc & Hz)].
  - pose proof (partial_run m L HL Hnz) as Hrun. fold l in Hrun.
    rewrite (bind_done _ _ _ _ _ Hrun), Hrun.
    assert (forall b, b ∈ map (fun c => normalized (residual (leftCols m l) c))
                          (drop l (colvecs m)) ->
              length b = rows m /\ dot b b = 1 /\
              forall p, p ∈ take l (colvecs m) -> dot p b = 0) as Hnew.
    { intros b Hb. apply list_elem_of_fmap in Hb as (c & -> & Hc).
      assert (length c = rows m) as Hlc.
      { apply list_elem_of_lookup in Hc as [j Hj]. rewrite lookup_drop in Hj.
        exact (Forall_lookup_1 _ _ _ _ Hwf Hj). }
      pose proof (Hnz c Hc) as Hn. unfold leftCols in *.
      rewrite normalized_vscale. split; [|split].
      - rewrite length_vscale. by apply length_residual.
      - by apply dot_normalized.
      - intros p Hp. apply list_elem_of_lookup in Hp as [i Hi].
        rewrite dot_vscale_r, (dot_residual (rows m) _ c i p) by done. lra. }
    apply partial_fixed.
    + unfold wf. simpl. apply Forall_app. split; [done|].
      apply Forall_forall. intros b Hb. by apply Hnew.
    + unfold cols. simpl. rewrite length_app, length_map, length_drop. lia.
    + simpl. fold l. rewrite take_app_length', drop_app_length' by done.
      intros b Hb. by apply Hnew.
  - pose proof (partial_abort m L c HL Hc Hz) as Ha. unfold bind.
    destruct (partial_orthogonalisation L m) as [m1 [[]|e]]; [|done].
    discriminate.
Qed.

End RealPartial.

(** ** The factorisation step and the composite routine *)

Section RealFactorisation.

Local Open Scope R_scope.

Local Abbreviation lc n cs a := (mat_vec (mkMatrix n cs) a).
Local Abbreviation cwf n cs := (Forall (fun c : Vector R => length c = n) cs).

Implicit Types (u v w c q : Vector R) (n : nat) (m : Matrix R).
Implicit Types (cs P B Q : list (Vector R)).

(** What the factorisation step leaves in the buffer when Eigen's
    factor is square with as many rows as the input. *)
Lemma QR_result hq m :
  rows (hq m) = rows m -> length (colvecs (hq m)) = rows m -> wf (hq m) ->
  QR_orthogonalisation hq m =
    (mkMatrix (rows m)
       (take (Nat.min (rows m) (length (colvecs m))) (colvecs (hq m))),
     Done tt).
Proof.
  intros Hr Hl Hwf. rewrite QR_run. f_equal.
  rewrite <- (matrix_eta (mat_mul _ _)).
  rewrite mat_mul_Identity; [|done|lia|lia]. simpl. by rewrite Hr.
Qed.

(** X13. With Eigen's kernel honouring its contract on a real matrix,
    [QR_orthogonalisation] returns a matrix with the rows of its input
    and as many columns as the smaller of the two dimensions of the
    input, which are orthonormal, whatever the rank of the input: a
    matrix with more columns than rows loses its last columns. *)
Theorem QR_orthogonalisation_result (hq : Matrix R -> Matrix R) (m : Matrix R) :
  is_householderQ m (hq m) ->
  exists m',
    QR_orthogonalisation hq m = (m', Done tt) /\
    rows m' = rows m /\ wf m' /\
    length (colvecs m') = Nat.min (rows m) (length (colvecs m)) /\
    orthonormal (colvecs m').
Proof.
  intros (Hr & Hl & Hwf & Ho & _). eexists.
  split; [by apply QR_result|]. simpl. split; [done|]. split; [|split].
  - unfold wf in *. simpl. rewrite Hr in Hwf. by apply Forall_take.
  - rewrite length_take. lia.
  - by apply orthonormal_take.
Qed.

(** X14. With Eigen's kernel honouring its contract on a real matrix with
    linearly independent columns, [QR_orthogonalisation] keeps the number
    of columns and, for every [j], the span of the first [j + 1] columns:
    each column [j] of the result is a combination of the columns up to
    [j] of the input, and each column [j] of the input is a combination of
    the columns up to [j] of the result. *)
Theorem QR_orthogonalisation_nested_spans (hq : Matrix R -> Matrix R)
    (m : Matrix R) :
  wf m -> lin_indep (rows m) (colvecs m) -> is_householderQ m (hq m) ->
  exists m',
    QR_orthogonalisation hq m = (m', Done tt) /\
    length (colvecs m') = length (colvecs m) /\
    forall j,
      (forall q, colvecs m' !! j = Some q ->
         in_span (rows m) (take (S j) (colvecs m)) q) /\
      (forall c, colvecs m !! j = Some c ->
         in_span (rows m) (take (S j) (colvecs m')) c).
Proof.
  intros Hwf Hli (Hr & Hl & HwfQ & Ho & Rm & HrR & HlR & HwfR & Hup & HQR).
  pose proof (lin_indep_le_rows _ _ Hwf Hli) as Hdim.
  pose proof (QR_result hq m Hr Hl HwfQ) as Hrun.
  set (n := rows m) in *. set (len := length (colvecs m)) in *.
  set (Qs := colvecs (hq m)) in *.
  unfold wf in HwfQ, HwfR. fold Qs in HwfQ. rewrite Hr in HwfQ. rewrite HrR, <- Hl in HwfR.
  assert (colvecs m = map (fun w => lc n Qs w) (colvecs Rm)) as Hcs.
  { rewrite HQR at 1. simpl. apply map_ext. intros w.
    unfold Qs. by rewrite <- Hr, matrix_eta. }
  eexists. split; [exact Hrun|]. simpl.
  rewrite Nat.min_r by done. split; [rewrite length_take; lia|].
  intros j. split.
  - intros q Hq. apply lookup_take_Some in Hq as [Hq Hj].
    rewrite Hcs. apply qr_span; try done.
    + rewrite <- Hcs. intros k c Hc. by apply lin_indep_prefix.
    + lia.
  - intros c Hc. pose proof (lookup_lt_Some _ _ _ Hc) as Hj. fold len in Hj.
    rewrite take_take. replace (S j `min` len)%nat with (S j) by lia.
    rewrite Hcs in Hc.
    assert ((fun w => lc n Qs w) <$> colvecs Rm !! j = Some c) as Hc'
      by (rewrite <- Hc; symmetry; apply list_lookup_fmap).
    destruct (colvecs Rm !! j) as [Rj|] eqn:HRj; [|done].
    injection Hc' as <-.
    assert (length Rj = length Qs) as HlRj
      by exact (Forall_lookup_1 _ _ _ _ HwfR HRj).
    destruct (lookup_lt_is_Some_2 Qs j) as [q Hq]; [lia|].
    destruct (lookup_lt_is_Some_2 Rj j) as [rho Hrho]; [lia|].
    rewrite (upper_column_split n Qs Rj j q rho HwfQ Hq Hrho).
    + apply span_add.
      * eapply in_span_mono; [apply take_S_subseteq|].
        apply in_span_lc. by apply Forall_take.
      * apply span_scale, span_gen; [|exact (Forall_lookup_1 _ _ _ _ HwfQ Hq)].
        apply (list_elem_of_lookup_2 _ j). apply lookup_take_Some.
        split; [done|lia].
    + intros i x Hi Hji. by apply (Hup j Rj i x).
Qed.

(** X15. With nothing skipped, [JensWehner_orthogonalisation] on a real
    matrix with at least one column and no more columns than rows is
    [QR_orthogonalisation]: the same final buffer and a normal return,
    provided Eigen's factor is square with as many rows as the matrix. *)
Theorem JensWehner_0_is_QR (hq : Matrix R -> Matrix R) (m : Matrix R) :
  (0 < length (colvecs m) <= rows m)%nat ->
  rows (hq m) = rows m -> length (colvecs (hq m)) = rows m -> wf (hq m) ->
  JensWehner_orthogonalisation hq 0%Z m = QR_orthogonalisation hq m.
Proof.
  intros Hdim Hr Hl Hwf.
  assert (0 <= 0 < cols m)%Z as HL by (unfold cols; lia).
  assert (partial_orthogonalisation 0%Z m = (m, Done tt)) as Hpart.
  { unfold partial_orthogonalisation.
    by rewrite (bind_done _ _ m m tt) by by apply assert_leftColsToSkip_accepts. }
  assert (rightCols m (length (colvecs m) - Z.to_nat 0) = m) as Hblock.
  { unfold rightCols. change (Z.to_nat 0) with 0%nat.
    rewrite Nat.sub_0_r, Nat.sub_diag. simpl. apply matrix_eta. }
  rewrite (JW_run hq m 0%Z m HL Hpart eq_refl);
    [|by rewrite Hblock|by rewrite Hblock|lia].
  rewrite Hblock, QR_result by done. change (Z.to_nat 0) with 0%nat.
  rewrite take_0, Nat.sub_0_r. simpl. by rewrite Nat.min_r by lia.
Qed.

End RealFactorisation.

Section RealBootstrap.

Local Open Scope R_scope.

Implicit Types (u v w c q : Vector R) (n : nat) (m : Matrix R).

(** X16. [treatFirstCol] on a real matrix whose first [L] columns are
    orthonormal ([0 <= L < m]), and whose first column is not of norm
    zero when [L] is 0, returns the larger of [L] and 1; that many
    leading columns of the buffer are then orthonormal and the columns
    after them are as they were; it writes nothing unless [L] is 0. *)
Theorem treatFirstCol_contract (m : Matrix R) (L : Index) :
  (0 <= L < cols m)%Z -> orthonormal (take (Z.to_nat L) (colvecs m)) ->
  (L = 0%Z -> forall c, colvecs m !! 0%nat = Some c -> norm c <> 0) ->
  exists m',
    treatFirstCol L m = (m', Done (Z.max L 1)) /\
    orthonormal (take (Z.to_nat (Z.max L 1)) (colvecs m')) /\
    drop (Z.to_nat (Z.max L 1)) (colvecs m')
      = drop (Z.to_nat (Z.max L 1)) (colvecs m) /\
    (L <> 0%Z -> m' = m).
Proof.
  intros HL Ho Hfirst. unfold cols in HL. unfold treatFirstCol.
  destruct (Z.eqb_spec L 0) as [->|Hne].
  - destruct (lookup_lt_is_Some_2 (colvecs m) 0) as [c Hc]; [lia|].
    change (Z.max 0 1) with 1%Z. change (Z.to_nat 1) with 1%nat.
    pose proof (Hfirst eq_refl c Hc) as Hnz.
    eexists. split; [|split; [|split; [|intros E; lia]]].
    + erewrite bind_done; [reflexivity|].
      exact (normalize_col_run m 0 c _ Hc (normalize_Done c Hnz)).
    + simpl. rewrite take_S_insert by lia. rewrite take_0.
      apply (orthonormal_snoc []).
      * intros i j ci cj Hi. done.
      * intros p Hp. by apply elem_of_nil in Hp.
      * by apply dot_normalized.
    + simpl. by rewrite drop_insert_lt by lia.
  - exists m. replace (Z.max L 1) with L by lia. done.
Qed.

(** X17. Real matrices with orthonormal columns are fixed points of the
    four routines that sweep or project: for every [0 <= L < m],
    [GS_orthogonalisation], [MGS_orthogonalisation],
    [twice_is_enough_orthogonalisation] and [partial_orthogonalisation]
    return normally and leave the buffer as it was. *)
Theorem orthonormal_fixed_points (m : Matrix R) (L : Index) :
  wf m -> orthonormal (colvecs m) -> (0 <= L < cols m)%Z ->
  GS_orthogonalisation L m = (m, Done tt) /\
  MGS_orthogonalisation L m = (m, Done tt) /\
  twice_is_enough_orthogonalisation L m = (m, Done tt) /\
  partial_orthogonalisation L m = (m, Done tt).
Proof.
  intros Hwf Ho HL.
  pose proof (GS_orthonormal_id m L Hwf Ho HL) as HGS.
  split; [done|]. split; [|split].
  - rewrite sweeps_agree; [done|done|]. by apply orthonormal_take.
  - unfold twice_is_enough_orthogonalisation.
    by rewrite (bind_done _ _ _ _ _ HGS).
  - apply partial_fixed; [done|done|]. intros c Hc.
    apply list_elem_of_lookup in Hc as [j Hj]. rewrite lookup_drop in Hj.
    split; [by eapply orthonormal_unit|].
    intros p Hp. apply list_elem_of_lookup in Hp as [i Hi].
    apply lookup_take_Some in Hi as [Hi Hlt].
    rewrite (Ho i (Z.to_nat L + j)%nat p c Hi Hj). by rewrite decide_False by lia.
Qed.

End RealBootstrap.

Section WriteBack.

Context {K : Type} `{Scalar K}.

Implicit Types (m b : Matrix K).

(** Writing back the block that was just read changes nothing. *)
Lemma set_rightCols_same m r :
  (r <= length (colvecs m))%nat ->
  set_rightCols r (rightCols m r) m = (m, Done tt).
Proof.
  intros Hr. rewrite set_rightCols_run; [|done|].
  - unfold rightCols. simpl. rewrite take_drop. by destruct m.
  - unfold rightCols. simpl. rewrite length_drop. lia.
Qed.

(** A routine that ran on the view found the view in range. *)
Lemma on_rightCols_Done {X} r (c : M (Matrix K) X) m m' x :
  on_rightCols r c m = (m', Done x) -> (r <= length (colvecs m'))%nat.
Proof.
  intros Hrun. pose proof (keeps_shape_on_rightCols r c m) as [_ Hl].
  rewrite Hrun in Hl. simpl in Hl. rewrite Hl. revert Hrun.
  unfold on_rightCols. destruct (c (rightCols m r)) as [b o].
  unfold set_rightCols. munfold.
  destruct (Nat.leb_spec r (length (colvecs m))) as [Hle|Hgt]; [done|].
  simpl. discriminate.
Qed.

(** The composite routine without its last statement. *)
Lemma JW_no_write_back (hq : Matrix K -> Matrix K)
    (m : Matrix K) (L : Index) :
  JensWehner_orthogonalisation hq L m =
    (assert_leftColsToSkip L ;;;
     in_output <- get ;;
     let rightColToOrtho := Z.to_nat (cols in_output - L) in
     partial_orthogonalisation L ;;;
     on_rightCols rightColToOrtho (QR_orthogonalisation hq)) m.
Proof.
  unfold JensWehner_orthogonalisation.
  apply bind_agree; [done|]. intros [] m0 _.
  apply bind_agree; [done|]. intros in_output m0' _. cbv zeta.
  apply bind_agree; [done|]. intros [] m1 _.
  set (r := Z.to_nat (cols in_output - L)). unfold bind.
  destruct (on_rightCols r (QR_orthogonalisation hq) m1) as [m2 [[]|e]] eqn:Hrun;
    [|done].
  unfold get. apply set_rightCols_same. by eapply on_rightCols_Done.
Qed.

(** X18. For every scalar type, every matrix and every [leftColsToSkip],
    the last statement of [JensWehner_orthogonalisation], which assigns
    the view of the right columns to the right columns, never changes the
    outcome nor the buffer: the routine is the guard, the projection and
    the factorisation step on the view. *)
Theorem JensWehner_write_back_redundant (hq : Matrix K -> Matrix K)
    (m : Matrix K) (L : Index) :
  JensWehner_orthogonalisation hq L m =
    (assert_leftColsToSkip L ;;;
     in_output <- get ;;
     let rightColToOrtho := Z.to_nat (cols in_output - L) in
     partial_orthogonalisation L ;;;
     on_rightCols rightColToOrtho (QR_orthogonalisation hq)) m.
Proof. apply JW_no_write_back. Qed.

End WriteBack.

(** ** Range and size checks, for every scalar type *)

Section Bounds.

Context {K : Type} `{Scalar K}.

Implicit Types (m b : Matrix K) (c : Vector K) (n : nat).

Lemma in_bounds_ret {X} n (x : X) : in_bounds (K:=K) n (ret x).
Proof. intros m Hm. by split. Qed.

Lemma in_bounds_bind_val {X Y} n (V : X -> Prop) (c : M (Matrix K) X)
    (k : X -> M (Matrix K) Y) :
  hoare (fun m => length (colvecs m) = n) c
    (fun m' o => length (colvecs m') = n /\
       match o with
       | Done x => V x
       | Abort e => e <> IndexOutOfRange
       end) ->
  (forall x, V x -> in_bounds n (k x)) ->
  in_bounds n (bind c k).
Proof.
  intros Hc Hk.
  eapply hoare_bind with (R := fun x m' => length (colvecs m') = n /\ V x).
  - intros m Hm. destruct (Hc m Hm) as [HF Ho].
    destruct (c m).2; [done|]. split; [done|congruence].
  - intros x m [Hm Hx]. by apply Hk.
Qed.

Lemma in_bounds_bind {X Y} n (c : M (Matrix K) X) (k : X -> M (Matrix K) Y) :
  in_bounds n c -> (forall x, in_bounds n (k x)) -> in_bounds n (bind c k).
Proof.
  intros Hc Hk. apply in_bounds_bind_val with (V := fun _ => True); [|auto].
  intros m Hm. destruct (Hc m Hm) as [HF Ho]. split; [done|].
  destruct (c m).2; [done|congruence].
Qed.

Lemma in_bounds_get_bind {X} n (k : Matrix K -> M (Matrix K) X) :
  (forall m0, length (colvecs m0) = n -> in_bounds n (k m0)) ->
  in_bounds n (bind get k).
Proof. intros Hk m Hm. exact (Hk m Hm m Hm). Qed.

Lemma in_bounds_for_count n body cnt lo :
  (forall k, (lo <= k < lo + cnt)%nat -> in_bounds (K:=K) n (body k)) ->
  in_bounds n (for_count cnt lo body).
Proof.
  revert lo. induction cnt as [|cnt IH]; intros lo Hbody; simpl.
  - apply in_bounds_ret.
  - apply in_bounds_bind; [apply Hbody; lia|]. intros _. apply IH.
    intros k Hk. apply Hbody. lia.
Qed.

(** A loop over the columns, from any start, stays below their number. *)
Lemma in_bounds_for_range n body lo :
  (forall k, (k < n)%nat -> in_bounds (K:=K) n (body k)) ->
  in_bounds n (for_range lo n body).
Proof. intros Hbody. apply in_bounds_for_count. intros k Hk. apply Hbody. lia. Qed.

Lemma in_bounds_get_col n j : (j < n)%nat -> in_bounds (K:=K) n (get_col j).
Proof.
  intros Hj. apply in_bounds_get_bind. intros m0 Hm0.
  destruct (colvecs m0 !! j) eqn:E; [apply in_bounds_ret|].
  apply lookup_ge_None in E. lia.
Qed.

Lemma in_bounds_set_col n j c : (j < n)%nat -> in_bounds n (set_col j c).
Proof.
  intros Hj. apply in_bounds_get_bind. intros m0 Hm0.
  destruct (Nat.ltb_spec j (length (colvecs m0))) as [Hlt|Hge]; [|lia].
  intros m _. simpl. by rewrite length_insert.
Qed.

Lemma normalize_in_bounds c : normalize c <> Abort IndexOutOfRange.
Proof. unfold normalize. by destruct (Req_dec_T _ _). Qed.

Lemma in_bounds_normalize_col n j :
  (j < n)%nat -> in_bounds (K:=K) n (normalize_col j).
Proof.
  intros Hj. apply in_bounds_bind; [by apply in_bounds_get_col|]. intros c.
  apply in_bounds_bind; [|intros c'; by apply in_bounds_set_col].
  intros m Hm. split; [done|]. apply normalize_in_bounds.
Qed.

Lemma in_bounds_set_rightCols n r b :
  (r <= n)%nat -> length (colvecs b) = r -> in_bounds n (set_rightCols r b).
Proof.
  intros Hr Hb. apply in_bounds_get_bind. intros m0 Hm0.
  destruct (Nat.leb_spec r (length (colvecs m0))) as [_|Hgt]; [|lia].
  destruct (Nat.eqb_spec (length (colvecs b)) r) as [_|Hne]; [|done].
  intros m _. simpl. rewrite length_app, length_take. split; [lia|done].
Qed.

Lemma mapM_normalize_in_bounds (cs : list (Vector K)) :
  match mapM_outcome normalize cs with
  | Done ys => length ys = length cs
  | Abort e => e <> IndexOutOfRange
  end.
Proof.
  induction cs as [|c cs IH]; simpl; [done|].
  unfold normalize at 1. destruct (Req_dec_T _ _); [done|].
  destruct (mapM_outcome normalize cs) as [ys|e]; [|done]. simpl. by rewrite IH.
Qed.

(** The guard trips no range check, and past it the routines run on a
    matrix with a column. *)
Lemma in_bounds_assert_leftColsToSkip n L :
  in_bounds (K:=K) n (assert_leftColsToSkip L).
Proof.
  apply in_bounds_get_bind. intros m0 _. unfold c_assert.
  apply in_bounds_bind; [|intros _];
    (destruct (_ : bool); [apply in_bounds_ret|]);
    intros m Hm; by split.
Qed.

Lemma in_bounds_treatFirstCol n L :
  (0 < n)%nat -> in_bounds (K:=K) n (treatFirstCol L).
Proof.
  intros Hn. unfold treatFirstCol. destruct (L =? 0)%Z; [|apply in_bounds_ret].
  apply in_bounds_bind; [by apply in_bounds_normalize_col|].
  intros _. apply in_bounds_ret.
Qed.

Lemma in_bounds_GS n L :
  (0 < n)%nat -> in_bounds (K:=K) n (GS_orthogonalisation L).
Proof.
  intros Hn.
  apply in_bounds_bind; [apply in_bounds_assert_leftColsToSkip|]. intros _.
  apply in_bounds_bind; [by apply in_bounds_treatFirstCol|]. intros L'.
  apply in_bounds_get_bind. intros m0 ->. apply in_bounds_for_range. intros j Hj.
  apply in_bounds_get_bind. intros m1 _.
  apply in_bounds_bind; [by apply in_bounds_get_col|]. intros cj.
  apply in_bounds_bind; [by apply in_bounds_set_col|]. intros _.
  by apply in_bounds_normalize_col.
Qed.

Lemma in_bounds_MGS n L :
  (0 < n)%nat -> in_bounds (K:=K) n (MGS_orthogonalisation L).
Proof.
  intros Hn.
  apply in_bounds_bind; [apply in_bounds_assert_leftColsToSkip|]. intros _.
  apply in_bounds_bind; [by apply in_bounds_treatFirstCol|]. intros L'.
  apply in_bounds_get_bind. intros m0 ->. apply in_bounds_for_range. intros k Hk.
  apply in_bounds_bind; [|intros _; by apply in_bounds_normalize_col].
  apply in_bounds_for_count. intros j Hj.
  apply in_bounds_bind; [apply in_bounds_get_col; lia|]. intros cj.
  apply in_bounds_bind; [by apply in_bounds_get_col|]. intros ck.
  by apply in_bounds_set_col.
Qed.

Lemma in_bounds_partial n L :
  (0 <= L)%Z -> in_bounds (K:=K) n (partial_orthogonalisation L).
Proof.
  intros HL.
  apply in_bounds_bind; [apply in_bounds_assert_leftColsToSkip|]. intros _.
  destruct (L =? 0)%Z; [apply in_bounds_ret|].
  apply in_bounds_get_bind. intros m0 Hm0. unfold cols. rewrite Hm0.
  set (r := Z.to_nat (Z.of_nat n - L)).
  assert (r <= n)%nat as Hr by (unfold r; lia).
  apply in_bounds_bind.
  - apply in_bounds_set_rightCols; [done|].
    unfold mat_sub, mat_mul, trans_mul, rightCols. simpl.
    rewrite length_zip_with, !length_map, length_drop. lia.
  - intros _. apply in_bounds_get_bind. intros m1 Hm1.
    apply in_bounds_bind_val with (V := fun cs => length cs = r).
    + intros m Hm. split; [done|]. unfold lift. simpl.
      pose proof (mapM_normalize_in_bounds (colvecs (rightCols m1 r))) as Hmap.
      destruct (mapM_outcome _ _) as [ys|e]; [|done].
      rewrite Hmap. unfold rightCols. simpl. rewrite length_drop. lia.
    + intros cs Hcs. by apply in_bounds_set_rightCols.
Qed.

(** Past the guard, on a block that is not wider than tall, the
    factorisation step fits the view. *)
Lemma on_rightCols_QR_fits hq m r :
  (r <= length (colvecs m))%nat -> (r <= rows m)%nat ->
  (on_rightCols r (QR_orthogonalisation hq) m).2 = Done tt.
Proof.
  intros Hr Hrows. unfold on_rightCols. rewrite QR_run.
  rewrite set_rightCols_run; [done|done|].
  rewrite length_mat_mul_Identity. unfold rightCols. simpl.
  rewrite length_drop. lia.
Qed.

(** X3. For every scalar type, every matrix, every [leftColsToSkip] in
    range, and whatever Eigen's kernel returns.  When the columns that
    [JensWehner_orthogonalisation] hands to the factorisation step are
    at most as many as the rows, none of Eigen's size checks is tripped.
    When they are more than the rows and none of the residuals that the
    projection normalises has norm zero, the factorisation step trips
    the size check of its assignment: it yields fewer columns than the
    view holds. *)
Theorem JensWehner_size_check (hq : Matrix K -> Matrix K) (m : Matrix K)
    (L : Index) :
  (0 <= L < cols m)%Z ->
  ((length (colvecs m) - Z.to_nat L <= rows m)%nat ->
   (JensWehner_orthogonalisation hq L m).2 <> Abort IndexOutOfRange) /\
  ((rows m < length (colvecs m) - Z.to_nat L)%nat ->
   (L <> 0%Z ->
    forall c, c ∈ drop (Z.to_nat L) (colvecs m) ->
      norm (residual (leftCols m (Z.to_nat L)) c) <> 0%R) ->
   (JensWehner_orthogonalisation hq L m).2 = Abort IndexOutOfRange).
Proof.
  intros HL. split.
  - intros Hfits.
    destruct (partial_orthogonalisation L m) as [m1 o1] eqn:Hpart.
    destruct (keeps_shape_partial L m) as [Hrows Hlen].
    pose proof (in_bounds_partial (length (colvecs m)) L ltac:(lia) m eq_refl)
      as [_ Hsafe].
    rewrite Hpart in Hrows, Hlen, Hsafe. simpl in *.
    destruct o1 as [[]|e].
    + assert ((JensWehner_orthogonalisation hq L m).2 = Done tt) as Hrun.
      { rewrite JW_no_write_back.
        rewrite (bind_done _ _ m m tt)
          by by apply assert_leftColsToSkip_accepts.
        unfold get at 1, bind at 1. cbv zeta.
        rewrite (bind_done _ _ _ _ _ Hpart).
        apply on_rightCols_QR_fits; unfold cols in *; lia. }
      by rewrite Hrun.
    + assert (JensWehner_orthogonalisation hq L m = (m1, Abort e)) as Hrun.
      { unfold JensWehner_orthogonalisation.
        rewrite (bind_done _ _ m m tt)
          by by apply assert_leftColsToSkip_accepts.
        unfold get at 1, bind at 1. by apply bind_abort. }
      rewrite Hrun. simpl. intros E. by rewrite E in Hsafe.
  - intros Hwide Hnz. destruct (partial_returns m L HL Hnz) as [m1 Hpart].
    by rewrite (JW_wide_block hq m m1 L HL Hpart Hwide).
Qed.

(** X19. For every scalar type, every matrix and every [leftColsToSkip],
    [GS_orthogonalisation], [MGS_orthogonalisation],
    [twice_is_enough_orthogonalisation] and [partial_orthogonalisation]
    never trip one of Eigen's range or size checks: every column and
    every block they read or write exists. *)
Theorem sweeps_stay_in_bounds (m : Matrix K) (L : Index) :
  (GS_orthogonalisation L m).2 <> Abort IndexOutOfRange /\
  (MGS_orthogonalisation L m).2 <> Abort IndexOutOfRange /\
  (twice_is_enough_orthogonalisation L m).2 <> Abort IndexOutOfRange /\
  (partial_orthogonalisation L m).2 <> Abort IndexOutOfRange.
Proof.
  destruct (decide (0 <= L < cols m)%Z) as [HL|HL].
  - unfold cols in HL.
    assert (0 < length (colvecs m))%nat as Hn by lia.
    split; [by apply (in_bounds_GS _ L Hn m)|].
    split; [by apply (in_bounds_MGS _ L Hn m)|]. split.
    + apply (in_bounds_bind (length (colvecs m)) (GS_orthogonalisation L)
               (fun _ => GS_orthogonalisation L)); [|intros _|done];
        by apply in_bounds_GS.
    + apply (in_bounds_partial _ L ltac:(lia) m eq_refl).
  - assert (GS_orthogonalisation L m = (m, Abort PreconditionViolation)) as HGS
      by (apply guard_stops; lia).
    unfold twice_is_enough_orthogonalisation.
    rewrite (bind_abort _ _ _ _ _ HGS), HGS.
    unfold MGS_orthogonalisation, partial_orthogonalisation.
    rewrite !guard_stops by lia. done.
Qed.

End Bounds.

(** ** The composite routine: an orthonormal basis of the column space *)

Section RealBasis.

Local Open Scope R_scope.

Local Abbreviation lc n cs a := (mat_vec (mkMatrix n cs) a).
Local Abbreviation cwf n cs := (Forall (fun c : Vector R => length c = n) cs).

Implicit Types (u v w c q : Vector R) (n : nat) (m : Matrix R).
Implicit Types (cs P B Q Bs Qs Rs : list (Vector R)).

Lemma orthonormal_app P Q :
  orthonormal P -> orthonormal Q ->
  (forall p q, p ∈ P -> q ∈ Q -> dot p q = 0) ->
  orthonormal (P ++ Q).
Proof.
  intros HP HQ Hx i j ci cj Hi Hj.
  destruct (decide (i < length P)%nat) as [Hil|Hil];
    destruct (decide (j < length P)%nat) as [Hjl|Hjl].
  - rewrite lookup_app_l in Hi, Hj by done. by apply HP.
  - rewrite lookup_app_l in Hi by done. rewrite lookup_app_r in Hj by lia.
    rewrite decide_False by lia.
    apply Hx; by eapply list_elem_of_lookup_2.
  - rewrite lookup_app_l in Hj by done. rewrite lookup_app_r in Hi by lia.
    rewrite decide_False by lia. rewrite dot_comm.
    apply Hx; by eapply list_elem_of_lookup_2.
  - rewrite lookup_app_r in Hi, Hj by lia.
    rewrite (HQ _ _ _ _ Hi Hj).
    destruct (decide (i - length P = j - length P)%nat), (decide (i = j));
      try done; lia.
Qed.

(** A column of [q * r] for an upper triangular [r] lies in the span of
    the columns of [q] up to its own index. *)
Lemma qr_column_span n Qs Rs k c :
  cwf n Qs -> Forall (fun w => length w = length Qs) Rs ->
  upper_triangular (mkMatrix (length Qs) Rs) ->
  (length Rs <= length Qs)%nat ->
  map (fun w => lc n Qs w) Rs !! k = Some c ->
  in_span n (take (S k) Qs) c.
Proof.
  intros HQ HR Hup Hlen Hc.
  assert ((fun w => lc n Qs w) <$> Rs !! k = Some c) as Hc'
    by (rewrite <- Hc; symmetry; apply list_lookup_fmap).
  destruct (Rs !! k) as [Rk|] eqn:HRk; [|done]. injection Hc' as <-.
  pose proof (lookup_lt_Some _ _ _ HRk) as Hk.
  assert (length Rk = length Qs) as HlRk by exact (Forall_lookup_1 _ _ _ _ HR HRk).
  destruct (lookup_lt_is_Some_2 Qs k) as [q Hq]; [lia|].
  destruct (lookup_lt_is_Some_2 Rk k) as [rho Hrho]; [lia|].
  rewrite (upper_column_split n Qs Rk k q rho HQ Hq Hrho).
  - apply span_add.
    + eapply in_span_mono; [apply take_S_subseteq|].
      apply in_span_lc. by apply Forall_take.
    + apply span_scale, span_gen; [|exact (Forall_lookup_1 _ _ _ _ HQ Hq)].
      apply (list_elem_of_lookup_2 _ k). apply lookup_take_Some.
      split; [done|lia].
  - intros i x Hi Hki. by apply (Hup k Rk i x).
Qed.

(** The block left by the projection and the columns it came from span
    each other, together with the skipped columns. *)
Lemma partial_result_spans m L Bs :
  wf m -> (0 <= L < cols m)%Z ->
  partial_orthogonalisation L m =
    (mkMatrix (rows m) (take (Z.to_nat L) (colvecs m) ++ Bs), Done tt) ->
  (forall b, b ∈ Bs -> in_span (rows m) (colvecs m) b) /\
  (forall c, c ∈ drop (Z.to_nat L) (colvecs m) ->
     in_span (rows m) (take (Z.to_nat L) (colvecs m) ++ Bs) c).
Proof.
  intros Hwf HL Hpart. unfold wf in Hwf. unfold cols in HL.
  assert (forall c, c ∈ colvecs m -> in_span (rows m) (colvecs m) c) as Hgen.
  { intros c Hc. apply span_gen; [done|].
    apply list_elem_of_lookup in Hc as [i Hi].
    exact (Forall_lookup_1 _ _ _ _ Hwf Hi). }
  destruct (decide (L = 0%Z)) as [->|HL0].
  - assert (partial_orthogonalisation 0%Z m = (m, Done tt)) as Hrun.
    { unfold partial_orthogonalisation.
      by rewrite (bind_done _ _ m m tt)
        by (apply assert_leftColsToSkip_accepts; unfold cols; lia). }
    rewrite Hrun in Hpart. rewrite <- (matrix_eta m) in Hpart at 1.
    injection Hpart as Hcs. simpl in *. subst Bs. done.
  - set (l := Z.to_nat L) in *. set (n := rows m) in *.
    set (P := take l (colvecs m)) in *.
    assert (cwf n P) as HP by by apply Forall_take.
    assert (forall c, c ∈ drop l (colvecs m) -> c ∈ colvecs m) as Hsub.
    { intros c Hc. apply list_elem_of_lookup in Hc as [j Hj].
      rewrite lookup_drop in Hj. by eapply list_elem_of_lookup_2. }
    assert (forall q, q ∈ P -> q ∈ colvecs m) as HsubP
      by (intros q Hq; by eapply (subseteq_take l)).
    destruct (norms_decide (residual (leftCols m l)) (drop l (colvecs m)))
      as [Hnz|(c & Hc & Hz)].
    + rewrite (partial_run m L ltac:(unfold cols; lia) Hnz) in Hpart.
      injection Hpart as Hcs. apply app_inv_head in Hcs. subst Bs.
      unfold leftCols in *. fold l n P in Hnz |- *. split.
      * intros b Hb. apply list_elem_of_fmap in Hb as (c & -> & Hc).
        rewrite normalized_vscale.
        apply span_scale, residual_in_span; [done| |].
        -- intros q Hq. by apply Hgen, HsubP.
        -- by apply Hgen, Hsub.
      * intros c Hc.
        assert (length c = n) as Hlc.
        { apply (in_span_length n (colvecs m)). by apply Hgen, Hsub. }
        rewrite (residual_recover n P c HP Hlc (Hnz c Hc)). apply span_add.
        -- apply span_scale, span_gen.
           ++ apply elem_of_app. right. apply list_elem_of_fmap. by exists c.
           ++ rewrite normalized_vscale, length_vscale.
              by apply length_residual.
        -- eapply in_span_mono; [|by apply in_span_lc].
           intros p Hp. apply elem_of_app. by left.
    + pose proof (partial_abort m L c ltac:(unfold cols; lia) Hc Hz) as Ha.
      rewrite Hpart in Ha. discriminate.
Qed.

(** What the buffer spans is the same before and after a projection
    that ran to its end. *)
Lemma partial_returned_spans (m m' : Matrix R) (L : Index) :
  wf m -> partial_orthogonalisation L m = (m', Done tt) ->
  (forall q, q ∈ colvecs m' -> in_span (rows m) (colvecs m) q) /\
  (forall c, c ∈ colvecs m -> in_span (rows m) (colvecs m') c).
Proof.
  intros Hwf Hrun.
  assert (0 <= L < cols m)%Z as HL.
  { destruct (decide (0 <= L < cols m)%Z) as [HL|HL]; [done|].
    unfold partial_orthogonalisation in Hrun.
    rewrite guard_stops in Hrun by lia. discriminate. }
  pose proof (keeps_shape_partial L m) as [Hrows _].
  assert (frame (Z.to_nat L) (length (colvecs m))
            (take (Z.to_nat L) (colvecs m)) m) as Hm by done.
  unfold cols in HL.
  destruct (framed_partial _ L _ HL m Hm) as [[_ Hpre] _].
  rewrite Hrun in Hrows, Hpre. simpl in Hrows, Hpre.
  set (l := Z.to_nat L) in *.
  assert (colvecs m' = take l (colvecs m) ++ drop l (colvecs m')) as Hcs
    by (by rewrite <- Hpre, take_drop).
  assert (m' = mkMatrix (rows m) (take l (colvecs m) ++ drop l (colvecs m')))
    as Hm' by (rewrite <- Hcs, <- Hrows; by destruct m').
  rewrite Hm' in Hrun.
  destruct (partial_result_spans m L _ Hwf ltac:(unfold cols; lia) Hrun)
    as [HBin HcB].
  assert (forall c, c ∈ take l (colvecs m) -> length c = rows m) as Hlen.
  { intros c Hc. apply list_elem_of_lookup in Hc as [i Hi].
    apply lookup_take_Some in Hi as [Hi _].
    exact (Forall_lookup_1 _ _ _ _ Hwf Hi). }
  split.
  - intros q Hq. rewrite Hcs in Hq. apply elem_of_app in Hq as [Hq|Hq].
    + apply span_gen; [by eapply (subseteq_take l)|by apply Hlen].
    + by apply HBin.
  - intros c Hc. rewrite <- (take_drop l (colvecs m)) in Hc.
    apply elem_of_app in Hc as [Hc|Hc]; rewrite Hcs.
    + apply span_gen; [apply elem_of_app; by left|by apply Hlen].
    + by apply HcB.
Qed.

(** X21. On a real matrix and with [leftColsToSkip] in range, when none
    of the residuals that [partial_orthogonalisation] normalises has
    norm zero, the routine returns normally and the columns of the
    buffer span what they spanned at the call: each column of the result
    is a combination of the columns of the input, and each column of the
    input is a combination of the columns of the result. *)
Theorem partial_orthogonalisation_column_space (m : Matrix R) (L : Index) :
  wf m -> (0 <= L < cols m)%Z ->
  (L <> 0%Z -> forall c, c ∈ drop (Z.to_nat L) (colvecs m) ->
     norm (residual (leftCols m (Z.to_nat L)) c) <> 0) ->
  (partial_orthogonalisation L m).2 = Done tt /\
  (forall q, q ∈ colvecs (partial_orthogonalisation L m).1 ->
     in_span (rows m) (colvecs m) q) /\
  (forall c, c ∈ colvecs m ->
     in_span (rows m) (colvecs (partial_orthogonalisation L m).1) c).
Proof.
  intros Hwf HL Hnz. destruct (partial_returns m L HL Hnz) as [m1 Hrun].
  rewrite Hrun. simpl. split; [done|].
  exact (partial_returned_spans m m1 L Hwf Hrun).
Qed.

(** X20. On a real matrix with linearly independent columns whose first
    [L] columns are orthonormal ([0 <= L < m]), and with Eigen's kernel
    honouring its contract on the block it is handed,
    [JensWehner_orthogonalisation] leaves an orthonormal basis of the
    column space of its input: all the columns of the result, skipped
    ones included, are orthonormal, each of them is a combination of the
    columns of the input, and each column of the input is a combination
    of the columns of the result. *)
Theorem JensWehner_orthonormal_basis (hq : Matrix R -> Matrix R) (m : Matrix R)
    (L : Index) :
  wf m -> lin_indep (rows m) (colvecs m) -> (0 <= L < cols m)%Z ->
  orthonormal (take (Z.to_nat L) (colvecs m)) ->
  is_householderQ
    (rightCols (partial_orthogonalisation L m).1
       (length (colvecs m) - Z.to_nat L))
    (hq (rightCols (partial_orthogonalisation L m).1
           (length (colvecs m) - Z.to_nat L))) ->
  exists m',
    JensWehner_orthogonalisation hq L m = (m', Done tt) /\
    orthonormal (colvecs m') /\
    (forall q, q ∈ colvecs m' -> in_span (rows m) (colvecs m) q) /\
    (forall c, c ∈ colvecs m -> in_span (rows m) (colvecs m') c).
Proof.
  intros Hwf Hli HL Ho Hq.
  pose proof (lin_indep_le_rows _ _ Hwf Hli) as Hdim.
  destruct (partial_result m L Hwf Hli HL Ho)
    as (Bs & Hpart & HBs & HlenB & Hind & Horth).
  destruct (partial_result_spans m L Bs Hwf HL Hpart) as [HBin HcB].
  unfold cols in HL. set (l := Z.to_nat L) in *.
  set (len := length (colvecs m)) in *. set (n := rows m) in *.
  set (P := take l (colvecs m)) in *.
  assert (length P = l) as Hlt by (unfold P; rewrite length_take; fold len; lia).
  rewrite Hpart in Hq. simpl in Hq.
  assert (rightCols (mkMatrix n (P ++ Bs)) (len - l) = mkMatrix n Bs) as HB.
  { unfold rightCols. simpl. rewrite length_app, Hlt, HlenB.
    replace (l + (len - l) - (len - l))%nat with l by lia.
    by rewrite drop_app_length'. }
  rewrite HB in Hq. set (Q := hq (mkMatrix n Bs)) in *.
  destruct Hq as (HrQ & HlQ & HwfQ & HoQ & Rm & HrR & HlR & HwfR & Hup & HQR).
  simpl in HrQ, HlQ, HrR, HlR.
  assert (length (colvecs (mkMatrix n (P ++ Bs))) = len) as Hlen1
    by (simpl; rewrite length_app, Hlt, HlenB; lia).
  pose proof (JW_run hq m L _ HL Hpart Hlen1) as Hrun.
  fold len l in Hrun. rewrite HB in Hrun. fold Q in Hrun. simpl in Hrun.
  specialize (Hrun HwfQ HlQ ltac:(lia)).
  rewrite take_app_length' in Hrun by done.
  unfold wf in HwfQ, HwfR, Hwf. rewrite HrQ in HwfQ. rewrite HrR, <- HlQ in HwfR.
  fold n in Hwf.
  assert (Bs = map (fun w => lc n (colvecs Q) w) (colvecs Rm)) as HBs'.
  { injection HQR as _ HQR. rewrite HQR. apply map_ext. intros w.
    by rewrite <- HrQ, matrix_eta. }
  assert (forall k q, take (len - l) (colvecs Q) !! k = Some q ->
            in_span n (take (S k) Bs) q) as Hqspan.
  { intros k q Hk. apply lookup_take_Some in Hk as [Hk Hkr].
    rewrite HBs'. apply qr_span; try done.
    - rewrite <- HBs'. exact Hind.
    - lia. }
  assert (forall g, g ∈ P -> in_span n (colvecs m) g) as HPin.
  { intros g Hg. apply span_gen; [by eapply (subseteq_take l)|].
    apply list_elem_of_lookup in Hg as [i Hi].
    apply lookup_take_Some in Hi as [Hi _].
    exact (Forall_lookup_1 _ _ _ _ Hwf Hi). }
  eexists. split; [exact Hrun|]. simpl. split; [|split].
  - apply orthonormal_app; [done|by apply orthonormal_take|].
    intros p q Hp Hq'. apply list_elem_of_lookup in Hq' as [k Hk].
    apply (dot_in_span n Bs); [|intros c Hc; by apply Horth].
    eapply in_span_mono; [apply (subseteq_take (S k))|]. by apply Hqspan.
  - intros q Hq'. apply elem_of_app in Hq' as [Hq'|Hq']; [by apply HPin|].
    apply list_elem_of_lookup in Hq' as [k Hk].
    eapply in_span_trans; [exact HBin|].
    eapply in_span_mono; [apply (subseteq_take (S k))|]. by apply Hqspan.
  - intros c Hc.
    assert (in_span n (P ++ Bs) c) as Hc'.
    { apply list_elem_of_lookup in Hc as [i Hi].
      destruct (decide (i < l)%nat) as [Hil|Hil].
      - apply span_gen; [|exact (Forall_lookup_1 _ _ _ _ Hwf Hi)].
        apply elem_of_app. left. apply (list_elem_of_lookup_2 _ i).
        by apply lookup_take_Some.
      - apply HcB. apply (list_elem_of_lookup_2 _ (i - l)).
        rewrite lookup_drop. by replace (l + (i - l))%nat with i by lia. }
    eapply in_span_trans; [|exact Hc'].
    intros g Hg. apply elem_of_app in Hg as [Hg|Hg].
    + apply span_gen; [apply elem_of_app; by left|].
      exact (in_span_length _ _ _ (HPin g Hg)).
    + apply list_elem_of_lookup in Hg as [k Hk].
      pose proof (lookup_lt_Some _ _ _ Hk) as Hkl.
      eapply in_span_mono with (B := take (S k) (take (len - l) (colvecs Q))).
      { intros x Hx. apply elem_of_app. right. by eapply (subseteq_take (S k)). }
      rewrite take_take. replace (S k `min` (len - l))%nat with (S k) by lia.
      apply (qr_column_span n (colvecs Q) (colvecs Rm) k g); try done.
      * lia.
      * by rewrite <- HBs'.
Qed.

End RealBasis.

(** ** The further properties at sample inputs *)

Section FurtherSampleInputs.

Local Open Scope R_scope.

Lemma orthonormal_nil : orthonormal (@nil (Vector R)).
Proof. intros i j ci cj Hi. done. Qed.

Lemma wf_skew_columns : wf skew_columns.
Proof. by repeat constructor. Qed.

Lemma wf_unit_then_skew : wf unit_then_skew.
Proof. by repeat constructor. Qed.

Lemma wf_wide_row : wf wide_row.
Proof. by repeat constructor. Qed.

Lemma wf_rotation : wf rotation.
Proof. by repeat constructor. Qed.

Lemma in_range_0 (m : Matrix R) :
  (0 < length (colvecs m))%nat -> (0 <= 0 < cols m)%Z.
Proof. unfold cols. lia. Qed.

Lemma unit_then_skew_in_range : (0 <= 1 < cols unit_then_skew)%Z.
Proof. unfold cols. simpl. lia. Qed.

Lemma skew_columns_first :
  0%Z = 0%Z ->
  forall c, colvecs skew_columns !! 0%nat = Some c -> norm c <> 0.
Proof.
  intros _ c Hc E. injection Hc as <-. apply norm_zero_iff in E.
  unfold vzero in E. simpl in E. injection E as E. lra.
Qed.

Lemma unit_then_skew_residuals :
  1%Z <> 0%Z ->
  forall c, c ∈ drop (Z.to_nat 1) (colvecs unit_then_skew) ->
    norm (residual (leftCols unit_then_skew (Z.to_nat 1)) c) <> 0.
Proof.
  intros _ c Hc. change (Z.to_nat 1) with 1%nat in *. unfold leftCols.
  pose proof wf_unit_then_skew as Hwf.
  apply residual_nonzero.
  - by apply Forall_take.
  - apply list_elem_of_lookup in Hc as [j Hj]. rewrite lookup_drop in Hj.
    exact (Forall_lookup_1 _ _ _ _ Hwf Hj).
  - by apply unit_then_skew_outside.
Qed.

Lemma wide_row_residuals :
  0%Z <> 0%Z ->
  forall c, c ∈ drop (Z.to_nat 0) (colvecs wide_row) ->
    norm (residual (leftCols wide_row (Z.to_nat 0)) c) <> 0.
Proof. intros E. lia. Qed.

Lemma wide_row_partial :
  partial_orthogonalisation 0%Z wide_row = (wide_row, Done tt).
Proof.
  unfold partial_orthogonalisation.
  rewrite (bind_done _ _ wide_row wide_row tt); [done|].
  apply assert_leftColsToSkip_accepts. unfold cols. simpl. lia.
Qed.

Lemma unit_factor_contract :
  is_householderQ unit_then_skew (unit_factor unit_then_skew).
Proof.
  unfold unit_factor. split; [done|]. split; [done|].
  split; [by repeat constructor|]. split; [simpl; orthonormal_by_cases|].
  exists unit_then_skew. split; [done|]. split; [done|].
  split; [by repeat constructor|]. split.
  - intros j c i x Hj Hi Hji. simpl in Hj. destruct j as [|[|j]]; [| |done].
    + injection Hj as <-. destruct i as [|[|i]]; [lia| |done].
      by injection Hi as <-.
    + injection Hj as <-. destruct i as [|[|i]]; [lia|lia|done].
  - unfold unit_then_skew, mat_mul, mat_vec, vadd, vscale. simpl.
    repeat (f_equal; try lra).
Qed.

Lemma rotation_new_column c :
  c ∈ drop (Z.to_nat 1) (colvecs rotation) ->
  dot c c = 1 /\
  forall p, p ∈ take (Z.to_nat 1) (colvecs rotation) -> dot p c = 0.
Proof.
  simpl. intros Hc. apply list_elem_of_singleton in Hc as ->. split.
  - unfold dot. simpl. lra.
  - intros p Hp. apply list_elem_of_singleton in Hp as ->.
    unfold dot. simpl. lra.
Qed.

(** The size check of the composite routine is reachable: one row and
    two columns, nothing skipped. *)
Lemma wide_row_size_check :
  JensWehner_orthogonalisation unit_factor 0%Z wide_row
    = (wide_row, Abort IndexOutOfRange).
Proof.
  apply JW_wide_block; [apply in_range_0; simpl; lia| |simpl; lia].
  exact wide_row_partial.
Qed.

Lemma MGS_is_GS_witness :
  wf skew_columns /\
  orthonormal (take (Z.to_nat 0) (colvecs skew_columns)) /\
  MGS_orthogonalisation 0%Z skew_columns = GS_orthogonalisation 0%Z skew_columns.
Proof.
  split; [exact wf_skew_columns|]. split; [exact orthonormal_nil|].
  exact (MGS_is_GS skew_columns 0%Z wf_skew_columns orthonormal_nil).
Defined.

Lemma Gram_Schmidt_outcomes_witness :
  wf unit_then_skew /\ (0 <= 1 < cols unit_then_skew)%Z /\
  orthonormal (take (Z.to_nat 1) (colvecs unit_then_skew)) /\
  let outcomes (c : M (Matrix R) unit) :=
    ((c unit_then_skew).2 = Done tt /\
     orthonormal (colvecs (c unit_then_skew).1)) \/
    meets_zero_norm c unit_then_skew in
  outcomes (GS_orthogonalisation 1%Z) /\ outcomes (MGS_orthogonalisation 1%Z).
Proof.
  split; [exact wf_unit_then_skew|]. split; [exact unit_then_skew_in_range|].
  split; [exact unit_then_skew_prefix|].
  exact (Gram_Schmidt_outcomes unit_then_skew 1%Z wf_unit_then_skew
           unit_then_skew_in_range unit_then_skew_prefix).
Defined.

Lemma Gram_Schmidt_wide_matrix_witness :
  wf wide_row /\ (0 <= 0 < cols wide_row)%Z /\
  orthonormal (take (Z.to_nat 0) (colvecs wide_row)) /\
  (rows wide_row < length (colvecs wide_row))%nat /\
  meets_zero_norm (GS_orthogonalisation 0%Z) wide_row /\
  meets_zero_norm (MGS_orthogonalisation 0%Z) wide_row.
Proof.
  assert (0 <= 0 < cols wide_row)%Z as HL by (apply in_range_0; simpl; lia).
  assert (rows wide_row < length (colvecs wide_row))%nat as Hwide
    by (simpl; lia).
  split; [exact wf_wide_row|]. split; [exact HL|].
  split; [exact orthonormal_nil|]. split; [exact Hwide|].
  exact (Gram_Schmidt_wide_matrix wide_row 0%Z wf_wide_row HL orthonormal_nil
           Hwide).
Defined.

Lemma twice_is_enough_is_GS_witness :
  wf skew_columns /\
  orthonormal (take (Z.to_nat 0) (colvecs skew_columns)) /\
  twice_is_enough_orthogonalisation 0%Z skew_columns
    = GS_orthogonalisation 0%Z skew_columns.
Proof.
  split; [exact wf_skew_columns|]. split; [exact orthonormal_nil|].
  exact (twice_is_enough_is_GS skew_columns 0%Z wf_skew_columns orthonormal_nil).
Defined.

Lemma Gram_Schmidt_nested_spans_witness :
  wf unit_then_skew /\
  lin_indep (rows unit_then_skew) (colvecs unit_then_skew) /\
  (0 <= 1 < cols unit_then_skew)%Z /\
  orthonormal (take (Z.to_nat 1) (colvecs unit_then_skew)) /\
  exists m',
    GS_orthogonalisation 1%Z unit_then_skew = (m', Done tt) /\
    MGS_orthogonalisation 1%Z unit_then_skew = (m', Done tt) /\
    orthonormal (colvecs m') /\
    take (Z.to_nat 1) (colvecs m') = take (Z.to_nat 1) (colvecs unit_then_skew) /\
    forall j,
      (forall q, colvecs m' !! j = Some q ->
         in_span (rows unit_then_skew) (take (S j) (colvecs unit_then_skew)) q) /\
      (forall c, colvecs unit_then_skew !! j = Some c ->
         in_span (rows unit_then_skew) (take (S j) (colvecs m')) c) /\
      (forall q c, colvecs m' !! j = Some q ->
         colvecs unit_then_skew !! j = Some c -> 0 < dot q c).
Proof.
  split; [exact wf_unit_then_skew|]. split; [exact unit_then_skew_indep|].
  split; [exact unit_then_skew_in_range|]. split; [exact unit_then_skew_prefix|].
  exact (Gram_Schmidt_nested_spans unit_then_skew 1%Z wf_unit_then_skew
           unit_then_skew_indep unit_then_skew_in_range unit_then_skew_prefix).
Defined.

Lemma Gram_Schmidt_zero_norm_iff_dependent_witness :
  wf wide_row /\ (0 <= 0 < cols wide_row)%Z /\
  orthonormal (take (Z.to_nat 0) (colvecs wide_row)) /\
  (meets_zero_norm (GS_orthogonalisation 0%Z) wide_row <->
     ~ lin_indep (rows wide_row) (colvecs wide_row)) /\
  (meets_zero_norm (MGS_orthogonalisation 0%Z) wide_row <->
     ~ lin_indep (rows wide_row) (colvecs wide_row)).
Proof.
  assert (0 <= 0 < cols wide_row)%Z as HL by (apply in_range_0; simpl; lia).
  split; [exact wf_wide_row|]. split; [exact HL|].
  split; [exact orthonormal_nil|].
  exact (Gram_Schmidt_zero_norm_iff_dependent wide_row 0%Z wf_wide_row HL
           orthonormal_nil).
Defined.

Lemma partial_orthogonalisation_zero_norm_iff_witness :
  wf unit_then_skew /\ (1 <= 1 < cols unit_then_skew)%Z /\
  orthonormal (take (Z.to_nat 1) (colvecs unit_then_skew)) /\
  (meets_zero_norm (partial_orthogonalisation 1%Z) unit_then_skew <->
     exists c, c ∈ drop (Z.to_nat 1) (colvecs unit_then_skew) /\
       in_span (rows unit_then_skew)
         (take (Z.to_nat 1) (colvecs unit_then_skew)) c) /\
  ((forall c, c ∈ drop (Z.to_nat 1) (colvecs unit_then_skew) ->
      ~ in_span (rows unit_then_skew)
          (take (Z.to_nat 1) (colvecs unit_then_skew)) c) ->
   (partial_orthogonalisation 1%Z unit_then_skew).2 = Done tt).
Proof.
  assert (1 <= 1 < cols unit_then_skew)%Z as HL by (unfold cols; simpl; lia).
  split; [exact wf_unit_then_skew|]. split; [exact HL|].
  split; [exact unit_then_skew_prefix|].
  exact (partial_orthogonalisation_zero_norm_iff unit_then_skew 1%Z
           wf_unit_then_skew HL unit_then_skew_prefix).
Defined.

Lemma partial_orthogonalisation_fixed_points_witness :
  wf rotation /\ (0 <= 1 < cols rotation)%Z /\
  (forall c, c ∈ drop (Z.to_nat 1) (colvecs rotation) ->
     dot c c = 1 /\
     forall p, p ∈ take (Z.to_nat 1) (colvecs rotation) -> dot p c = 0) /\
  partial_orthogonalisation 1%Z rotation = (rotation, Done tt).
Proof.
  assert (0 <= 1 < cols rotation)%Z as HL by (unfold cols; simpl; lia).
  split; [exact wf_rotation|]. split; [exact HL|].
  split; [exact rotation_new_column|].
  exact (partial_orthogonalisation_fixed_points rotation 1%Z wf_rotation HL
           rotation_new_column).
Defined.

Lemma partial_orthogonalisation_idempotent_witness :
  wf unit_then_skew /\ (1 <= 1 < cols unit_then_skew)%Z /\
  orthonormal (take (Z.to_nat 1) (colvecs unit_then_skew)) /\
  bind (partial_orthogonalisation 1%Z) (fun _ => partial_orthogonalisation 1%Z)
    unit_then_skew
  = partial_orthogonalisation 1%Z unit_then_skew.
Proof.
  assert (1 <= 1 < cols unit_then_skew)%Z as HL by (unfold cols; simpl; lia).
  split; [exact wf_unit_then_skew|]. split; [exact HL|].
  split; [exact unit_then_skew_prefix|].
  exact (partial_orthogonalisation_idempotent unit_then_skew 1%Z
           wf_unit_then_skew HL unit_then_skew_prefix).
Defined.

Lemma QR_orthogonalisation_result_witness :
  is_householderQ unit_then_skew (unit_factor unit_then_skew) /\
  exists m',
    QR_orthogonalisation unit_factor unit_then_skew = (m', Done tt) /\
    rows m' = rows unit_then_skew /\ wf m' /\
    length (colvecs m')
      = Nat.min (rows unit_then_skew) (length (colvecs unit_then_skew)) /\
    orthonormal (colvecs m').
Proof.
  split; [exact unit_factor_contract|].
  exact (QR_orthogonalisation_result unit_factor unit_then_skew
           unit_factor_contract).
Defined.

Lemma QR_orthogonalisation_nested_spans_witness :
  wf unit_then_skew /\
  lin_indep (rows unit_then_skew) (colvecs unit_then_skew) /\
  is_householderQ unit_then_skew (unit_factor unit_then_skew) /\
  exists m',
    QR_orthogonalisation unit_factor unit_then_skew = (m', Done tt) /\
    length (colvecs m') = length (colvecs unit_then_skew) /\
    forall j,
      (forall q, colvecs m' !! j = Some q ->
         in_span (rows unit_then_skew) (take (S j) (colvecs unit_then_skew)) q) /\
      (forall c, colvecs unit_then_skew !! j = Some c ->
         in_span (rows unit_then_skew) (take (S j) (colvecs m')) c).
Proof.
  split; [exact wf_unit_then_skew|]. split; [exact unit_then_skew_indep|].
  split; [exact unit_factor_contract|].
  exact (QR_orthogonalisation_nested_spans unit_factor unit_then_skew
           wf_unit_then_skew unit_then_skew_indep unit_factor_contract).
Defined.

Lemma JensWehner_0_is_QR_witness :
  (0 < length (colvecs unit_then_skew) <= rows unit_then_skew)%nat /\
  rows (unit_factor unit_then_skew) = rows unit_then_skew /\
  length (colvecs (unit_factor unit_then_skew)) = rows unit_then_skew /\
  wf (unit_factor unit_then_skew) /\
  JensWehner_orthogonalisation unit_factor 0%Z unit_then_skew
    = QR_orthogonalisation unit_factor unit_then_skew.
Proof.
  assert (0 < length (colvecs unit_then_skew) <= rows unit_then_skew)%nat
    as Hdim by (simpl; lia).
  assert (wf (unit_factor unit_then_skew)) as Hwf by (by repeat constructor).
  split; [exact Hdim|]. split; [reflexivity|]. split; [reflexivity|].
  split; [exact Hwf|].
  exact (JensWehner_0_is_QR unit_factor unit_then_skew Hdim eq_refl eq_refl Hwf).
Defined.

Lemma treatFirstCol_contract_witness :
  (0 <= 0 < cols skew_columns)%Z /\
  orthonormal (take (Z.to_nat 0) (colvecs skew_columns)) /\
  (0%Z = 0%Z ->
   forall c, colvecs skew_columns !! 0%nat = Some c -> norm c <> 0) /\
  exists m',
    treatFirstCol 0%Z skew_columns = (m', Done (Z.max 0 1)) /\
    orthonormal (take (Z.to_nat (Z.max 0 1)) (colvecs m')) /\
    drop (Z.to_nat (Z.max 0 1)) (colvecs m')
      = drop (Z.to_nat (Z.max 0 1)) (colvecs skew_columns) /\
    (0%Z <> 0%Z -> m' = skew_columns).
Proof.
  assert (0 <= 0 < cols skew_columns)%Z as HL by (apply in_range_0; simpl; lia).
  split; [exact HL|]. split; [exact orthonormal_nil|].
  split; [exact skew_columns_first|].
  exact (treatFirstCol_contract skew_columns 0%Z HL orthonormal_nil
           skew_columns_first).
Defined.

Lemma orthonormal_fixed_points_witness :
  wf rotation /\ orthonormal (colvecs rotation) /\ (0 <= 1 < cols rotation)%Z /\
  GS_orthogonalisation 1%Z rotation = (rotation, Done tt) /\
  MGS_orthogonalisation 1%Z rotation = (rotation, Done tt) /\
  twice_is_enough_orthogonalisation 1%Z rotation = (rotation, Done tt) /\
  partial_orthogonalisation 1%Z rotation = (rotation, Done tt).
Proof.
  assert (0 <= 1 < cols rotation)%Z as HL by (unfold cols; simpl; lia).
  split; [exact wf_rotation|]. split; [exact rotation_orthonormal|].
  split; [exact HL|].
  exact (orthonormal_fixed_points rotation 1%Z wf_rotation rotation_orthonormal HL).
Defined.

Lemma JensWehner_orthonormal_basis_witness :
  wf unit_then_skew /\
  lin_indep (rows unit_then_skew) (colvecs unit_then_skew) /\
  (0 <= 1 < cols unit_then_skew)%Z /\
  orthonormal (take (Z.to_nat 1) (colvecs unit_then_skew)) /\
  exists m',
    JensWehner_orthogonalisation swap_factor 1%Z unit_then_skew = (m', Done tt) /\
    orthonormal (colvecs m') /\
    (forall q, q ∈ colvecs m' ->
       in_span (rows unit_then_skew) (colvecs unit_then_skew) q) /\
    (forall c, c ∈ colvecs unit_then_skew ->
       in_span (rows unit_then_skew) (colvecs m') c).
Proof.
  split; [exact wf_unit_then_skew|]. split; [exact unit_then_skew_indep|].
  split; [exact unit_then_skew_in_range|]. split; [exact unit_then_skew_prefix|].
  exact (JensWehner_orthonormal_basis swap_factor unit_then_skew 1%Z
           wf_unit_then_skew unit_then_skew_indep unit_then_skew_in_range
           unit_then_skew_prefix swap_factor_contract).
Defined.

Lemma partial_orthogonalisation_column_space_witness :
  wf unit_then_skew /\ (0 <= 1 < cols unit_then_skew)%Z /\
  (1%Z <> 0%Z ->
   forall c, c ∈ drop (Z.to_nat 1) (colvecs unit_then_skew) ->
     norm (residual (leftCols unit_then_skew (Z.to_nat 1)) c) <> 0) /\
  (partial_orthogonalisation 1%Z unit_then_skew).2 = Done tt /\
  (forall q, q ∈ colvecs (partial_orthogonalisation 1%Z unit_then_skew).1 ->
     in_span (rows unit_then_skew) (colvecs unit_then_skew) q) /\
  (forall c, c ∈ colvecs unit_then_skew ->
     in_span (rows unit_then_skew)
       (colvecs (partial_orthogonalisation 1%Z unit_then_skew).1) c).
Proof.
  split; [exact wf_unit_then_skew|]. split; [exact unit_then_skew_in_range|].
  split; [exact unit_then_skew_residuals|].
  exact (partial_orthogonalisation_column_space unit_then_skew 1%Z
           wf_unit_then_skew unit_then_skew_in_range
           unit_then_skew_residuals).
Defined.

Lemma JensWehner_size_check_witness :
  (0 <= 0 < cols wide_row)%Z /\
  ((length (colvecs wide_row) - Z.to_nat 0 <= rows wide_row)%nat ->
   (JensWehner_orthogonalisation unit_factor 0%Z wide_row).2
     <> Abort IndexOutOfRange) /\
  ((rows wide_row < length (colvecs wide_row) - Z.to_nat 0)%nat ->
   (0%Z <> 0%Z ->
    forall c, c ∈ drop (Z.to_nat 0) (colvecs wide_row) ->
      norm (residual (leftCols wide_row (Z.to_nat 0)) c) <> 0) ->
   (JensWehner_orthogonalisation unit_factor 0%Z wide_row).2
     = Abort IndexOutOfRange).
Proof.
  assert (0 <= 0 < cols wide_row)%Z as HL by (apply in_range_0; simpl; lia).
  split; [exact HL|].
  exact (JensWehner_size_check unit_factor wide_row 0%Z HL).
Defined.

End FurtherSampleInputs.

(** * The routines on complex matrices *)

(** ** Complex vectors *)

Section ComplexVectors.

Local Open Scope R_scope.

Implicit Types (u v w c : Vector C) (a b x y : C) (n : nat).

Lemma length_vzero_C n : length (vzero (K:=C) n) = n.
Proof. apply length_replicate. Qed.

Lemma length_vadd_C u v : length u = length v -> length (vadd u v) = length v.
Proof. intros E. unfold vadd. rewrite length_zip_with. lia. Qed.

Lemma length_vsub_C u v : length u = length v -> length (vsub u v) = length v.
Proof. intros E. unfold vsub. rewrite length_zip_with. lia. Qed.

Lemma length_vscale_C a v : length (vscale a v) = length v.
Proof. apply length_map. Qed.

Lemma vadd_comm_C u v : vadd u v = vadd v u.
Proof.
  revert v. induction u as [|x u IH]; intros [|y v]; simpl; try done.
  f_equal; [csolve|apply IH].
Qed.

Lemma vadd_assoc_C u v w : vadd u (vadd v w) = vadd (vadd u v) w.
Proof.
  revert v w. induction u as [|x u IH]; intros [|y v] [|z w]; simpl; try done.
  f_equal; [csolve|apply IH].
Qed.

Lemma vadd_zero_r_C n v : length v = n -> vadd v (vzero n) = v.
Proof.
  intros <-. induction v as [|x v IH]; simpl; [done|].
  f_equal; [csolve|apply IH].
Qed.

Lemma vadd_zero_l_C n v : length v = n -> vadd (vzero n) v = v.
Proof. intros E. rewrite vadd_comm_C. by apply vadd_zero_r_C. Qed.

Lemma vscale_plus_C a b v :
  vscale (sadd a b) v = vadd (vscale a v) (vscale b v).
Proof. induction v as [|x v IH]; simpl; [done|]. f_equal; [csolve|apply IH]. Qed.

Lemma vscale_vadd_C a u v :
  vscale a (vadd u v) = vadd (vscale a u) (vscale a v).
Proof.
  revert v. induction u as [|x u IH]; intros [|y v]; simpl; try done.
  f_equal; [csolve|apply IH].
Qed.

Lemma vscale_vscale_C a b v : vscale a (vscale b v) = vscale (smul a b) v.
Proof. induction v as [|x v IH]; simpl; [done|]. f_equal; [csolve|apply IH]. Qed.

Lemma vscale_0_C v : vscale s0 v = vzero (length v).
Proof.
  unfold vzero. induction v as [|x v IH]; simpl; [done|].
  f_equal; [csolve|apply IH].
Qed.

Lemma vscale_1_C v : vscale s1 v = v.
Proof. induction v as [|x v IH]; simpl; [done|]. f_equal; [csolve|apply IH]. Qed.

Lemma vsub_vadd_opp_C u v : vsub u v = vadd u (vscale (-1, 0) v).
Proof.
  revert v. induction u as [|x u IH]; intros [|y v]; simpl; try done.
  f_equal; [csolve|apply IH].
Qed.

Lemma vsub_vadd_cancel_C u v : length u = length v -> vadd (vsub u v) v = u.
Proof.
  revert v. induction u as [|x u IH]; intros [|y v] E; try done.
  simpl in E. simpl. f_equal; [csolve|]. apply IH. lia.
Qed.

Lemma vsub_eq_zero_C u v :
  length u = length v -> vsub u v = vzero (length v) -> u = v.
Proof.
  revert v. induction u as [|x u IH]; intros [|y v] E; try done.
  simpl in E. unfold vzero. simpl. intros Hz.
  injection Hz as Hx1 Hx2 Hz. f_equal; [csolve|]. apply IH; [lia|done].
Qed.

(** *** The Hermitian inner product and the norm *)

Lemma dot_cons_C x u y v :
  dot (x :: u) (y :: v) = sadd (smul (sconj x) y) (dot u v).
Proof. reflexivity. Qed.

Lemma dot_conj_C u v : dot u v = sconj (dot v u).
Proof.
  revert v. induction u as [|x u IH]; intros [|y v];
    try (unfold dot; simpl; f_equal; lra).
  rewrite !dot_cons_C, IH. destruct (dot v u). csolve.
Qed.

Lemma dot_vadd_r_C w u v :
  length u = length v -> dot w (vadd u v) = sadd (dot w u) (dot w v).
Proof.
  revert u v. induction w as [|z w IH]; intros [|x u] [|y v] E; try done;
    try (unfold dot; simpl; f_equal; lra).
  simpl in E. change (vadd (x :: u) (y :: v)) with (sadd x y :: vadd u v).
  rewrite !dot_cons_C, IH by lia. destruct (dot w u), (dot w v). csolve.
Qed.

Lemma dot_vscale_r_C w a u : dot w (vscale a u) = smul a (dot w u).
Proof.
  revert u. induction w as [|z w IH]; intros [|x u];
    try (unfold dot; destruct a; simpl; f_equal; lra).
  change (vscale a (x :: u)) with (smul a x :: vscale a u).
  rewrite !dot_cons_C, IH. destruct (dot w u). csolve.
Qed.

Lemma dot_vzero_r_C w n : dot w (vzero n) = s0.
Proof.
  revert n. induction w as [|z w IH]; intros [|n]; try done.
  change (vzero (S n)) with (s0 :: vzero (K:=C) n).
  rewrite dot_cons_C, IH. csolve.
Qed.

Lemma dot_vsub_r_C w u v :
  length u = length v -> dot w (vsub u v) = ssub (dot w u) (dot w v).
Proof.
  intros E. rewrite vsub_vadd_opp_C, dot_vadd_r_C, dot_vscale_r_C.
  - destruct (dot w u), (dot w v). csolve.
  - by rewrite length_vscale_C.
Qed.

Lemma dot_vscale_l_C w a u : dot (vscale a u) w = smul (sconj a) (dot u w).
Proof.
  rewrite dot_conj_C, dot_vscale_r_C, (dot_conj_C u w).
  destruct (dot w u). csolve.
Qed.

Lemma dot_self_C v : dot v v = (squaredNorm v, 0).
Proof.
  induction v as [|x v IH]; [done|].
  rewrite dot_cons_C, IH.
  change (squaredNorm (x :: v)) with (sabs2 x + squaredNorm v).
  csolve.
Qed.

Lemma squaredNorm_nonneg_C v : 0 <= squaredNorm v.
Proof.
  induction v as [|x v IH]; [unfold squaredNorm; simpl; lra|].
  change (0 <= sabs2 x + squaredNorm v). destruct x as [x1 x2]. simpl. nra.
Qed.

Lemma squaredNorm_zero_C v : squaredNorm v = 0 -> v = vzero (length v).
Proof.
  induction v as [|x v IH]; [done|].
  change (sabs2 x + squaredNorm v = 0 -> x :: v = s0 :: vzero (length v)).
  intros E. pose proof (squaredNorm_nonneg_C v). destruct x as [x1 x2].
  simpl in E.
  assert (x1 = 0) by nra. assert (x2 = 0) by nra.
  assert (squaredNorm v = 0) by nra.
  f_equal; [simpl; by f_equal|auto].
Qed.

Lemma squaredNorm_vzero_C n : squaredNorm (vzero (K:=C) n) = 0.
Proof.
  induction n as [|n IH]; [done|].
  change (sabs2 (K:=C) s0 + squaredNorm (vzero (K:=C) n) = 0). rewrite IH.
  simpl. lra.
Qed.

Lemma norm_zero_iff_C v : norm v = 0 <-> v = vzero (length v).
Proof.
  unfold norm. split.
  - intros E. apply squaredNorm_zero_C.
    apply sqrt_eq_0; [apply squaredNorm_nonneg_C|done].
  - intros ->. rewrite squaredNorm_vzero_C. apply sqrt_0.
Qed.

Lemma norm_sqr_C v : norm v * norm v = squaredNorm v.
Proof. apply sqrt_sqrt, squaredNorm_nonneg_C. Qed.

Lemma normalized_vscale_C v : normalized v = vscale (/ norm v, 0) v.
Proof.
  unfold normalized, vscale. apply map_ext. intros [x1 x2]. simpl.
  unfold Rdiv. f_equal; lra.
Qed.

Lemma normalize_Done_C v :
  norm v <> 0 -> normalize v = Done (vscale (/ norm v, 0) v).
Proof.
  intros Hv. unfold normalize. destruct (Req_dec_T _ _) as [E|_]; [done|].
  by rewrite normalized_vscale_C.
Qed.

Lemma dot_normalized_C v :
  norm v <> 0 -> dot (vscale (/ norm v, 0) v) (vscale (/ norm v, 0) v) = s1.
Proof.
  intros Hv. rewrite dot_vscale_l_C, dot_vscale_r_C, dot_self_C.
  rewrite <- norm_sqr_C. simpl. f_equal; by field.
Qed.

End ComplexVectors.

(** ** Complex spans and independence *)

Section ComplexSpans.

Local Open Scope R_scope.

Local Abbreviation lc n cs a := (mat_vec (mkMatrix n cs) a).
Local Abbreviation cwf n cs := (Forall (fun c : Vector C => length c = n) cs).

Implicit Types (u v w c q : Vector C) (a b x y : C) (n : nat).
Implicit Types (cs B P : list (Vector C)) (ws : list C).

Lemma vscale_zero_C a n : vscale a (vzero n) = vzero n.
Proof.
  unfold vzero. induction n as [|n IH]; simpl; [done|].
  f_equal; [csolve|apply IH].
Qed.

Lemma lc_nil_l_C n ws : lc n [] ws = vzero n.
Proof. unfold mat_vec. simpl. by rewrite zip_with_nil_r. Qed.

Lemma lc_cons_C n c cs x ws :
  lc n (c :: cs) (x :: ws) = vadd (vscale x c) (lc n cs ws).
Proof. reflexivity. Qed.

Lemma length_lc_C n cs ws : cwf n cs -> length (lc n cs ws) = n.
Proof.
  intros Hcs. revert ws. induction Hcs as [|c cs Hc Hcs IH]; intros [|x ws];
    try apply length_vzero_C.
  rewrite lc_cons_C, length_vadd_C; [apply IH|].
  by rewrite length_vscale_C, IH.
Qed.

Lemma in_span_length_C n B v : in_span n B v -> length v = n.
Proof.
  induction 1 as [|b Hb Hl|u v Hu IHu Hv IHv|a u Hu IHu].
  - apply length_vzero_C.
  - done.
  - rewrite length_vadd_C; congruence.
  - by rewrite length_vscale_C.
Qed.

Lemma in_span_trans_C n B B' v :
  (forall g : Vector C, g ∈ B -> in_span n B' g) ->
  in_span n B v -> in_span n B' v.
Proof.
  intros HB. induction 1 as [|b Hb Hl|u v Hu IHu Hv IHv|a u Hu IHu].
  - apply span_zero.
  - by apply HB.
  - by apply span_add.
  - by apply span_scale.
Qed.

Lemma in_span_mono_C n B B' v :
  B ⊆ B' -> in_span n B v -> in_span n B' v.
Proof.
  intros HB. induction 1 as [|b Hb Hl|u v Hu IHu Hv IHv|a u Hu IHu].
  - apply span_zero.
  - apply span_gen; [by apply HB|done].
  - by apply span_add.
  - by apply span_scale.
Qed.

Lemma in_span_vsub_C n B u v :
  in_span n B u -> in_span n B v -> in_span n B (vsub u v).
Proof.
  intros Hu Hv. rewrite vsub_vadd_opp_C. apply span_add; [done|].
  by apply span_scale.
Qed.

Lemma in_span_lc_C n cs ws : cwf n cs -> in_span n cs (lc n cs ws).
Proof.
  intros Hcs. revert ws. induction Hcs as [|c cs Hc Hcs IH]; intros [|x ws];
    try apply span_zero.
  rewrite lc_cons_C. apply span_add.
  - apply span_scale, span_gen; [constructor|done].
  - eapply in_span_mono_C; [|apply IH]. intros g Hg. by constructor.
Qed.

Lemma vadd_shuffle_C u v w c :
  vadd (vadd u v) (vadd w c) = vadd (vadd u w) (vadd v c).
Proof.
  revert v w c. induction u as [|x u IH]; intros [|y v] [|z w] [|t c];
    simpl; try done.
  f_equal; [csolve|apply IH].
Qed.

Lemma lc_zeros_C n B k : cwf n B -> lc n B (replicate k s0) = vzero n.
Proof.
  intros HB. revert k. induction HB as [|c B Hc HB IH]; intros [|k]; try done.
  change (replicate (S k) (s0 : C)) with ((s0 : C) :: replicate k s0).
  rewrite lc_cons_C, IH, vscale_0_C, Hc. apply vadd_zero_r_C, length_vzero_C.
Qed.

Lemma lc_add_C n B ws ws' :
  cwf n B -> length ws = length ws' ->
  lc n B (zip_with sadd ws ws') = vadd (lc n B ws) (lc n B ws').
Proof.
  intros HB. revert ws ws'.
  induction HB as [|c B Hc HB IH]; intros [|x ws] [|y ws'] E; try done;
    try (symmetry; apply vadd_zero_r_C, length_vzero_C).
  simpl in E. change (zip_with sadd (x :: ws) (y :: ws'))
    with (sadd x y :: zip_with sadd ws ws').
  rewrite !lc_cons_C, IH, vscale_plus_C by lia. apply vadd_shuffle_C.
Qed.

Lemma lc_scale_C n B a ws :
  lc n B (map (smul a) ws) = vscale a (lc n B ws).
Proof.
  revert ws. induction B as [|c B IH]; intros [|x ws];
    try (symmetry; apply vscale_zero_C).
  change (map (smul a) (x :: ws)) with (smul a x :: map (smul a) ws).
  by rewrite !lc_cons_C, IH, vscale_vadd_C, vscale_vscale_C.
Qed.

Lemma lc_app_C n B B' ws ws' :
  length ws = length B -> cwf n B' ->
  lc n (B ++ B') (ws ++ ws') = vadd (lc n B ws) (lc n B' ws').
Proof.
  intros E HB'. revert ws E. induction B as [|c B IH]; intros [|x ws] E; try done.
  - simpl. rewrite lc_nil_l_C. symmetry. by apply vadd_zero_l_C, length_lc_C.
  - simpl in E. change (lc n (c :: (B ++ B')) (x :: (ws ++ ws')) =
                        vadd (lc n (c :: B) (x :: ws)) (lc n B' ws')).
    rewrite !lc_cons_C, IH by lia. apply vadd_assoc_C.
Qed.

Lemma span_coeffs_C n B v :
  cwf n B -> in_span n B v -> exists ws, length ws = length B /\ lc n B ws = v.
Proof.
  intros HB. induction 1 as [|g Hg Hl|u v Hu [wu [Eu <-]] Hv [wv [Ev <-]]
                             |a u Hu [wu [Eu <-]]].
  - exists (replicate (length B) s0). split; [apply length_replicate|].
    by apply lc_zeros_C.
  - apply list_elem_of_split in Hg as (B1 & B2 & ->).
    apply Forall_app in HB as [HB1 HB2]. apply Forall_cons in HB2 as [_ HB2].
    exists (replicate (length B1) s0 ++ s1 :: replicate (length B2) s0). split.
    + rewrite !length_app. simpl. by rewrite !length_replicate.
    + rewrite lc_app_C by (by rewrite ?length_replicate; try constructor).
      rewrite lc_cons_C, !lc_zeros_C, vscale_1_C by done.
      rewrite vadd_zero_r_C, vadd_zero_l_C; by rewrite ?length_vzero_C.
  - exists (zip_with sadd wu wv). split.
    + rewrite length_zip_with. lia.
    + apply lc_add_C; [done|congruence].
  - exists (map (smul a) wu). split.
    + by rewrite length_map.
    + apply lc_scale_C.
Qed.

(** No column of a linearly independent complex family lies in the span
    of the columns before it. *)
Lemma lin_indep_prefix_C n cs k c :
  lin_indep n cs -> cwf n cs -> cs !! k = Some c ->
  ~ in_span n (take k cs) c.
Proof.
  intros Hli Hcs Hk Hspan.
  pose proof (lookup_lt_Some _ _ _ Hk) as Hlt.
  pose proof (take_drop_middle _ _ _ Hk) as Hsplit.
  assert (cwf n (take k cs)) as Htk by by apply Forall_take.
  assert (cwf n (drop (S k) cs)) as Hdk by by apply Forall_drop.
  assert (length c = n) as Hc by (eapply Forall_lookup_1 in Hcs; eauto).
  destruct (span_coeffs_C _ _ _ Htk Hspan) as (ws & Ews & Hws).
  rewrite length_take in Ews.
  set (a' := @map C C (smul (-1, 0)) ws ++
               @s1 C _ :: replicate (length cs - S k) (@s0 C _)).
  assert (Forall (fun x => x = s0) a') as Hall.
  { apply Hli.
    - unfold a'. rewrite length_app, length_map, length_cons, length_replicate.
      lia.
    - rewrite <- Hsplit at 1. unfold a'.
      rewrite lc_app_C; [|rewrite length_map, length_take; lia|by constructor].
      rewrite lc_cons_C, lc_scale_C, Hws, lc_zeros_C by done.
      rewrite vadd_zero_r_C by (by rewrite length_vscale_C).
      rewrite <- vscale_plus_C.
      replace (sadd (-1, 0) s1) with (s0 : C) by (simpl; f_equal; lra).
      by rewrite vscale_0_C, Hc. }
  assert (a' !! k = Some s1) as Hone.
  { unfold a'. rewrite lookup_app_r; rewrite length_map; [|lia].
    by replace (k - length ws)%nat with 0%nat by lia. }
  eapply Forall_lookup_1 in Hall; [|exact Hone]. simpl in Hall.
  injection Hall as Hall. lra.
Qed.

Lemma orthonormal_snoc_C P q :
  orthonormal P -> (forall p, p ∈ P -> dot p q = s0) -> dot q q = s1 ->
  orthonormal (P ++ [q]).
Proof.
  intros HP Hq Hqq i j ci cj Hi Hj.
  destruct (decide (i < length P)%nat) as [Hil|Hil];
    destruct (decide (j < length P)%nat) as [Hjl|Hjl].
  - rewrite lookup_app_l in Hi, Hj by done. by apply HP.
  - rewrite lookup_app_l in Hi by done. rewrite lookup_app_r in Hj by lia.
    destruct (j - length P)%nat eqn:E; [|done]. injection Hj as <-.
    rewrite decide_False by lia. apply Hq. by eapply list_elem_of_lookup_2.
  - rewrite lookup_app_l in Hj by done. rewrite lookup_app_r in Hi by lia.
    destruct (i - length P)%nat eqn:E; [|done]. injection Hi as <-.
    rewrite decide_False by lia. rewrite dot_conj_C, Hq.
    + simpl. f_equal; lra.
    + by eapply list_elem_of_lookup_2.
  - rewrite lookup_app_r in Hi, Hj by lia.
    destruct (i - length P)%nat eqn:Ei; [|done].
    destruct (j - length P)%nat eqn:Ej; [|done].
    injection Hi as <-. injection Hj as <-.
    rewrite decide_True by lia. done.
Qed.

End ComplexSpans.

(** ** The modified Gram-Schmidt process on complex matrices *)

Section ComplexMGS.

Local Open Scope R_scope.

Local Abbreviation cwf n cs := (Forall (fun c : Vector C => length c = n) cs).

Implicit Types (u v w c q : Vector C) (n : nat) (m : Matrix C).
Implicit Types (cs P B : list (Vector C)).

Lemma GS_inv_init_C n m :
  wf m -> rows m = n -> GS_inv n (colvecs m) 0 m.
Proof.
  intros Hwf Hn. unfold wf in Hwf. rewrite Hn in Hwf.
  split; [done|]. split; [done|]. split; [done|]. split; [|split; [done|]].
  - intros i j ci cj Hi. by rewrite take_0 in Hi.
  - intros q Hq. rewrite take_0 in Hq. by apply elem_of_nil in Hq.
Qed.

Lemma GS_inv_col_C n cs0 j m c :
  GS_inv n cs0 j m -> cs0 !! j = Some c -> colvecs m !! j = Some c.
Proof.
  intros (_ & _ & _ & _ & Hd & _) Hc.
  rewrite <- (Nat.add_0_r j), <- lookup_drop, Hd, lookup_drop.
  by rewrite Nat.add_0_r.
Qed.

Lemma GS_inv_not_span_C n cs0 j m c :
  lin_indep n cs0 -> cwf n cs0 -> GS_inv n cs0 j m -> cs0 !! j = Some c ->
  ~ in_span n (take j (colvecs m)) c.
Proof.
  intros Hli Hcs (_ & _ & _ & _ & _ & Hsp) Hc Hin.
  eapply lin_indep_prefix_C; [exact Hli|done|exact Hc|].
  eapply in_span_trans_C; [exact Hsp|exact Hin].
Qed.

Lemma GS_inv_extend_C n cs0 j m v :
  GS_inv n cs0 j m -> (j < length cs0)%nat ->
  length v = n -> norm v <> 0 ->
  (forall p, p ∈ take j (colvecs m) -> dot p v = s0) ->
  in_span n (take (S j) cs0) v ->
  GS_inv n cs0 (S j)
    (mkMatrix (rows m) (<[j := vscale (/ norm v, 0) v]> (colvecs m))).
Proof.
  intros (Hr & Hwf & Hlen & Hon & Hd & Hsp) Hj Hv Hnv Horth Hin.
  assert (take (S j) (<[j := vscale (/ norm v, 0) v]> (colvecs m))
          = take j (colvecs m) ++ [vscale (/ norm v, 0) v]) as Htake.
  { erewrite take_S_r; [|apply list_lookup_insert_eq; lia].
    by rewrite take_insert_ge. }
  unfold GS_inv. simpl. rewrite Htake.
  split; [|split; [|split; [|split; [|split]]]].
  - done.
  - apply Forall_insert; [done|]. by rewrite length_vscale_C.
  - by rewrite length_insert.
  - apply orthonormal_snoc_C; [done| |by apply dot_normalized_C].
    intros p Hp. rewrite dot_vscale_r_C, Horth by done. simpl. f_equal; lra.
  - rewrite drop_insert_lt by lia.
    replace (S j) with (j + 1)%nat by lia.
    by rewrite <- !drop_drop, Hd.
  - intros q Hq. apply elem_of_app in Hq as [Hq|Hq].
    + eapply in_span_mono_C; [apply take_S_subseteq|]. by apply Hsp.
    + apply list_elem_of_singleton in Hq as ->. by apply span_scale.
Qed.

Section IndependentC.

Variables (n : nat) (cs0 : list (Vector C)).
Hypothesis Hcs0 : cwf n cs0.
Hypothesis Hli : lin_indep n cs0.

Lemma GS_inv_generator_C j c :
  cs0 !! j = Some c -> in_span n (take (S j) cs0) c.
Proof.
  intros Hc. apply span_gen.
  - apply (list_elem_of_lookup_2 _ j). apply lookup_take_Some. split; [done|lia].
  - by eapply Forall_lookup_1 in Hcs0.
Qed.

(** The bootstrap: column 0 of an independent family is not zero. *)
Lemma treatFirstCol_0_spec_C m :
  rows m = n -> colvecs m = cs0 -> (0 < length cs0)%nat ->
  exists m', treatFirstCol 0%Z m = (m', Done 1%Z) /\ GS_inv n cs0 1 m'.
Proof.
  intros Hr Hcs Hne.
  destruct (lookup_lt_is_Some_2 cs0 0 Hne) as [c Hc].
  assert (GS_inv n cs0 0 m) as Hinv.
  { rewrite <- Hcs. apply GS_inv_init_C; [|done]. unfold wf. by rewrite Hr, Hcs. }
  assert (length c = n) as Hlc by (by eapply Forall_lookup_1 in Hcs0).
  assert (norm c <> 0) as Hnc.
  { intros E. apply norm_zero_iff_C in E.
    apply (lin_indep_prefix_C n cs0 0 c Hli Hcs0 Hc).
    rewrite E, Hlc. apply span_zero. }
  eexists. split.
  - unfold treatFirstCol. simpl.
    erewrite bind_done; [reflexivity|].
    eapply normalize_col_run; [by rewrite Hcs|by apply normalize_Done_C].
  - apply GS_inv_extend_C; try done.
    + intros p Hp. rewrite take_0 in Hp. by apply elem_of_nil in Hp.
    + by apply GS_inv_generator_C.
Qed.

(** The inner loop, one projection at a time: conjugating the first
    argument of the inner product is what makes the component along a
    treated column vanish. *)
Lemma MGS_step_spec_C m k j :
  GS_inv n cs0 k m -> (j < k)%nat -> (k < length cs0)%nat ->
  hoare (MGS_inv n cs0 (colvecs m) k j) (MGS_step k j)
    (fun m' o => o = Done tt /\ MGS_inv n cs0 (colvecs m) k (S j) m').
Proof.
  intros (Hr & Hwf & Hlen & Hon & Hd & Hsp) Hj Hk m1 (v & -> & Hv & Hns & Hin & Ho).
  destruct (lookup_lt_is_Some_2 (colvecs m) j) as [q Hq]; [lia|].
  assert (take k (colvecs m) !! j = Some q) as Hqt
    by (apply lookup_take_Some; split; [done|lia]).
  assert (length q = n) as Hlq by (by eapply Forall_lookup_1 in Hwf).
  assert (in_span n (take k (colvecs m)) (vscale (dot q v) q)) as Hqs.
  { apply span_scale, span_gen; [|done]. by eapply list_elem_of_lookup_2. }
  erewrite MGS_step_run; simpl.
  2: { rewrite list_lookup_insert_ne by lia. exact Hq. }
  2: { apply list_lookup_insert_eq. lia. }
  split; [done|]. exists (vsub v (vscale (dot q v) q)).
  split; [by rewrite list_insert_insert_eq|].
  split; [by rewrite length_vsub_C; rewrite length_vscale_C; congruence|].
  split; [|split].
  - intros Hin'. apply Hns.
    rewrite <- (vsub_vadd_cancel_C v (vscale (dot q v) q))
      by (rewrite length_vscale_C; congruence).
    by apply span_add.
  - apply in_span_vsub_C; [done|].
    eapply in_span_mono_C; [apply take_S_subseteq|].
    eapply in_span_trans_C; [exact Hsp|exact Hqs].
  - intros i qi Hi Hqi.
    assert (length qi = n) as Hlqi by (by eapply Forall_lookup_1 in Hwf).
    rewrite dot_vsub_r_C, dot_vscale_r_C by (rewrite length_vscale_C; congruence).
    assert (take k (colvecs m) !! i = Some qi) as Hqit
      by (apply lookup_take_Some; split; [done|lia]).
    rewrite (Hon i j qi q Hqit Hqt).
    destruct (decide (i = j)) as [->|Hne].
    + replace qi with q by congruence. destruct (dot q v). simpl. f_equal; lra.
    + rewrite (Ho i qi) by (done || lia). destruct (dot q v). simpl.
      f_equal; lra.
Qed.

Lemma MGS_body_spec_C k :
  (k < length cs0)%nat ->
  hoare (GS_inv n cs0 k)
    (bind (for_range 0 k (MGS_step k)) (fun _ => normalize_col k))
    (fun m' o => o = Done tt /\ GS_inv n cs0 (S k) m').
Proof.
  intros Hk m Hinv.
  destruct (lookup_lt_is_Some_2 cs0 k Hk) as [c Hc].
  pose proof (GS_inv_col_C _ _ _ _ _ Hinv Hc) as Hmc.
  pose proof (GS_inv_not_span_C _ _ _ _ _ Hli Hcs0 Hinv Hc) as Hns.
  assert (length c = n) as Hlc by (by eapply Forall_lookup_1 in Hcs0).
  assert (MGS_inv n cs0 (colvecs m) k 0 m) as Hstart.
  { exists c. split; [|split; [done|split; [done|split]]].
    - rewrite list_insert_id by done. destruct Hinv as [<- _]. by destruct m.
    - by apply GS_inv_generator_C.
    - intros i q Hi. lia. }
  assert (hoare (MGS_inv n cs0 (colvecs m) k 0) (for_range 0 k (MGS_step k))
            (fun m' o => o = Done tt /\ MGS_inv n cs0 (colvecs m) k k m'))
    as Hloop.
  { apply hoare_for_range; [lia| |done].
    intros j Hj. eapply hoare_weaken; [apply MGS_step_spec_C; [done|lia|done]|done|].
    intros m' o [-> Hm']. exact Hm'. }
  specialize (Hloop m Hstart). simpl in Hloop.
  destruct (for_range 0 k (MGS_step k) m) as [m1 o1] eqn:Erun.
  simpl in Hloop. destruct Hloop as [-> (v & -> & Hv & Hnsv & Hin & Ho)].
  unfold bind. rewrite Erun.
  assert (norm v <> 0) as Hnv.
  { intros E. apply norm_zero_iff_C in E. apply Hnsv.
    rewrite E, Hv. apply span_zero. }
  pose proof Hinv as (Hr & Hwf & Hlen & _).
  erewrite normalize_col_run; simpl.
  2: { apply list_lookup_insert_eq. lia. }
  2: { by apply normalize_Done_C. }
  split; [done|]. rewrite list_insert_insert_eq.
  pose proof (GS_inv_extend_C n cs0 k m v Hinv Hk Hv Hnv) as Hext.
  rewrite Hr in Hext. apply Hext; [|done].
  intros p Hp. apply list_elem_of_lookup in Hp as [i Hi].
  apply lookup_take_Some in Hi as [Hi Hik]. by eapply Ho.
Qed.

Lemma MGS_run_C m L :
  rows m = n -> colvecs m = cs0 -> (0 <= L < cols m)%Z ->
  orthonormal (take (Z.to_nat L) cs0) ->
  exists m', MGS_orthogonalisation L m = (m', Done tt) /\
             GS_inv n cs0 (length cs0) m'.
Proof.
  intros Hr Hcs HL Ho. unfold MGS_orthogonalisation.
  rewrite (bind_done _ _ m m tt) by by apply assert_leftColsToSkip_accepts.
  unfold cols in HL. rewrite Hcs in HL.
  assert (exists m1 L', treatFirstCol L m = (m1, Done L') /\
            (Z.to_nat L' <= length cs0)%nat /\
            GS_inv n cs0 (Z.to_nat L') m1) as (m1 & L' & Hrun & HL' & Hinv).
  { destruct (decide (L = 0%Z)) as [->|HL0].
    - destruct (treatFirstCol_0_spec_C m Hr Hcs ltac:(lia)) as (m1 & Hrun & Hinv).
      exists m1, 1%Z. split; [done|]. split; [lia|done].
    - exists m, L. unfold treatFirstCol.
      destruct (Z.eqb_spec L 0) as [?|_]; [done|]. split; [done|].
      split; [lia|]. unfold GS_inv. rewrite Hcs.
      split; [done|]. split; [done|]. split; [done|].
      split; [done|]. split; [done|].
      intros q Hq. apply span_gen; [done|].
      apply list_elem_of_lookup in Hq as [i Hi].
      apply lookup_take_Some in Hi as [Hi _].
      exact (Forall_lookup_1 _ _ _ _ Hcs0 Hi). }
  rewrite (bind_done _ _ _ _ _ Hrun). unfold get at 1, bind at 1.
  pose proof Hinv as (_ & _ & -> & _).
  assert (hoare (GS_inv n cs0 (Z.to_nat L'))
            (for_range (Z.to_nat L') (length cs0)
               (fun k => bind (for_range 0 k (MGS_step k))
                           (fun _ => normalize_col k)))
            (fun m' o => o = Done tt /\ GS_inv n cs0 (length cs0) m')) as Hloop.
  { apply hoare_for_range; [lia| |done].
    intros k Hk. eapply hoare_weaken; [apply MGS_body_spec_C; lia|done|].
    intros m' o [-> Hm']. exact Hm'. }
  specialize (Hloop m1 Hinv). simpl in Hloop.
  match goal with |- context [for_range _ _ ?b m1] =>
    destruct (for_range (Z.to_nat L') (length cs0) b m1) as [m' o] end.
  simpl in Hloop. destruct Hloop as [-> Hfin]. by exists m'.
Qed.

End IndependentC.

(** X22. On every complex matrix with linearly independent columns whose
    first [L] columns are orthonormal for the Hermitian inner product
    ([0 <= L < m]), [MGS_orthogonalisation] returns normally; the columns
    it leaves are orthonormal for the Hermitian inner product, the first
    [L] are those of the input, and each is a combination of the columns
    of the input.  Conjugating with [dot], the modified process does over
    the complex numbers what the classical one, which transposes, does
    over the reals only. *)
Theorem MGS_complex_orthonormal_columns (m : Matrix C) (L : Index) :
  wf m -> lin_indep (rows m) (colvecs m) -> (0 <= L < cols m)%Z ->
  orthonormal (take (Z.to_nat L) (colvecs m)) ->
  exists m',
    MGS_orthogonalisation L m = (m', Done tt) /\
    length (colvecs m') = length (colvecs m) /\
    take (Z.to_nat L) (colvecs m') = take (Z.to_nat L) (colvecs m) /\
    orthonormal (colvecs m') /\
    forall q, q ∈ colvecs m' -> in_span (rows m) (colvecs m) q.
Proof.
  intros Hwf Hli HL Ho.
  destruct (MGS_run_C _ _ Hwf Hli m L eq_refl eq_refl HL Ho)
    as (m' & Hrun & (_ & _ & Hlen & Hon & _ & Hsp)).
  exists m'. split; [done|]. split; [done|]. split; [|split].
  - unfold cols in HL.
    assert (frame (Z.to_nat L) (length (colvecs m))
              (take (Z.to_nat L) (colvecs m)) m) as Hm by done.
    destruct (framed_MGS _ L _ HL m Hm) as [[_ Hpre] _].
    by rewrite Hrun in Hpre.
  - by rewrite <- Hlen, firstn_all in Hon.
  - intros q Hq. rewrite <- (firstn_all (colvecs m)). apply Hsp.
    by rewrite <- Hlen, firstn_all.
Qed.

End ComplexMGS.

(** ** The transposing projection on complex matrices *)

Section ComplexTranspose.

Local Open Scope R_scope.

Local Abbreviation lc n cs a := (mat_vec (mkMatrix n cs) a).
Local Abbreviation cwf n cs := (Forall (fun c : Vector C => length c = n) cs).

Implicit Types (u v w c q p : Vector C) (n : nat) (m : Matrix C).
Implicit Types (cs P B : list (Vector C)) (ws : list C).

Lemma dot_lc_orth_C n cs ws u :
  cwf n cs -> (forall c, c ∈ cs -> dot u c = s0) -> dot u (lc n cs ws) = s0.
Proof.
  intros Hcs. revert ws. induction Hcs as [|c cs Hc Hcs IH]; intros [|x ws] Hu;
    try apply dot_vzero_r_C.
  rewrite lc_cons_C, dot_vadd_r_C, dot_vscale_r_C.
  - rewrite Hu by constructor. rewrite IH; [csolve|].
    intros c' Hc'. apply Hu. by constructor.
  - by rewrite length_vscale_C, length_lc_C.
Qed.

Lemma dot_lc_select_C n cs ws u i x :
  cwf n cs ->
  (forall k c, cs !! k = Some c -> dot u c = if decide (k = i) then s1 else s0) ->
  ws !! i = Some x -> (i < length cs)%nat ->
  dot u (lc n cs ws) = x.
Proof.
  intros Hcs. revert ws i.
  induction Hcs as [|c cs Hc Hcs IH]; intros [|y ws] i Hu Hx Hi; try done;
    simpl in Hi; try lia.
  rewrite lc_cons_C, dot_vadd_r_C, dot_vscale_r_C
    by (by rewrite length_vscale_C, length_lc_C).
  destruct i as [|i]; simpl in Hx.
  - injection Hx as ->. rewrite (Hu 0%nat c eq_refl). simpl decide.
    rewrite dot_lc_orth_C; [csolve|done|].
    intros c' Hc'. apply list_elem_of_lookup in Hc' as [k Hk].
    by rewrite (Hu (S k) c' Hk).
  - rewrite (Hu 0%nat c eq_refl). simpl decide.
    rewrite (IH ws i); [csolve| |done|lia].
    intros k c' Hk. rewrite (Hu (S k) c' Hk).
    destruct (decide (k = i)), (decide (S k = S i)); try done; lia.
Qed.

Lemma trans_vec_lookup_C n P c i q :
  P !! i = Some q -> trans_vec (mkMatrix n P) c !! i = Some (tdot q c).
Proof.
  intros Hi. unfold trans_vec. simpl.
  change (((fun c0 => tdot c0 c) <$> P) !! i = Some (tdot q c)).
  by rewrite list_lookup_fmap, Hi.
Qed.

(** Along a column [p] of an orthonormal block, the transposing
    projection leaves the difference between the Hermitian product and
    the bilinear one. *)
Lemma dot_residual_C n P c i p :
  cwf n P -> orthonormal P -> length c = n -> P !! i = Some p ->
  dot p (residual (mkMatrix n P) c) = ssub (dot p c) (tdot p c).
Proof.
  intros HP Ho Hc Hi. unfold residual.
  rewrite dot_vsub_r_C by (by rewrite length_lc_C).
  rewrite (dot_lc_select_C n P _ p i (tdot p c)); [done|done| | |].
  - intros k c' Hk. rewrite (Ho i k p c' Hi Hk).
    destruct (decide (i = k)), (decide (k = i)); done.
  - by apply trans_vec_lookup_C.
  - by eapply lookup_lt_Some.
Qed.

(** X23. [partial_orthogonalisation] projects with the transpose, not
    the adjoint.  On a complex matrix whose first [L] columns are
    orthonormal for the Hermitian inner product ([1 <= L < m]) and whose
    other columns have non-zero residuals, it returns normally, and the
    Hermitian product of a skipped column [p] with the column that
    replaces [c] is the difference between the Hermitian and the bilinear
    product of [p] and [c], divided by the norm of the residual: the new
    column is orthogonal to [p] exactly when the two products agree. *)
Theorem partial_complex_components (m : Matrix C) (L : Index) :
  wf m -> (1 <= L < cols m)%Z ->
  orthonormal (take (Z.to_nat L) (colvecs m)) ->
  (forall c, c ∈ drop (Z.to_nat L) (colvecs m) ->
     norm (residual (leftCols m (Z.to_nat L)) c) <> 0) ->
  exists m',
    partial_orthogonalisation L m = (m', Done tt) /\
    forall k c i p,
      colvecs m !! (Z.to_nat L + k)%nat = Some c ->
      colvecs m !! i = Some p -> (i < Z.to_nat L)%nat ->
      exists c',
        colvecs m' !! (Z.to_nat L + k)%nat = Some c' /\
        dot p c' =
          smul (/ norm (residual (leftCols m (Z.to_nat L)) c), 0)
            (ssub (dot p c) (tdot p c)) /\
        (dot p c' = s0 <-> dot p c = tdot p c).
Proof.
  intros Hwf HL Ho Hnz. unfold cols in HL. set (l := Z.to_nat L) in *.
  assert (length (take l (colvecs m)) = l) as Hlt by (rewrite length_take; lia).
  eexists. split; [by apply partial_run|].
  simpl. fold l. intros k c i p Hc Hp Hi.
  set (r := residual (leftCols m l) c).
  assert (c ∈ drop l (colvecs m)) as Hin.
  { apply (list_elem_of_lookup_2 _ k). by rewrite lookup_drop. }
  pose proof (Hnz c Hin) as Hr. fold r in Hr.
  exists (normalized r).
  assert (dot p (normalized r) = smul (/ norm r, 0) (ssub (dot p c) (tdot p c)))
    as Hdot.
  { rewrite normalized_vscale_C, dot_vscale_r_C. f_equal.
    unfold r, leftCols. apply (dot_residual_C (rows m) _ c i p); try done.
    - by apply Forall_take.
    - exact (Forall_lookup_1 _ _ _ _ Hwf Hc).
    - by apply lookup_take_Some. }
  split; [|split; [exact Hdot|]].
  - rewrite lookup_app_r by (rewrite Hlt; lia). rewrite Hlt.
    replace (l + k - l)%nat with k by lia.
    etrans; [apply list_lookup_fmap|]. by rewrite lookup_drop, Hc.
  - rewrite Hdot. assert (/ norm r <> 0) as Hinv by by apply Rinv_neq_0_compat.
    destruct (dot p c) as [d1 d2], (tdot p c) as [t1 t2]. simpl. split.
    + intros E. injection E as E1 E2.
      assert (d1 - t1 = 0) by nra. assert (d2 - t2 = 0) by nra.
      f_equal; lra.
    + intros E. injection E as -> ->. f_equal; lra.
Qed.

End ComplexTranspose.

(** ** The complex properties at sample inputs *)

Section ComplexSampleInputs.

Local Open Scope R_scope.

Lemma complex_columns_indep :
  lin_indep (rows complex_columns) (colvecs complex_columns).
Proof.
  intros [|[a1 a2] [|[b1 b2] [|? ?]]] Hlen Hz; try done.
  unfold mat_vec, vadd, vscale, vzero in Hz. simpl in Hz.
  injection Hz as H1 H2 H3 H4.
  constructor; [|constructor; [|constructor]]; simpl; f_equal; lra.
Qed.

Lemma complex_orthonormal_prefix :
  orthonormal (take (Z.to_nat 1) (colvecs complex_orthonormal)).
Proof.
  intros i j ci cj Hi Hj.
  destruct i as [|i]; destruct j as [|j]; simpl in Hi, Hj; try done.
  injection Hi as <-. injection Hj as <-.
  rewrite decide_True by done. unfold dot. simpl. f_equal; lra.
Qed.

Lemma complex_orthonormal_residual c :
  c ∈ drop (Z.to_nat 1) (colvecs complex_orthonormal) ->
  norm (residual (leftCols complex_orthonormal (Z.to_nat 1)) c) <> 0.
Proof.
  intros Hc. simpl in Hc. apply list_elem_of_singleton in Hc as ->.
  change (Z.to_nat 1) with 1%nat.
  assert (residual (leftCols complex_orthonormal 1) [(0, 4/5); (3/5, 0)]
          = [(0, 28/125); (171/125, 0)]) as ->.
  { unfold residual, mat_vec, trans_vec, tdot, vsub, vadd, vscale. simpl.
    repeat (f_equal; try lra). }
  intros E. apply norm_zero_iff_C in E. simpl in E. injection E as E1 E2. lra.
Qed.

Lemma MGS_complex_orthonormal_columns_witness :
  wf complex_columns /\
  lin_indep (rows complex_columns) (colvecs complex_columns) /\
  (0 <= 0 < cols complex_columns)%Z /\
  orthonormal (take (Z.to_nat 0) (colvecs complex_columns)) /\
  exists m',
    MGS_orthogonalisation 0%Z complex_columns = (m', Done tt) /\
    length (colvecs m') = length (colvecs complex_columns) /\
    take (Z.to_nat 0) (colvecs m') = take (Z.to_nat 0) (colvecs complex_columns) /\
    orthonormal (colvecs m') /\
    forall q, q ∈ colvecs m' ->
      in_span (rows complex_columns) (colvecs complex_columns) q.
Proof.
  assert (wf complex_columns) as Hwf by (by repeat constructor).
  assert (0 <= 0 < cols complex_columns)%Z as HL by (unfold cols; simpl; lia).
  assert (orthonormal (take (Z.to_nat 0) (colvecs complex_columns))) as Ho
    by (intros i j ci cj Hi; done).
  split; [exact Hwf|]. split; [exact complex_columns_indep|].
  split; [exact HL|]. split; [exact Ho|].
  exact (MGS_complex_orthonormal_columns complex_columns 0%Z Hwf
           complex_columns_indep HL Ho).
Defined.

Lemma partial_complex_components_witness :
  wf complex_orthonormal /\ (1 <= 1 < cols complex_orthonormal)%Z /\
  orthonormal (take (Z.to_nat 1) (colvecs complex_orthonormal)) /\
  (forall c, c ∈ drop (Z.to_nat 1) (colvecs complex_orthonormal) ->
     norm (residual (leftCols complex_orthonormal (Z.to_nat 1)) c) <> 0) /\
  exists m',
    partial_orthogonalisation 1%Z complex_orthonormal = (m', Done tt) /\
    forall k c i p,
      colvecs complex_orthonormal !! (Z.to_nat 1 + k)%nat = Some c ->
      colvecs complex_orthonormal !! i = Some p -> (i < Z.to_nat 1)%nat ->
      exists c',
        colvecs m' !! (Z.to_nat 1 + k)%nat = Some c' /\
        dot p c' =
          smul (/ norm (residual (leftCols complex_orthonormal (Z.to_nat 1)) c), 0)
            (ssub (dot p c) (tdot p c)) /\
        (dot p c' = s0 <-> dot p c = tdot p c).
Proof.
  assert (wf complex_orthonormal) as Hwf by (by repeat constructor).
  assert (1 <= 1 < cols complex_orthonormal)%Z as HL
    by (unfold cols; simpl; lia).
  split; [exact Hwf|]. split; [exact HL|].
  split; [exact complex_orthonormal_prefix|].
  split; [exact complex_orthonormal_residual|].
  exact (partial_complex_components complex_orthonormal 1%Z Hwf HL
           complex_orthonormal_prefix complex_orthonormal_residual).
Defined.

End ComplexSampleInputs.

(** ** The factorisation step on complex matrices *)

Section ComplexQR.

Local Open Scope R_scope.

Local Abbreviation lc n cs a := (mat_vec (mkMatrix n cs) a).
Local Abbreviation cwf n cs := (Forall (fun c : Vector C => length c = n) cs).

Implicit Types (u v w c q : Vector C) (n : nat) (m : Matrix C).
Implicit Types (cs Qs : list (Vector C)) (ws : list C).

Lemma lc_all_zero_C n cs ws :
  cwf n cs -> Forall (fun x => x = s0) ws -> lc n cs ws = vzero n.
Proof.
  intros Hcs. revert ws. induction Hcs as [|c cs Hc Hcs IH]; intros [|x ws] Hws;
    try done.
  apply Forall_cons in Hws as [-> Hws].
  rewrite lc_cons_C, IH, vscale_0_C, Hc by done.
  apply vadd_zero_r_C, length_vzero_C.
Qed.

Lemma lc_unit_vec_C n Qs j q s N :
  cwf n Qs -> Qs !! j = Some q -> (j < N)%nat ->
  lc n Qs (@map nat C (fun i => if Nat.eqb i (s + j) then (1, 0) else (0, 0))
             (seq s N)) = q.
Proof.
  intros HQ. revert j s N.
  induction HQ as [|c Qs Hc HQ IH]; intros j s [|N] Hj HN; try done; try lia.
  simpl seq. simpl map. rewrite lc_cons_C. destruct j as [|j]; simpl in Hj.
  - injection Hj as ->. rewrite Nat.add_0_r, Nat.eqb_refl, vscale_1_C.
    rewrite lc_all_zero_C; [by apply vadd_zero_r_C|done|].
    apply Forall_forall. intros x Hx.
    apply list_elem_of_fmap in Hx as (i & -> & Hi).
    apply elem_of_seq in Hi. destruct (Nat.eqb_spec i s); [lia|done].
  - destruct (Nat.eqb_spec s (s + S j)); [lia|].
    rewrite vscale_0_C, Hc.
    replace (s + S j)%nat with (S s + j)%nat by lia.
    rewrite (IH j (S s) N Hj) by lia.
    apply vadd_zero_l_C. by eapply Forall_lookup_1 in HQ.
Qed.

Lemma mat_mul_Identity_C (Q : Matrix C) N r :
  wf Q -> (r <= length (colvecs Q))%nat -> (r <= N)%nat ->
  colvecs (mat_mul Q (Identity N r)) = take r (colvecs Q).
Proof.
  intros HQ Hr HN. unfold mat_mul, Identity. simpl.
  induction r as [|r IH]; [done|].
  destruct (lookup_lt_is_Some_2 (colvecs Q) r) as [q Hq]; [lia|].
  rewrite seq_S, !map_app, IH by lia. simpl.
  rewrite (take_S_r _ _ q) by done. f_equal. f_equal.
  unfold unit_vec. destruct Q as [n Qs]. simpl in *.
  by apply (lc_unit_vec_C n Qs r q 0 N).
Qed.

Lemma orthonormal_take_C cs r : orthonormal cs -> orthonormal (take r cs).
Proof.
  intros Ho i j ci cj Hi Hj.
  apply lookup_take_Some in Hi as [Hi _]. apply lookup_take_Some in Hj as [Hj _].
  by apply Ho.
Qed.

(** X24. With Eigen's kernel honouring its contract on a complex
    matrix (a square factor whose columns are orthonormal for the
    Hermitian inner product), [QR_orthogonalisation] returns the first
    [min(rows, cols)] columns of that factor: a matrix with the rows of
    the input whose columns are orthonormal for the Hermitian inner
    product, whatever the rank of the input. *)
Theorem QR_complex_result (hq : Matrix C -> Matrix C) (m : Matrix C) :
  is_householderQ m (hq m) ->
  QR_orthogonalisation hq m =
    (mkMatrix (rows m)
       (take (Nat.min (rows m) (length (colvecs m))) (colvecs (hq m))),
     Done tt) /\
  orthonormal (take (Nat.min (rows m) (length (colvecs m))) (colvecs (hq m))).
Proof.
  intros (Hr & Hl & Hwf & Ho & _). split; [|by apply orthonormal_take_C].
  rewrite QR_run. f_equal.
  assert (forall b : Matrix C, b = mkMatrix (rows b) (colvecs b)) as Heta
    by (by intros []).
  rewrite (Heta (mat_mul _ _)).
  rewrite mat_mul_Identity_C; [|done|lia|lia]. simpl. by rewrite Hr.
Qed.

End ComplexQR.

Section ComplexFactorSample.

Local Open Scope R_scope.

(** The unit matrix of order 2 is a Householder factor of the complex
    upper triangular matrix with columns [(1, 0)] and [(i, 2)]. *)
Lemma complex_unit_factor_contract :
  is_householderQ complex_triangular (complex_unit_factor complex_triangular).
Proof.
  unfold complex_unit_factor. split; [done|]. split; [done|].
  split; [by repeat constructor|]. split.
  - intros i j ci cj Hi Hj.
    destruct i as [|[|i]]; destruct j as [|[|j]]; simpl in Hi, Hj; try done;
      injection Hi as <-; injection Hj as <-;
      case_decide; try lia; unfold dot; simpl; f_equal; lra.
  - exists complex_triangular. split; [done|]. split; [done|].
    split; [by repeat constructor|]. split.
    + intros j c i x Hj Hi Hji. simpl in Hj. destruct j as [|[|j]]; [| |done].
      * injection Hj as <-. destruct i as [|[|i]]; [lia| |done].
        by injection Hi as <-.
      * injection Hj as <-. destruct i as [|[|i]]; [lia|lia|done].
    + unfold complex_triangular, mat_mul, mat_vec, vadd, vscale. simpl.
      repeat (f_equal; try lra).
Qed.

Lemma QR_complex_result_witness :
  is_householderQ complex_triangular (complex_unit_factor complex_triangular) /\
  QR_orthogonalisation complex_unit_factor complex_triangular =
    (mkMatrix (rows complex_triangular)
       (take (Nat.min (rows complex_triangular)
                (length (colvecs complex_triangular)))
          (colvecs (complex_unit_factor complex_triangular))),
     Done tt) /\
  orthonormal
    (take (Nat.min (rows complex_triangular)
             (length (colvecs complex_triangular)))
       (colvecs (complex_unit_factor complex_triangular))).
Proof.
  split; [exact complex_unit_factor_contract|].
  exact (QR_complex_result complex_unit_factor complex_triangular
           complex_unit_factor_contract).
Defined.

End ComplexFactorSample.
